(** * Flow fields: a shallow embedding of the numerical core

    The development follows the TypeScript sources
    - [src/noise.ts]     (simplex noise, and the signed distance field [SDF]),
    - [src/FlowField.ts] (fractal flow field and its blending with the SDF),
    - [src/Particle.ts]  (particle transport),
    - [src/main.ts]      (the particle system and the animation loop),
    - [unnamed/part_000] (the flow field before the distance field).

    Numbers.  A JavaScript [number] is modelled by a real number: arithmetic
    is exact, rounding of binary64 and of [Float32Array] cells is not
    modelled.  The special values [Infinity] and [NaN] are modelled where the
    sources produce them (sampling of the distance field, and everything
    downstream of it) by the type [num]; signed zeros are not distinguished.
    Positions, scales, speeds and the resolution of a distance field are
    finite numbers, and the resolution is not zero.  Integer-valued
    quantities (seeds, table entries, lattice coordinates, the octave count)
    are in [Z]; on integers below 2^53 in absolute value this is what the
    sources compute.

    Typed arrays are lists.  A read outside the array gives [undefined]
    and a write outside it does nothing; both are written out where they
    can happen.

    Methods that change an object return the new state.  The values of
    [Math.random()] are parameters. *)

From Stdlib Require Import ZArith List Reals Lra Lia Psatz Permutation.
From stdpp Require Import base option list.
Import ListNotations.

(** ** JavaScript numbers with their special values *)

Module JsNum.

Inductive num : Type :=
| Fin (r : R)
| PInf
| NInf
| NaN.

Definition Rltb (a b : R) : bool := if Rlt_dec a b then true else false.
Definition Rleb (a b : R) : bool := if Rle_dec a b then true else false.
Definition Reqb (a b : R) : bool := if Req_dec_T a b then true else false.

(** [r * (+Infinity)] when [pos], [r * (-Infinity)] otherwise. *)
Definition scale_inf (pos : bool) (r : R) : num :=
  if Rltb 0 r then (if pos then PInf else NInf)
  else if Rltb r 0 then (if pos then NInf else PInf)
  else NaN.

Definition nneg (a : num) : num :=
  match a with
  | Fin r => Fin (- r)
  | PInf => NInf
  | NInf => PInf
  | NaN => NaN
  end.

Definition nadd (a b : num) : num :=
  match a, b with
  | NaN, _ | _, NaN => NaN
  | Fin x, Fin y => Fin (x + y)
  | PInf, NInf | NInf, PInf => NaN
  | PInf, _ | _, PInf => PInf
  | NInf, _ | _, NInf => NInf
  end.

Definition nsub (a b : num) : num := nadd a (nneg b).

Definition nmul (a b : num) : num :=
  match a, b with
  | NaN, _ | _, NaN => NaN
  | Fin x, Fin y => Fin (x * y)
  | Fin x, PInf | PInf, Fin x => scale_inf true x
  | Fin x, NInf | NInf, Fin x => scale_inf false x
  | PInf, PInf | NInf, NInf => PInf
  | PInf, NInf | NInf, PInf => NInf
  end.

Definition ndiv (a b : num) : num :=
  match a, b with
  | NaN, _ | _, NaN => NaN
  | Fin x, Fin y =>
      if Reqb y 0 then scale_inf true x else Fin (x / y)
  | Fin _, (PInf | NInf) => Fin 0
  | PInf, Fin y => if Rltb y 0 then NInf else PInf
  | NInf, Fin y => if Rltb y 0 then PInf else NInf
  | (PInf | NInf), (PInf | NInf) => NaN
  end.

(** [Math.sqrt] *)
Definition nsqrt (a : num) : num :=
  match a with
  | Fin r => if Rltb r 0 then NaN else Fin (sqrt r)
  | PInf => PInf
  | NInf | NaN => NaN
  end.

(** [Math.abs] *)
Definition nabs (a : num) : num :=
  match a with
  | Fin r => Fin (Rabs r)
  | PInf | NInf => PInf
  | NaN => NaN
  end.

(** [a < b]; every comparison with [NaN] is false. *)
Definition nltb (a b : num) : bool :=
  match a, b with
  | NaN, _ | _, NaN => false
  | Fin x, Fin y => Rltb x y
  | _, NInf => false
  | NInf, _ => true
  | PInf, _ => false
  | Fin _, PInf => true
  end.

(** [a > b] *)
Definition ngtb (a b : num) : bool := nltb b a.

(** [a >= b] *)
Definition ngeb (a b : num) : bool :=
  match a, b with
  | NaN, _ | _, NaN => false
  | Fin x, Fin y => Rleb y x
  | PInf, _ => true
  | _, NInf => true
  | _, _ => false
  end.

(** [a !== b] on numbers: [NaN] differs from everything. *)
Definition nneqb (a b : num) : bool :=
  match a, b with
  | Fin x, Fin y => negb (Reqb x y)
  | PInf, PInf | NInf, NInf => false
  | _, _ => true
  end.

Definition is_finite (a : num) : Prop :=
  match a with Fin _ => True | _ => False end.

End JsNum.

Export JsNum.

Declare Scope num_scope.
Delimit Scope num_scope with num.
Bind Scope num_scope with num.
Infix "+" := nadd : num_scope.
Infix "-" := nsub : num_scope.
Infix "*" := nmul : num_scope.
Infix "/" := ndiv : num_scope.
Notation "- x" := (nneg x) : num_scope.

(** [interface Vector { x: number, y: number }] *)
Module Vector.
Record t : Type := mk { x : num; y : num }.
End Vector.

(** ** Typed arrays of bytes ([Uint8Array]) *)

Module U8.

(** Conversion of an integer to a byte on storing. *)
Definition wrap (v : Z) : Z := v mod 256.

(** [a[i]]: [None] stands for [undefined], the result of reading outside
    the array (a negative index included). *)
Definition get (a : list Z) (i : Z) : option Z :=
  if (i <? 0)%Z then None else a !! Z.to_nat i.

(** [a[i] = v]: writing outside the array does nothing; [undefined] is
    stored as [0]. *)
Definition set (a : list Z) (i : Z) (v : option Z) : list Z :=
  if (i <? 0)%Z then a
  else <[Z.to_nat i := match v with Some b => wrap b | None => 0%Z end]> a.

(** [a[i]] stored in a typed array or used as an index of one of the
    tables of 512 bytes, where the read is inside the array (lemma
    [tables_in_range]); [undefined] would be stored as [0]. *)
Definition at_ (a : list Z) (i : Z) : Z := default 0%Z (get a i).

End U8.

(** ** Simplex noise ([src/noise.ts], first part) *)

Module SimplexNoise.

Local Open Scope R_scope.

Definition F2 : R := 0.5 * (sqrt 3 - 1).
Definition G2 : R := (3 - sqrt 3) / 6.

Definition grad3 : list (Z * Z * Z) :=
  [ (1, 1, 0); (-1, 1, 0); (1, -1, 0); (-1, -1, 0);
    (1, 0, 1); (-1, 0, 1); (1, 0, -1); (-1, 0, -1);
    (0, 1, 1); (0, -1, 1); (0, 1, -1); (0, -1, -1) ]%Z.

(** [grad3[gi][0]] and [grad3[gi][1]] *)
Definition grad3_0 (gi : Z) : Z := fst (fst (nth (Z.to_nat gi) grad3 (0, 0, 0)%Z)).
Definition grad3_1 (gi : Z) : Z := snd (fst (nth (Z.to_nat gi) grad3 (0, 0, 0)%Z)).

(** The integers [lo, lo+1, ..., lo+n-1]. *)
Definition zrange (lo : Z) (n : nat) : list Z := map (fun k => (lo + Z.of_nat k)%Z) (seq 0 n).

(** One round of the seed-based shuffle (the body of the loop over [i]):
    the state is the generator [n] and the table [p].  [%] is the remainder
    of the truncating division, [Z.rem]; it has the sign of [n].

    The product [n * 16807] is the integer product.  The source computes it
    in binary64, where it is the same number as long as it is below 2^53 in
    absolute value.  After the first round [n] is below 2^31 in absolute
    value, and every later product is below 2^46; so the definition is the
    source's for the integer seeds with [|seed * 16807| < 2^53], and for no
    other seed: from [|seed * 16807| >= 2^53] on the source rounds the first
    product, and once that product overflows its [n] is [NaN]. *)
Definition shuffle_step (st : Z * list Z) (i : Z) : Z * list Z :=
  let '(n, p) := st in
  let n := Z.rem (n * 16807) 2147483647 in
  let j := Z.rem n (i + 1) in
  let tmp := U8.get p i in
  let p := U8.set p i (U8.get p j) in
  let p := U8.set p j tmp in
  (n, p).

(** The table [p] of [buildPermutationTable] after the shuffle:
    [i] runs from 255 down to 1. *)
Definition shuffled (seed : Z) : list Z :=
  snd (fold_left shuffle_step (rev (zrange 1 255)) (seed, zrange 0 256)).

(** The 512-entry table [perm] that [buildPermutationTable] returns
    (its local [permMod12] is dropped on return). *)
Definition duplicate (p : list Z) : list Z :=
  map (fun i => U8.at_ p (Z.land i 255)) (zrange 0 512).

Definition buildPermutationTable (seed : Z) : list Z := duplicate (shuffled seed).

Record t : Type := mk { perm : list Z; permMod12 : list Z }.

(** The constructor, for an integer seed. *)
Definition new (seed : Z) : t :=
  let perm := buildPermutationTable seed in
  {| perm := perm;
     permMod12 := map (fun i => U8.wrap (Z.rem (U8.at_ perm i) 12)) (zrange 0 512) |}.

(** The contribution of one corner: [t = 0.5 - x*x - y*y], and if [t >= 0],
    [t *= t] and the contribution is [t * t * (g[0] * x + g[1] * y)]. *)
Definition corner (gi : Z) (x y : R) : R :=
  let t := 0.5 - x * x - y * y in
  if Rle_dec 0 t then
    let t := t * t in
    t * t * (IZR (grad3_0 gi) * x + IZR (grad3_1 gi) * y)
  else 0.

Definition noise2D (sn : t) (x y : R) : R :=
  (* Skew input space to determine simplex cell *)
  let s := (x + y) * F2 in
  let i := Int_part (x + s) in
  let j := Int_part (y + s) in
  (* Unskew back to (x, y) space *)
  let t := IZR (i + j) * G2 in
  let X0 := IZR i - t in
  let Y0 := IZR j - t in
  let x0 := x - X0 in
  let y0 := y - Y0 in
  (* Determine which simplex we're in *)
  let '(i1, j1) := if Rlt_dec y0 x0 then (1, 0)%Z else (0, 1)%Z in
  (* Offsets for corners *)
  let x1 := x0 - IZR i1 + G2 in
  let y1 := y0 - IZR j1 + G2 in
  let x2 := x0 - 1 + 2 * G2 in
  let y2 := y0 - 1 + 2 * G2 in
  (* Hash coordinates of corners *)
  let ii := Z.land i 255 in
  let jj := Z.land j 255 in
  let gi0 := U8.at_ (permMod12 sn) (ii + U8.at_ (perm sn) jj) in
  let gi1 := U8.at_ (permMod12 sn) (ii + i1 + U8.at_ (perm sn) (jj + j1)) in
  let gi2 := U8.at_ (permMod12 sn) (ii + 1 + U8.at_ (perm sn) (jj + 1)) in
  (* Calculate contributions from corners *)
  let n0 := corner gi0 x0 y0 in
  let n1 := corner gi1 x1 y1 in
  let n2 := corner gi2 x2 y2 in
  (* Scale to [-1, 1] *)
  70 * (n0 + n1 + n2).

End SimplexNoise.

(** ** Loops and reads that can leave the model *)

(** [for (a of xs) s = body(s, a)] in the option monad.  In the distance
    transform [None] means that the computation leaves the model: a read
    outside a typed array (the value [undefined]), a division by zero, or a
    loop that does not end within its bound. *)
Fixpoint forM {S A : Type} (xs : list A) (body : S -> A -> option S) (s : S) : option S :=
  match xs with
  | [] => Some s
  | a :: xs' => s' ← body s a; forM xs' body s'
  end.

(** A value read from a [Uint8Array] taken as a condition. *)
Definition truthy (v : option Z) : bool :=
  match v with
  | Some b => negb (b =? 0)%Z
  | None => false
  end.

(** ** Signed distance field ([src/noise.ts], second part: the class [SDF]) *)

Module SDF.

Local Open Scope R_scope.

Record t : Type := mk {
  grid : list num;
  gradientX : list num;
  gradientY : list num;
  gridWidth : Z;
  gridHeight : Z;
  resolution : R;
  loaded : bool
}.

Definition new (resolution : R) : t :=
  {| grid := []; gradientX := []; gradientY := [];
     gridWidth := 0; gridHeight := 0; resolution := resolution; loaded := false |}.

(** *** The two-pass distance transform *)

(** [if (dist[idx] > dist[nb] + 1) dist[idx] = dist[nb] + 1] *)
Definition relax (dist : list R) (idx nb : nat) : option (list R) :=
  d ← dist !! idx;
  e ← dist !! nb;
  Some (if Rlt_dec (e + 1) d then <[idx := e + 1]> dist else dist).

(** Forward scan, then backward scan, of row [y]. *)
Definition scan_row (w : nat) (dist : list R) (y : nat) : option (list R) :=
  dist ← forM (seq 1 (w - 1)%nat)
           (fun dist x => relax dist (y * w + x)%nat (y * w + x - 1)%nat) dist;
  forM (rev (seq 0 (w - 1)%nat))
       (fun dist x => relax dist (y * w + x)%nat (y * w + x + 1)%nat) dist.

Definition horizontal (w h : nat) (dist : list R) : option (list R) :=
  forM (seq 0 h) (scan_row w) dist.

(** [((f[q] + q*q) - (f[v[k]] + v[k]*v[k])) / (2*q - 2*v[k])] *)
Definition intersect (f : list R) (v : list nat) (q k : nat) : option R :=
  vk ← v !! k;
  fq ← f !! q;
  fv ← f !! vk;
  let den := 2 * INR q - 2 * INR vk in
  if Req_dec_T den 0 then None
  else Some (((fq + INR q * INR q) - (fv + INR vk * INR vk)) / den).

(** [s = intersect(k); while (s <= z[k]) { k--; s = intersect(k) }]:
    the result is the final [(k, s)]; [None] also when [k] would drop
    below zero. *)
Fixpoint pop (f : list R) (v : list nat) (z : list R) (q k : nat) : option (nat * R) :=
  s ← intersect f v q k;
  zk ← z !! k;
  if Rle_dec s zk then
    match k with
    | O => None
    | S k' => pop f v z q k'
    end
  else Some (k, s).

(** [while (z[k + 1] < y) k++]; the comparison with [undefined] (a read
    past the end of [z]) is false. *)
Fixpoint skip (z : list R) (y : R) (fuel k : nat) : option nat :=
  match z !! (S k) with
  | Some zk =>
      if Rlt_dec zk y then
        match fuel with
        | O => None
        | S fuel' => skip z y fuel' (S k)
        end
      else Some k
  | None => Some k
  end.

(** The scratch arrays [f], [v], [z] of the vertical pass; they are
    allocated once and reused for every column. *)
Record scratch : Type := mkScratch { sf : list R; sv : list nat; sz : list R }.

(** Extract column [x]: [f[y] = dist[y*w + x] * dist[y*w + x]]. *)
Definition extract (w h x : nat) (dist : list R) (f : list R) : option (list R) :=
  forM (seq 0 h)
       (fun f y => d ← dist !! (y * w + x)%nat; Some (<[y := d * d]> f)) f.

(** Compute the lower envelope of column [x]: the state is [(k, v, z)]. *)
Definition envelope_step (INF : R) (f : list R) (st : nat * list nat * list R) (q : nat)
  : option (nat * list nat * list R) :=
  let '(k, v, z) := st in
  '(k, s) ← pop f v z q k;
  let k := S k in
  let v := <[k := q]> v in
  let z := <[k := s]> z in
  let z := <[S k := INF]> z in
  Some (k, v, z).

Definition envelope (INF : R) (h : nat) (f : list R) (v : list nat) (z : list R)
  : option (nat * list nat * list R) :=
  let v := <[0%nat := 0%nat]> v in
  let z := <[0%nat := - INF]> z in
  let z := <[1%nat := INF]> z in
  forM (seq 1 (h - 1)%nat) (envelope_step INF f) (0%nat, v, z).

(** Fill in column [x] with squared distances: the state is [(k, dist)]. *)
Definition fill_step (w x : nat) (f : list R) (v : list nat) (z : list R)
  (st : nat * list R) (y : nat) : option (nat * list R) :=
  let '(k, dist) := st in
  k ← skip z (INR y) (length z) k;
  vk ← v !! k;
  fv ← f !! vk;
  let dy := INR y - INR vk in
  Some (k, <[(y * w + x)%nat := fv + dy * dy]> dist).

Definition column (INF : R) (w h : nat) (st : list R * scratch) (x : nat)
  : option (list R * scratch) :=
  let '(dist, sc) := st in
  f ← extract w h x dist (sf sc);
  '(_, v, z) ← envelope INF h f (sv sc) (sz sc);
  '(_, dist) ← forM (seq 0 h) (fill_step w x f v z) (0%nat, dist);
  Some (dist, mkScratch f v z).

Definition vertical (w h : nat) (dist : list R) : option (list R) :=
  let INF := INR ((w + h) * (w + h))%nat in
  let sc := mkScratch (replicate h 0) (replicate h 0%nat) (replicate (h + 1)%nat 0) in
  fst <$> forM (seq 0 w) (column INF w h) (dist, sc).

Definition distanceTransform2D (dist : list R) (w h : nat) : option (list R) :=
  dist ← horizontal w h dist;
  vertical w h dist.

(** The initialisation loop of [computeDistanceField]: the state is
    [(distOutside, distInside)]. *)
Definition init_step (inside : list Z) (st : list R * list R) (i : nat) : list R * list R :=
  let '(distOutside, distInside) := st in
  if truthy (inside !! i) then (<[i := 0]> distOutside, distInside)
  else (distOutside, <[i := 0]> distInside).

(** Combine into the signed distance field. *)
Definition combine_step (resolution : R) (inside : list Z) (distOutside distInside : list R)
  (sdf : list R) (i : nat) : option (list R) :=
  dO ← distOutside !! i;
  dI ← distInside !! i;
  let dOut := sqrt dO * resolution in
  let dIn := sqrt dI * resolution in
  Some (<[i := if truthy (inside !! i) then - dIn else dOut]> sdf).

(** [computeDistanceField] for [w = this.gridWidth], [h = this.gridHeight]
    and [this.resolution]. *)
Definition initialise (w h : nat) (inside : list Z) : list R * list R :=
  let INF := INR (w + h)%nat in
  fold_left (init_step inside) (seq 0 (w * h)%nat)
            (replicate (w * h)%nat INF, replicate (w * h)%nat INF).

Definition computeDistanceField (w h : nat) (resolution : R) (inside : list Z)
  : option (list R) :=
  let '(distOutside, distInside) := initialise w h inside in
  distOutside ← distanceTransform2D distOutside w h;
  distInside ← distanceTransform2D distInside w h;
  forM (seq 0 (w * h)%nat) (combine_step resolution inside distOutside distInside)
       (replicate (w * h)%nat 0).

(** *** Gradients *)

(** A cell of a [Float32Array] used in arithmetic: [undefined] acts as [NaN]. *)
Definition cell (a : list num) (i : Z) : num :=
  if (i <? 0)%Z then NaN else default NaN (a !! Z.to_nat i).

Definition gradient_cell (g : list num) (w h : Z) (resolution : R) (x y : Z) : num * num :=
  let x0 := Z.max 0 (x - 1) in
  let x1 := Z.min (w - 1) (x + 1) in
  let y0 := Z.max 0 (y - 1) in
  let y1 := Z.min (h - 1) (y + 1) in
  ((cell g (y * w + x1) - cell g (y * w + x0)) / Fin (IZR (x1 - x0) * resolution),
   (cell g (y1 * w + x) - cell g (y0 * w + x)) / Fin (IZR (y1 - y0) * resolution))%num.

(** [computeGradients]: the new [gradientX] and [gradientY], row by row. *)
Definition computeGradients (g : list num) (w h : nat) (resolution : R)
  : list num * list num :=
  let cells :=
    flat_map (fun y => map (fun x => gradient_cell g (Z.of_nat w) (Z.of_nat h) resolution
                                       (Z.of_nat x) (Z.of_nat y)) (seq 0 w)) (seq 0 h) in
  (map fst cells, map snd cells).

(** [Math.ceil] *)
Definition ceil (r : R) : Z := (- Int_part (- r))%Z.

(** What [fromSVG] does once the shape is rasterised to the mask [inside]
    (one byte per cell, [1] inside the shape).  It does not return when the
    grid width or the grid height is zero or negative: [getImageData]
    throws on a rectangle of width or height zero, [new Uint8Array(w * h)]
    throws a [RangeError] on a negative length, and so does
    [new Float32Array(h)] in [distanceTransform2D]. *)
Definition fromMask (s : t) (canvasWidth canvasHeight : R) (inside : list Z) : option t :=
  let w := ceil (canvasWidth / resolution s) in
  let h := ceil (canvasHeight / resolution s) in
  if ((w <=? 0) || (h <=? 0))%Z then None else
  g ← computeDistanceField (Z.to_nat w) (Z.to_nat h) (resolution s) inside;
  let g := map Fin g in
  let '(gX, gY) := computeGradients g (Z.to_nat w) (Z.to_nat h) (resolution s) in
  Some {| grid := g; gradientX := gX; gradientY := gY;
          gridWidth := w; gridHeight := h; resolution := resolution s; loaded := true |}.

(** *** Sampling *)

Definition getGridValue (s : t) (g : list num) (x y : Z) : num :=
  if ((x <? 0) || (x >=? gridWidth s) || (y <? 0) || (y >=? gridHeight s))%Z
  then PInf
  else cell g (y * gridWidth s + x).

Definition sampleBilinear (s : t) (g : list num) (gx gy : R) : num :=
  let x0 := Int_part gx in
  let y0 := Int_part gy in
  let x1 := Z.min (x0 + 1) (gridWidth s - 1) in
  let y1 := Z.min (y0 + 1) (gridHeight s - 1) in
  let fx := gx - IZR x0 in
  let fy := gy - IZR y0 in
  let v00 := getGridValue s g x0 y0 in
  let v10 := getGridValue s g x1 y0 in
  let v01 := getGridValue s g x0 y1 in
  let v11 := getGridValue s g x1 y1 in
  (* Bilinear interpolation *)
  let v0 := (v00 * Fin (1 - fx) + v10 * Fin fx)%num in
  let v1 := (v01 * Fin (1 - fx) + v11 * Fin fx)%num in
  (v0 * Fin (1 - fy) + v1 * Fin fy)%num.

Definition getDistance (s : t) (x y : R) : num :=
  if negb (loaded s) then PInf
  else
    (* Convert to grid coordinates *)
    let gx := x / resolution s in
    let gy := y / resolution s in
    sampleBilinear s (grid s) gx gy.

Definition getGradient (s : t) (x y : R) : Vector.t :=
  if negb (loaded s) then Vector.mk (Fin 0) (Fin 0)
  else
    let gx := x / resolution s in
    let gy := y / resolution s in
    let gradX := sampleBilinear s (gradientX s) gx gy in
    let gradY := sampleBilinear s (gradientY s) gx gy in
    (* Normalize gradient *)
    let len := nsqrt (gradX * gradX + gradY * gradY)%num in
    if nltb len (Fin 0.0001) then Vector.mk (Fin 0) (Fin 0)
    else Vector.mk (gradX / len)%num (gradY / len)%num.

Definition isLoaded (s : t) : bool := loaded s.

(** The position [(gx, gy)], in grid coordinates, is outside the grid. *)
Definition outside (s : t) (gx gy : R) : Prop :=
  (Int_part gx < 0 \/ gridWidth s <= Int_part gx \/
   Int_part gy < 0 \/ gridHeight s <= Int_part gy)%Z.

(** *** Vocabulary for the distance transform *)

(** Every cell holds a value between 0 and [B]. *)
Definition bounded (B : R) (n : nat) (d : list R) : Prop :=
  length d = n /\ forall i v, d !! i = Some v -> 0 <= v <= B.

(** [d] is obtained from [d0] by lowering cells, never below 0, and never
    below 1 a cell that was at least 1. *)
Definition lowered (B : R) (n : nat) (d0 d : list R) : Prop :=
  length d = n /\
  forall i v0, d0 !! i = Some v0 ->
    exists v, d !! i = Some v /\ 0 <= v <= B /\ (1 <= v0 -> 1 <= v).

(** [f] holds the squares of column [x] of [g], up to row [k]. *)
Definition squares_of (w h : nat) (g f : list R) (x k : nat) : Prop :=
  length f = h /\
  forall y, (y < k)%nat -> exists gv, g !! (y * w + x)%nat = Some gv /\ f !! y = Some (gv * gv).

(** Cell [(x, y)] of [d] holds a parabola of column [x] of [g], taken at [y]. *)
Definition parabola_at (w h : nat) (g d : list R) (x y : nat) : Prop :=
  exists u gv, (u < h)%nat /\ g !! (u * w + x)%nat = Some gv /\
    d !! (y * w + x)%nat = Some (gv * gv + (INR y - INR u) * (INR y - INR u)).

(** The state of the vertical pass before column [k]: the columns before [k]
    are done, the others are as in [g]. *)
Definition columns_done (w h : nat) (g : list R) (k : nat) (st : list R * scratch) : Prop :=
  let '(d, sc) := st in
  length d = (w * h)%nat /\
  length (sf sc) = h /\ length (sv sc) = h /\ length (sz sc) = S h /\
  (forall x y, (x < k)%nat -> (x < w)%nat -> (y < h)%nat -> parabola_at w h g d x y) /\
  (forall x y, (k <= x)%nat -> (x < w)%nat -> (y < h)%nat ->
     d !! (y * w + x)%nat = g !! (y * w + x)%nat).

(** The envelope of a column before step [q]: [k] is the top of the stack
    [v] of parabolas, [z] holds the boundaries between them. *)
Definition envelope_inv (INF : R) (h q : nat) (st : nat * list nat * list R) : Prop :=
  let '(k, v, z) := st in
  (k < q)%nat /\ length v = h /\ length z = S h /\
  (forall j, (j <= k)%nat -> exists vj, v !! j = Some vj /\ (vj < q)%nat) /\
  v !! 0%nat = Some 0%nat /\
  z !! 0%nat = Some (- INF) /\
  z !! (S k) = Some INF.

(** The fill loop of column [x] before row [y]: [k] is at most the top [K]
    of the envelope; the rows before [y] are done. *)
Definition fill_inv (w h : nat) (g d0 : list R) (x K y : nat) (st : nat * list R) : Prop :=
  let '(k, d) := st in
  (k <= K)%nat /\ length d = (w * h)%nat /\
  (forall y', (y' < y)%nat -> parabola_at w h g d x y') /\
  (forall i, (forall y', (y' < y)%nat -> i <> (y' * w + x)%nat) -> d !! i = d0 !! i).

(** The two scratch grids before cell [k] is initialised. *)
Definition initialised (w h : nat) (inside : list Z) (k : nat) (st : list R * list R) : Prop :=
  let '(dO, dI) := st in
  let INF := INR (w + h) in
  length dO = (w * h)%nat /\ length dI = (w * h)%nat /\
  (forall i, (i < k)%nat -> (i < w * h)%nat ->
     dO !! i = Some (if truthy (inside !! i) then 0 else INF) /\
     dI !! i = Some (if truthy (inside !! i) then INF else 0)) /\
  (forall i, (k <= i)%nat -> (i < w * h)%nat -> dO !! i = Some INF /\ dI !! i = Some INF).

(** The signed distance of cell [i]. *)
Definition signed (resolution : R) (inside : list Z) (distOutside distInside : list R)
  (i : nat) (d : R) : Prop :=
  exists dO dI, distOutside !! i = Some dO /\ distInside !! i = Some dI /\
    d = if truthy (inside !! i) then - (sqrt dI * resolution) else sqrt dO * resolution.

(** A grid as [fromSVG] leaves it: one finite value per cell. *)
Definition grid_ok (s : t) (g : list num) : Prop :=
  length g = Z.to_nat (gridWidth s * gridHeight s) /\ Forall is_finite g.

Definition well_formed (s : t) : Prop :=
  grid_ok s (grid s) /\ grid_ok s (gradientX s) /\ grid_ok s (gradientY s).

(** The values that a sample takes once a cell outside the grid enters it. *)
Definition inf_or_nan (a : num) : Prop := a = PInf \/ a = NaN.

Definition clear (s : t) : t :=
  {| grid := []; gradientX := []; gradientY := [];
     gridWidth := gridWidth s; gridHeight := gridHeight s;
     resolution := resolution s; loaded := false |}.

(** The cells of [g] are finite and between [lo] and [hi]. *)
Definition cells_between (lo hi : R) (g : list num) : Prop :=
  Forall (fun a => exists v, a = Fin v /\ lo <= v <= hi) g.

(** *** Vocabulary for the exactness of the distance transform *)

(** [l[i]], for an index inside the array. *)
Definition read (l : list R) (i : nat) : R := default 0 (l !! i).

(** [v[j]], for an index inside the array. *)
Definition peek (v : list nat) (j : nat) : nat := default 0%nat (v !! j).

(** [m] is the least of the values [F 0], ..., [F (n - 1)]. *)
Definition least (n : nat) (F : nat -> R) (m : R) : Prop :=
  (exists c, (c < n)%nat /\ m = F c) /\ forall c, (c < n)%nat -> m <= F c.

(** The least of [d[y*w + c'] + (c - c')] over the cells [c' <= c] of row
    [y], and the least of [d[y*w + c'] + |c - c'|] over all the cells of
    the row. *)
Definition row_fwd (w : nat) (d : list R) (y c : nat) (m : R) : Prop :=
  least (S c) (fun c' => read d (y * w + c') + (INR c - INR c')) m.

Definition row_full (w : nat) (d : list R) (y c : nat) (m : R) : Prop :=
  least w (fun c' => read d (y * w + c') + Rabs (INR c - INR c')) m.

(** The parabola of row [u] of a column whose squares are in [f], at [t]. *)
Definition par (f : list R) (u : nat) (t : R) : R :=
  read f u + (t - INR u) * (t - INR u).

(** The lower envelope before step [q]: the boundaries increase; each one
    is where two consecutive parabolas of the stack meet; and between its
    boundaries (below the first boundary for the bottom of the stack, above
    the last one for its top) a parabola of the stack is below all the
    parabolas of the rows before [q]. *)
Definition hull (f : list R) (q : nat) (st : nat * list nat * list R) : Prop :=
  let '(k, v, z) := st in
  (forall i j, (1 <= i)%nat -> (i <= j)%nat -> (j <= k)%nat -> read z i <= read z j) /\
  (forall j, (j < k)%nat ->
     par f (peek v j) (read z (S j)) = par f (peek v (S j)) (read z (S j))) /\
  (forall j u t, (j <= k)%nat -> (u < q)%nat ->
     (j = 0%nat \/ read z j <= t) -> (j = k \/ t <= read z (S j)) ->
     par f (peek v j) t <= par f u t).

(** The columns before [k] hold, in every cell, the least value of the
    parabolas of their column. *)
Definition columns_exact (w h : nat) (g : list R) (k : nat) (st : list R * scratch)
  : Prop :=
  forall x y, (x < k)%nat -> (x < w)%nat -> (y < h)%nat ->
    least h (fun u => read g (u * w + x) * read g (u * w + x)
                      + (INR y - INR u) * (INR y - INR u))
          (read (fst st) (y * w + x)).

(** [m] is the least squared distance from the cell [(x, y)] to a cell
    [(c, u)] of the grid whose index satisfies [P]. *)
Definition nearest (w h : nat) (P : nat -> Prop) (x y : nat) (m : R) : Prop :=
  (exists c u, (c < w)%nat /\ (u < h)%nat /\ P (u * w + c)%nat /\
     m = (INR x - INR c) * (INR x - INR c) + (INR y - INR u) * (INR y - INR u)) /\
  forall c u, (c < w)%nat -> (u < h)%nat -> P (u * w + c)%nat ->
    m <= (INR x - INR c) * (INR x - INR c) + (INR y - INR u) * (INR y - INR u).

End SDF.

(** ** The flow field ([src/FlowField.ts]) *)

Module FlowField.

Local Open Scope R_scope.

Record t : Type := mk {
  noise : SimplexNoise.t;
  scale : R;
  octaves : Z;
  zOffset : R;
  sdf : option SDF.t;
  sdfStrength : R;
  sdfFalloff : R
}.

(** [new SimplexNoise(seed)] for an optional integer seed.  Without a seed
    the instance is built from [Math.random() * 2147483647], which is not an
    integer; [fresh] stands for that instance. *)
Definition newNoise (seed : option Z) (fresh : SimplexNoise.t) : SimplexNoise.t :=
  match seed with
  | Some s => SimplexNoise.new s
  | None => fresh
  end.

Definition new (scale : R) (seed : option Z) (fresh : SimplexNoise.t) : t :=
  {| noise := newNoise seed fresh; scale := scale; octaves := 1; zOffset := 0;
     sdf := None; sdfStrength := 1; sdfFalloff := 50 |}.

(** Simple 3D noise approximation using 2D noise *)
Definition noise3D (ff : t) (x y z : R) : R :=
  let xy := SimplexNoise.noise2D (noise ff) x y in
  let xz := SimplexNoise.noise2D (noise ff) (x + 1000) z in
  let yz := SimplexNoise.noise2D (noise ff) (y + 2000) z in
  (xy + xz + yz) / 3.

(** The body of the loop over the octaves: the state is
    [(noiseValue, amplitude, frequency, maxValue)]. *)
Definition octave (ff : t) (x y : R) (st : R * R * R * R) : R * R * R * R :=
  let '(noiseValue, amplitude, frequency, maxValue) := st in
  let noiseValue :=
    noiseValue + amplitude * noise3D ff (x * frequency) (y * frequency) (zOffset ff) in
  let maxValue := maxValue + amplitude in
  let amplitude := amplitude * 0.5 in
  let frequency := frequency * 2 in
  (noiseValue, amplitude, frequency, maxValue).

(** The state of the loop over the octaves: the amplitude is positive and
    the accumulated value is within the accumulated weight. *)
Definition octaves_inv (n : nat) (st : R * R * R * R) : Prop :=
  let '(noiseValue, amplitude, _, maxValue) := st in
  0 < amplitude /\ - maxValue <= noiseValue <= maxValue /\
  0 <= maxValue /\ ((0 < n)%nat -> 0 < maxValue).

(** [getAngle]; the loop runs [octaves] times.  (With no octave at all the
    source divides 0 by 0; the octave count is at least 1 in every state
    that the constructor and [setOctaves] produce.) *)
Definition getAngle (ff : t) (x y : R) : R :=
  let '(noiseValue, _, _, maxValue) :=
    Nat.iter (Z.to_nat (octaves ff)) (octave ff x y) (0, 1, scale ff, 0) in
  (* Normalize to [-1, 1] *)
  let noiseValue := noiseValue / maxValue in
  (* Map noise value [-1, 1] to angle [0, 2π] *)
  (noiseValue + 1) * PI.

(** The tangent direction for the blend. *)
Definition tangent (distance : num) (gradient : Vector.t) (vx vy : num) : num * num :=
  if nltb distance (Fin 0) then
    (* Inside shape: flow towards nearest exit (along gradient) *)
    (Vector.x gradient, Vector.y gradient)
  else
    (* Outside shape: flow tangent to boundary *)
    let dot := (vx * (- Vector.y gradient) + vy * Vector.x gradient)%num in
    if ngeb dot (Fin 0) then ((- Vector.y gradient)%num, Vector.x gradient)
    else (Vector.y gradient, (- Vector.x gradient)%num).

(** The flow vector before the final normalisation: the base vector
    [(cos angle, sin angle)], blended with the SDF if one is present and
    loaded. *)
Definition blended (ff : t) (x y : R) : num * num :=
  let angle := getAngle ff x y in
  let vx := Fin (cos angle) in
  let vy := Fin (sin angle) in
  match sdf ff with
  | Some s =>
      if SDF.isLoaded s then
        let distance := SDF.getDistance s x y in
        let gradient := SDF.getGradient s x y in
        (* Only influence near boundaries (within falloff distance) *)
        let absDistance := nabs distance in
        if nltb absDistance (Fin (sdfFalloff ff))
           && (nneqb (Vector.x gradient) (Fin 0) || nneqb (Vector.y gradient) (Fin 0))
        then
          let t := (absDistance / Fin (sdfFalloff ff))%num in
          let influence := ((Fin 1 - t * t) * Fin (sdfStrength ff))%num in
          let '(tangentX, tangentY) := tangent distance gradient vx vy in
          ((vx * (Fin 1 - influence) + tangentX * influence)%num,
           (vy * (Fin 1 - influence) + tangentY * influence)%num)
        else (vx, vy)
      else (vx, vy)
  | None => (vx, vy)
  end.

(** Normalize result *)
Definition normalized (v : num * num) : Vector.t :=
  let '(vx, vy) := v in
  let len := nsqrt (vx * vx + vy * vy)%num in
  if ngtb len (Fin 0.0001) then Vector.mk (vx / len)%num (vy / len)%num
  else Vector.mk vx vy.

Definition getVector (ff : t) (x y : R) : Vector.t := normalized (blended ff x y).

Definition with_noise (ff : t) (n : SimplexNoise.t) (z : R) : t :=
  {| noise := n; scale := scale ff; octaves := octaves ff; zOffset := z;
     sdf := sdf ff; sdfStrength := sdfStrength ff; sdfFalloff := sdfFalloff ff |}.

Definition setScale (scale : R) (ff : t) : t :=
  {| noise := noise ff; scale := scale; octaves := octaves ff; zOffset := zOffset ff;
     sdf := sdf ff; sdfStrength := sdfStrength ff; sdfFalloff := sdfFalloff ff |}.

(** For an integer argument. *)
Definition setOctaves (octaves : Z) (ff : t) : t :=
  {| noise := noise ff; scale := scale ff; octaves := Z.max 1 (Z.min 8 octaves);
     zOffset := zOffset ff;
     sdf := sdf ff; sdfStrength := sdfStrength ff; sdfFalloff := sdfFalloff ff |}.

Definition evolve (amount : R) (ff : t) : t :=
  with_noise ff (noise ff) (zOffset ff + amount).

Definition resetEvolution (ff : t) : t := with_noise ff (noise ff) 0.

Definition regenerate (seed : option Z) (fresh : SimplexNoise.t) (ff : t) : t :=
  with_noise ff (newNoise seed fresh) 0.

Definition setSDF (s : option SDF.t) (ff : t) : t :=
  {| noise := noise ff; scale := scale ff; octaves := octaves ff; zOffset := zOffset ff;
     sdf := s; sdfStrength := sdfStrength ff; sdfFalloff := sdfFalloff ff |}.

Definition setSDFStrength (strength : R) (ff : t) : t :=
  {| noise := noise ff; scale := scale ff; octaves := octaves ff; zOffset := zOffset ff;
     sdf := sdf ff; sdfStrength := Rmax 0 (Rmin 2 strength); sdfFalloff := sdfFalloff ff |}.

Definition setSDFFalloff (falloff : R) (ff : t) : t :=
  {| noise := noise ff; scale := scale ff; octaves := octaves ff; zOffset := zOffset ff;
     sdf := sdf ff; sdfStrength := sdfStrength ff; sdfFalloff := Rmax 1 falloff |}.

(** The operations on a flow field. *)
Inductive op : Type :=
| SetScale (scale : R)
| SetOctaves (octaves : Z)
| Evolve (amount : R)
| ResetEvolution
| Regenerate (seed : option Z) (fresh : SimplexNoise.t)
| SetSDF (s : option SDF.t)
| SetSDFStrength (strength : R)
| SetSDFFalloff (falloff : R).

Definition apply (ff : t) (o : op) : t :=
  match o with
  | SetScale s => setScale s ff
  | SetOctaves n => setOctaves n ff
  | Evolve a => evolve a ff
  | ResetEvolution => resetEvolution ff
  | Regenerate seed fresh => regenerate seed fresh ff
  | SetSDF s => setSDF s ff
  | SetSDFStrength s => setSDFStrength s ff
  | SetSDFFalloff f => setSDFFalloff f ff
  end.

Definition run (ops : list op) (ff : t) : t := fold_left apply ops ff.

End FlowField.

(** ** The flow field before the distance field ([unnamed/part_000])

    The earlier version of the class [FlowField] has the fields [noise],
    [scale], [octaves] and [zOffset] only; its methods [getAngle],
    [noise3D], [setScale], [setOctaves], [evolve], [resetEvolution] and
    [regenerate] read as those of [src/FlowField.ts], and its [getVector]
    returns the direction of the angle. *)

Module Earlier.

Definition getVector (ff : FlowField.t) (x y : R) : Vector.t :=
  let angle := FlowField.getAngle ff x y in
  Vector.mk (Fin (cos angle)) (Fin (sin angle)).

End Earlier.

(** ** Particles ([src/Particle.ts]) *)

Module Particle.

Local Open Scope R_scope.

Record t : Type := mk {
  x : R;
  y : R;
  prevX : R;
  prevY : R;
  speed : R;
  baseSpeed : R;
  width : R;
  height : R
}.

(** The constructor; [r1], [r2], [r3] are the three values that
    [Math.random()] returns, in the order of the calls. *)
Definition new (width height speed speedVariation r1 r2 r3 : R) : t :=
  {| width := width; height := height; baseSpeed := speed;
     speed := speed + (r1 - 0.5) * 2 * speedVariation;
     x := r2 * width; y := r3 * height;
     prevX := r2 * width; prevY := r3 * height |}.

(** [update] once the flow vector [(vx, vy)] at the current position is
    known. *)
Definition advance (vx vy : R) (p : t) : t :=
  (* Store previous position for drawing *)
  let prevX := x p in
  let prevY := y p in
  (* Apply velocity *)
  let x := x p + vx * speed p in
  let y := y p + vy * speed p in
  (* Wrap around edges (respawn at opposite side) *)
  let x := if Rlt_dec x 0 then width p else x in
  let x := if Rlt_dec (width p) x then 0 else x in
  let y := if Rlt_dec y 0 then height p else y in
  let y := if Rlt_dec (height p) y then 0 else y in
  (* If we wrapped, don't draw a line across the screen *)
  let prevX := if Rlt_dec (width p / 2) (Rabs (x - prevX)) then x else prevX in
  let prevY := if Rlt_dec (height p / 2) (Rabs (y - prevY)) then y else prevY in
  {| x := x; y := y; prevX := prevX; prevY := prevY;
     speed := speed p; baseSpeed := baseSpeed p; width := width p; height := height p |}.

(** [update(flowField)].  Positions are finite numbers in this model: the
    result is [None] when the flow vector is not finite (the position would
    become [NaN]). *)
Definition update (flowField : FlowField.t) (p : t) : option t :=
  match FlowField.getVector flowField (x p) (y p) with
  | Vector.mk (Fin vx) (Fin vy) => Some (advance vx vy p)
  | _ => None
  end.

(** [reset]; [r1], [r2] are the values of [Math.random()]. *)
Definition reset (r1 r2 : R) (p : t) : t :=
  {| x := r1 * width p; y := r2 * height p;
     prevX := r1 * width p; prevY := r2 * height p;
     speed := speed p; baseSpeed := baseSpeed p; width := width p; height := height p |}.

Definition setBounds (width height : R) (p : t) : t :=
  {| x := x p; y := y p; prevX := prevX p; prevY := prevY p;
     speed := speed p; baseSpeed := baseSpeed p; width := width; height := height |}.

Definition setSpeed (speed variation r : R) (p : t) : t :=
  {| x := x p; y := y p; prevX := prevX p; prevY := prevY p;
     speed := speed + (r - 0.5) * 2 * variation; baseSpeed := speed;
     width := width p; height := height p |}.

End Particle.

(** ** The particle system and the animation loop ([src/main.ts]) *)

Module Main.

Local Open Scope R_scope.

(** [new Particle(this.width, this.height, this.config.particleSpeed,
    this.config.particleSpeedVariation)]; [r] holds the three values of
    [Math.random()]. *)
Definition spawn (width height speed variation : R) (r : R * R * R) : Particle.t :=
  let '(r1, r2, r3) := r in Particle.new width height speed variation r1 r2 r3.

(** [createParticles(count)]; [random i] holds the random values of the
    [i]-th particle that is created. *)
Definition createParticles (width height speed variation : R) (random : nat -> R * R * R)
  (count : nat) : list Particle.t :=
  map (fun i => spawn width height speed variation (random i)) (seq 0 count).

(** [adjustParticleCount(targetCount)], on the array [particles];
    [this.particles.length = targetCount] truncates the array. *)
Definition adjustParticleCount (width height speed variation : R) (random : nat -> R * R * R)
  (targetCount : nat) (particles : list Particle.t) : list Particle.t :=
  let currentCount := length particles in
  if (currentCount <? targetCount)%nat then
    (* Add more particles *)
    particles ++ map (fun i => spawn width height speed variation (random i))
                     (seq currentCount (targetCount - currentCount))
  else if (targetCount <? currentCount)%nat then
    (* Remove excess particles *)
    take targetCount particles
  else particles.

(** The simulation step of [update(timestamp)]: the state is the flow
    field and the particles; the frame counter and the drawing are left
    out.  Both colour modes update every particle once, in order. *)
Definition update (paused : bool) (noiseEvolution : R) (st : FlowField.t * list Particle.t)
  : option (FlowField.t * list Particle.t) :=
  if paused then Some st
  else
    let '(flowField, particles) := st in
    (* Evolve flow field if enabled *)
    let flowField :=
      if Rlt_dec 0 noiseEvolution then FlowField.evolve noiseEvolution flowField
      else flowField in
    particles ← mapM (Particle.update flowField) particles;
    Some (flowField, particles).

(** [animate], for a number of frames. *)
Fixpoint animate (frames : nat) (paused : bool) (noiseEvolution : R)
  (st : FlowField.t * list Particle.t) : option (FlowField.t * list Particle.t) :=
  match frames with
  | O => Some st
  | S n => st' ← update paused noiseEvolution st; animate n paused noiseEvolution st'
  end.

(** [handleSVGClear]: the state is the distance field of the visualization
    and the flow field; [sdf.clear()] is followed by [this.sdf = null]. *)
Definition handleSVGClear (st : option SDF.t * FlowField.t) : option SDF.t * FlowField.t :=
  let '(sdf, flowField) := st in
  let sdf := match sdf with Some _ => None | None => sdf end in
  (sdf, FlowField.setSDF None flowField).

(** [handleResize], for the new size of the window: the particles get the
    new bounds, and a distance field is cleared. *)
Definition handleResize (width height : R)
  (st : option SDF.t * FlowField.t * list Particle.t)
  : option SDF.t * FlowField.t * list Particle.t :=
  let '(sdf, flowField, particles) := st in
  (* Update particle bounds *)
  let particles := map (Particle.setBounds width height) particles in
  let '(sdf, flowField) :=
    match sdf with
    | Some _ => handleSVGClear (sdf, flowField)
    | None => (sdf, flowField)
    end in
  (sdf, flowField, particles).

(** A particle of a canvas of the given size, on the canvas. *)
Definition on_canvas (width height : R) (p : Particle.t) : Prop :=
  Particle.width p = width /\ Particle.height p = height /\
  0 <= Particle.x p <= width /\ 0 <= Particle.y p <= height.

(** A particle as the constructor and [reset] leave it: on the canvas, with
    a segment of length 0. *)
Definition fresh_on_canvas (width height : R) (p : Particle.t) : Prop :=
  on_canvas width height p /\
  Particle.prevX p = Particle.x p /\ Particle.prevY p = Particle.y p.

End Main.

(** ** A bound on the sum of the three corner contributions

    In the coordinates [p = u + v], [m = |u - v|] of a point of the unit
    cell ([u], [v] are the fractional parts of the skewed position) the
    squared distance to corner [k] and the largest value of a gradient
    product are functions of [p] and [m] that are monotone in each
    argument; [rho = 1 - 2 * G2 = 1 / sqrt 3]. *)

Module Bound.

Local Open Scope R_scope.

Definition rho : R := 1 - 2 * SimplexNoise.G2.

(** The bound on one contribution: falloff [T], gradient product at most [A]. *)
Definition kernel (T A : R) : R := Rmax 0 T * Rmax 0 T * (Rmax 0 T * Rmax 0 T) * A.

Definition T0 (p m : R) : R := 1 / 2 - p * p / 6 - m * m / 2.
Definition T1 (p m : R) : R := 1 / 2 - (1 - p) * (1 - p) / 6 - (1 - m) * (1 - m) / 2.
Definition T2 (p m : R) : R := 1 / 2 - (2 - p) * (2 - p) / 6 - m * m / 2.

Definition A0 (p m : R) : R := Rmax (p * rho) m.
Definition A1 (p m : R) : R := Rmax (Rabs (1 - p) * rho) (1 - m).
Definition A2 (p m : R) : R := Rmax ((2 - p) * rho) m.

Definition phi (p m : R) : R :=
  kernel (T0 p m) (A0 p m) + kernel (T1 p m) (A1 p m) + kernel (T2 p m) (A2 p m).

(** Fixed-point arithmetic: the integer [n] stands for [n / 2^24]. *)
Definition one : Z := 16777216.
Definition half : Z := 8388608.

Definition val (n : Z) : R := IZR n / IZR one.

(** Products rounded up and down. *)
Definition mul_up (a b : Z) : Z := (- ((- (a * b)) / one))%Z.
Definition mul_dn (a b : Z) : Z := (a * b / one)%Z.

(** An upper bound of [rho]. *)
Definition rho_up : Z := 9686331.

Definition limit : Z := (one / 70)%Z.

Definition kernel_up (T A : Z) : Z :=
  if (T <=? 0)%Z then 0%Z
  else let T2 := mul_up T T in mul_up (mul_up T2 T2) A.

(** An upper bound of [phi] on the box [pl..ph] x [ml..mh], for
    [0 <= pl <= ph <= one] and [0 <= ml <= mh <= one]. *)
Definition box_up (pl ph ml mh : Z) : Z :=
  let t0 := (half - mul_dn pl pl / 6 - mul_dn ml ml / 2)%Z in
  let t1 := (half - mul_dn (one - ph) (one - ph) / 6
             - mul_dn (one - mh) (one - mh) / 2)%Z in
  let t2 := (half - mul_dn (2 * one - ph) (2 * one - ph) / 6 - mul_dn ml ml / 2)%Z in
  let a0 := Z.max (mul_up ph rho_up) mh in
  let a1 := Z.max (mul_up (one - pl) rho_up) (one - ml) in
  let a2 := Z.max (mul_up (2 * one - pl) rho_up) mh in
  (kernel_up t0 a0 + kernel_up t1 a1 + kernel_up t2 a2)%Z.

(** Bisection: the box is accepted if it holds no point with [m <= p], or
    if the bound is at most [1/70]; otherwise it is cut in four. *)
Fixpoint check (depth : nat) (pl ph ml mh : Z) : bool :=
  if (ph <? ml)%Z then true
  else if (box_up pl ph ml mh <=? limit)%Z then true
  else
    match depth with
    | O => false
    | S d =>
        let pm := ((pl + ph) / 2)%Z in
        let mm := ((ml + mh) / 2)%Z in
        check d pl pm ml mm && check d pm ph ml mm &&
        check d pl pm mm mh && check d pm ph mm mh
    end.

End Bound.

(** ** Concrete configurations

    The vertices of the simplex lattice are the points
    [(a - (a + b) * G2, b - (a + b) * G2)] for integers [a], [b]; there
    [noise2D] is 0, because the first corner is the point itself and the two
    others are out of reach.  The flow field below is sampled at
    [(0.01, spot_y)], where [x * scale = lattice_x] and
    [y * scale = lattice_y]; with [zOffset = lattice_z] the three 2D samples
    of [noise3D], at [(lattice_x, lattice_y)], [(lattice_x + 1000, lattice_z)]
    and [(lattice_y + 2000, lattice_z)], fall on the vertices
    [(a, b) = (1400, 400)], [(2400, -600)] and [(2400, -600)].  So the angle
    is [PI] and the flow vector is [(-1, 0)]. *)

Module Example.

Local Open Scope R_scope.

Definition lattice_x : R := 1400 - 1800 * SimplexNoise.G2.
Definition lattice_y : R := 400 - 1800 * SimplexNoise.G2.
Definition lattice_z : R := -600 - 1800 * SimplexNoise.G2.

(** [new FlowField(100 * lattice_x, 42)] followed by [evolve(lattice_z)]. *)
Definition field : FlowField.t :=
  FlowField.evolve lattice_z (FlowField.new (100 * lattice_x) (Some 42%Z) (SimplexNoise.new 42)).

Definition spot_y : R := lattice_y / (100 * lattice_x).

(** A particle at [(0.01, spot_y)] with the given speed, in a 100 x 100
    canvas. *)
Definition particle (speed : R) : Particle.t :=
  {| Particle.x := 0.01; Particle.y := spot_y;
     Particle.prevX := 0.01; Particle.prevY := spot_y;
     Particle.speed := speed; Particle.baseSpeed := speed;
     Particle.width := 100; Particle.height := 100 |}.

(** The distance field of an 8 x 8 canvas at resolution 4 whose left half
    is inside the shape: the mask is [[1; 0; 1; 0]], the distance is -4 in
    the left column and 4 in the right one, and the gradient is [(2, 0)]
    everywhere. *)
Definition half_mask : list Z := [1; 0; 1; 0]%Z.

Definition half_plane : SDF.t :=
  {| SDF.grid := [Fin (-4); Fin 4; Fin (-4); Fin 4];
     SDF.gradientX := [Fin 2; Fin 2; Fin 2; Fin 2];
     SDF.gradientY := [Fin 0; Fin 0; Fin 0; Fin 0];
     SDF.gridWidth := 2; SDF.gridHeight := 2;
     SDF.resolution := 4; SDF.loaded := true |}.

(** The flow field of the example with the distance field attached:
    [setSDF(half_plane)], [setSDFStrength(0.66668)], [setSDFFalloff(7.96)].
    At [(0.01, spot_y)] the distance is -3.98, half of the falloff, so the
    influence is [(1 - 1/4) * 0.66668 = 0.50001]; inside the shape the
    tangent is the gradient [(1, 0)], opposite to the flow [(-1, 0)], and
    the blend is [(-1) * 0.49999 + 1 * 0.50001 = 0.00002]. *)
Definition deflected : FlowField.t :=
  FlowField.setSDFFalloff 7.96
    (FlowField.setSDFStrength 0.66668
       (FlowField.setSDF (Some half_plane) field)).

End Example.

(** ** Tactics *)

(** Decide the comparisons of concrete reals that evaluation leaves. *)
Ltac unfold_tests :=
  repeat first
    [ progress cbn [nadd nsub nmul ndiv nneg nsqrt nabs nltb ngtb ngeb nneqb negb andb orb]
    | progress unfold scale_inf
    | progress unfold Rltb
    | progress unfold Rleb
    | progress unfold Reqb ].

Ltac decide_reals :=
  unfold_tests;
  repeat (match goal with
          | |- context [Rlt_dec ?a ?b] =>
              destruct (Rlt_dec a b); [try (exfalso; lra) | try (exfalso; lra)]
          | |- context [Rle_dec ?a ?b] =>
              destruct (Rle_dec a b); [try (exfalso; lra) | try (exfalso; lra)]
          | |- context [Req_dec_T ?a ?b] =>
              destruct (Req_dec_T a b); [try (exfalso; lra) | try (exfalso; lra)]
          end; unfold_tests).

(** Run a computation on concrete reals, deciding each comparison. *)
Ltac run_reals :=
  cbn;
  repeat (match goal with
          | |- context [Rlt_dec ?a ?b] =>
              destruct (Rlt_dec a b); [try (exfalso; lra) | try (exfalso; lra)]
          | |- context [Rle_dec ?a ?b] =>
              destruct (Rle_dec a b); [try (exfalso; lra) | try (exfalso; lra)]
          | |- context [Req_dec_T ?a ?b] =>
              destruct (Req_dec_T a b); [try (exfalso; lra) | try (exfalso; lra)]
          end; cbn).

(** * Properties *)

(** ** Configuration of the flow field *)

Section FlowFieldState.

Import FlowField.

Lemma setOctaves_range (n : Z) (ff : t) :
  (1 <= octaves (setOctaves n ff) <= 8)%Z.
Proof. simpl. lia. Qed.

Lemma apply_octaves_range (ff : t) (o : op) :
  (1 <= octaves ff <= 8)%Z -> (1 <= octaves (apply ff o) <= 8)%Z.
Proof. destruct o; simpl; lia. Qed.

Lemma run_octaves_range (ops : list op) (ff : t) :
  (1 <= octaves ff <= 8)%Z -> (1 <= octaves (run ops ff) <= 8)%Z.
Proof.
  unfold run. revert ff.
  induction ops as [|o ops IH]; intros ff Hff; simpl.
  - exact Hff.
  - apply IH, apply_octaves_range, Hff.
Qed.

(** C9: [setOctaves] leaves the octave count in [1,8] for every integer
    argument, [setOctaves(0)] gives 1, [setOctaves(99)] gives 8, and the
    octave count is in [1,8] after every sequence of operations on a newly
    constructed flow field. *)
Theorem octaves_clamped :
  (forall (n : Z) (ff : t), (1 <= octaves (setOctaves n ff) <= 8)%Z) /\
  (forall ff : t, octaves (setOctaves 0 ff) = 1%Z) /\
  (forall ff : t, octaves (setOctaves 99 ff) = 8%Z) /\
  (forall (scale : R) (seed : option Z) (fresh : SimplexNoise.t) (ops : list op),
      (1 <= octaves (run ops (new scale seed fresh)) <= 8)%Z).
Proof.
  split; [exact setOctaves_range|].
  split; [reflexivity|].
  split; [reflexivity|].
  intros scale seed fresh ops. apply run_octaves_range. simpl. lia.
Qed.

(** C10: [regenerate] changes only the noise instance and [zOffset], which
    becomes 0; scale, octave count, attached SDF, [sdfStrength] and
    [sdfFalloff] are unchanged. *)
Theorem regenerate_frame (seed : option Z) (fresh : SimplexNoise.t) (ff : t) :
  let ff' := regenerate seed fresh ff in
  noise ff' = newNoise seed fresh /\
  zOffset ff' = 0%R /\
  scale ff' = scale ff /\
  octaves ff' = octaves ff /\
  sdf ff' = sdf ff /\
  sdfStrength ff' = sdfStrength ff /\
  sdfFalloff ff' = sdfFalloff ff.
Proof. simpl. repeat split. Qed.

Lemma regenerate_twice (s : Z) (fresh fresh' : SimplexNoise.t) (ff : t) :
  regenerate (Some s) fresh' (regenerate (Some s) fresh ff) = regenerate (Some s) fresh ff.
Proof. reflexivity. Qed.

(** C8: [regenerate(42)] followed by [regenerate(42)] gives states whose
    [getAngle] agree at every point: the noise is the one built from the
    seed, whatever the previous state was, and [zOffset] is 0. *)
Theorem regenerate_same_seed (fresh fresh' : SimplexNoise.t) (ff : t) :
  let ff1 := regenerate (Some 42%Z) fresh ff in
  let ff2 := regenerate (Some 42%Z) fresh' ff1 in
  (forall x y : R, getAngle ff1 x y = getAngle ff2 x y) /\
  (forall prior : t, noise (regenerate (Some 42%Z) fresh prior) = SimplexNoise.new 42) /\
  zOffset ff1 = 0%R /\ zOffset ff2 = 0%R.
Proof.
  intros ff1 ff2. subst ff1 ff2. rewrite regenerate_twice.
  repeat split.
Qed.

End FlowFieldState.

(** ** The permutation table *)

Section PermutationTable.

Import SimplexNoise.

Lemma zrange_length (lo : Z) (n : nat) : length (zrange lo n) = n.
Proof. unfold zrange. now rewrite length_map, length_seq. Qed.

Lemma zrange_lookup (lo : Z) (n k : nat) :
  (k < n)%nat -> zrange lo n !! k = Some (lo + Z.of_nat k)%Z.
Proof.
  intros Hk. unfold zrange. rewrite list_lookup_fmap.
  rewrite lookup_seq_lt by exact Hk. reflexivity.
Qed.

Lemma zrange_elem (lo : Z) (n : nat) (v : Z) :
  v ∈ zrange lo n <-> (lo <= v < lo + Z.of_nat n)%Z.
Proof.
  unfold zrange. rewrite list_elem_of_fmap. split.
  - intros (k & -> & Hk). apply elem_of_seq in Hk. lia.
  - intros Hv. exists (Z.to_nat (v - lo)). split; [lia|].
    apply elem_of_seq. lia.
Qed.

Lemma U8_get_in (a : list Z) (i : Z) :
  (0 <= i < Z.of_nat (length a))%Z -> exists b, U8.get a i = Some b /\ b ∈ a.
Proof.
  intros Hi. unfold U8.get.
  destruct (Z.ltb_spec i 0) as [|_]; [lia|].
  destruct (lookup_lt_is_Some_2 a (Z.to_nat i)) as [b Hb]; [lia|].
  exists b. split; [exact Hb|]. apply list_elem_of_lookup. now exists (Z.to_nat i).
Qed.

(** With a non-negative generator state, one round of the shuffle swaps two
    cells of the table. *)
Lemma shuffle_step_permutation (n : Z) (p : list Z) (i : Z) :
  (0 <= n)%Z -> p ≡ₚ zrange 0 256 -> (1 <= i <= 255)%Z ->
  (0 <= fst (shuffle_step (n, p) i))%Z /\ snd (shuffle_step (n, p) i) ≡ₚ zrange 0 256.
Proof.
  intros Hn Hp Hi. unfold shuffle_step.
  set (n' := Z.rem (n * 16807) 2147483647).
  set (j := Z.rem n' (i + 1)).
  assert (Hn' : (0 <= n')%Z) by (apply Z.rem_nonneg; lia).
  assert (Hj : (0 <= j < i + 1)%Z) by (apply Z.rem_bound_pos; lia).
  assert (Hlen : length p = 256%nat) by (rewrite Hp; apply zrange_length).
  destruct (U8_get_in p i) as (a & Ha & Hain); [lia|].
  destruct (U8_get_in p j) as (b & Hb & Hbin); [lia|].
  rewrite Ha, Hb. simpl. split; [exact Hn'|].
  assert (Hwrap : forall c, c ∈ p -> U8.wrap c = c).
  { intros c Hc. rewrite Hp in Hc. apply zrange_elem in Hc.
    unfold U8.wrap. apply Z.mod_small. lia. }
  unfold U8.set.
  destruct (Z.ltb_spec i 0) as [|_]; [lia|].
  destruct (Z.ltb_spec j 0) as [|_]; [lia|].
  rewrite (Hwrap a Hain), (Hwrap b Hbin).
  unfold U8.get in Ha, Hb.
  destruct (Z.ltb_spec i 0) as [|_]; [lia|].
  destruct (Z.ltb_spec j 0) as [|_]; [lia|].
  rewrite (Permutation_insert_swap p _ _ a b Ha Hb). exact Hp.
Qed.

Lemma shuffle_fold_permutation (idxs : list Z) (n : Z) (p : list Z) :
  Forall (fun i => 1 <= i <= 255)%Z idxs ->
  (0 <= n)%Z -> p ≡ₚ zrange 0 256 ->
  snd (fold_left shuffle_step idxs (n, p)) ≡ₚ zrange 0 256.
Proof.
  revert n p. induction idxs as [|i idxs IH]; intros n p His Hn Hp; cbn [fold_left].
  - exact Hp.
  - inversion His as [|? ? Hi His']; subst.
    destruct (shuffle_step_permutation n p i Hn Hp Hi) as [Hn' Hp'].
    destruct (shuffle_step (n, p) i) as [n' p'] eqn:E. simpl in Hn', Hp'.
    now apply IH.
Qed.

(** For a seed that is not negative the shuffled table is a permutation of
    0..255. *)
Lemma shuffled_permutation (seed : Z) :
  (0 <= seed)%Z -> shuffled seed ≡ₚ zrange 0 256.
Proof.
  intros Hs. unfold shuffled. apply shuffle_fold_permutation; [|exact Hs|reflexivity].
  apply Forall_forall. intros i Hi. apply list_elem_of_In, in_rev, list_elem_of_In, zrange_elem in Hi. lia.
Qed.

(** The tables of an instance: [perm[k] = p[k & 255]] and
    [permMod12[k] = perm[k] % 12]. *)
Lemma tables_derived (seed : Z) (k : Z) :
  (0 <= k < 512)%Z ->
  U8.get (perm (new seed)) k = Some (U8.at_ (shuffled seed) (Z.land k 255)) /\
  U8.get (permMod12 (new seed)) k
    = Some (U8.wrap (Z.rem (U8.at_ (perm (new seed)) k) 12)).
Proof.
  intros Hk.
  assert (Hget : forall a : list Z, U8.get a k = a !! Z.to_nat k).
  { intros a. unfold U8.get. destruct (Z.ltb_spec k 0) as [|_]; [lia|reflexivity]. }
  rewrite !Hget.
  change (perm (new seed)) with (duplicate (shuffled seed)).
  change (permMod12 (new seed))
    with (map (fun i => U8.wrap (Z.rem (U8.at_ (duplicate (shuffled seed)) i) 12))
              (zrange 0 512)).
  unfold duplicate at 1.
  rewrite !list_lookup_fmap, !zrange_lookup by lia.
  cbn [fmap option_fmap option_map]. rewrite Z.add_0_l, Z2Nat.id by lia.
  split; reflexivity.
Qed.

(** Whatever the seed, the tables hold bytes: every read of [noise2D] is
    inside its table, and every gradient index is below 12. *)
Lemma shuffle_step_bytes (n : Z) (p : list Z) (i : Z) :
  length p = 256%nat -> Forall (fun b => 0 <= b < 256)%Z p ->
  length (snd (shuffle_step (n, p) i)) = 256%nat /\
  Forall (fun b => 0 <= b < 256)%Z (snd (shuffle_step (n, p) i)).
Proof.
  intros Hlen Hb. unfold shuffle_step. cbn [snd].
  assert (Hset : forall (a : list Z) k v,
             length a = 256%nat -> Forall (fun b => 0 <= b < 256)%Z a ->
             length (U8.set a k v) = 256%nat /\
             Forall (fun b => 0 <= b < 256)%Z (U8.set a k v)).
  { intros a k v Hl Ha. unfold U8.set. destruct (k <? 0)%Z; [auto|].
    rewrite length_insert. split; [exact Hl|].
    apply Forall_insert; [exact Ha|].
    destruct v; [apply Z.mod_pos_bound|]; lia. }
  destruct (Hset p i (U8.get p (Z.rem (Z.rem (n * 16807) 2147483647) (i + 1))) Hlen Hb)
    as [Hl1 Hb1].
  now apply Hset.
Qed.

Lemma shuffled_bytes (seed : Z) :
  length (shuffled seed) = 256%nat /\ Forall (fun b => 0 <= b < 256)%Z (shuffled seed).
Proof.
  unfold shuffled. generalize (rev (zrange 1 255)). intros idxs.
  assert (H0 : length (zrange 0 256) = 256%nat /\
               Forall (fun b => 0 <= b < 256)%Z (zrange 0 256)).
  { split; [apply zrange_length|]. apply Forall_forall. intros b Hb.
    apply zrange_elem in Hb. lia. }
  revert H0. generalize (zrange 0 256). generalize seed.
  induction idxs as [|i idxs IH]; intros n p [Hl Hb]; cbn [fold_left].
  - auto.
  - pose proof (shuffle_step_bytes n p i Hl Hb) as H.
    destruct (shuffle_step (n, p) i) as [n' p']. now apply IH.
Qed.

Lemma U8_at_get (a : list Z) (i b : Z) : U8.get a i = Some b -> U8.at_ a i = b.
Proof. intros H. unfold U8.at_. now rewrite H. Qed.

Lemma tables_in_range (seed : Z) (k : Z) :
  (0 <= k < 512)%Z ->
  (exists b, U8.get (perm (new seed)) k = Some b /\ 0 <= b < 256)%Z /\
  (exists g, U8.get (permMod12 (new seed)) k = Some g /\ 0 <= g < 12)%Z.
Proof.
  intros Hk. destruct (tables_derived seed k Hk) as [Hp Hm].
  destruct (shuffled_bytes seed) as [Hl Hb].
  assert (Hland : (0 <= Z.land k 255 < 256)%Z).
  { change 255%Z with (Z.ones 8). rewrite Z.land_ones by lia.
    apply Z.mod_pos_bound. lia. }
  destruct (U8_get_in (shuffled seed) (Z.land k 255)) as (b & Hget & Hin); [lia|].
  rewrite (U8_at_get _ _ _ Hget) in Hp.
  rewrite (U8_at_get _ _ _ Hp) in Hm.
  assert (Hbyte : (0 <= b < 256)%Z).
  { rewrite Forall_forall in Hb. now apply Hb. }
  split.
  - exists b. split; [exact Hp|exact Hbyte].
  - eexists. split; [exact Hm|].
    pose proof (Z.rem_bound_pos b 12 ltac:(lia) ltac:(lia)) as Hr.
    unfold U8.wrap. rewrite Z.mod_small; lia.
Qed.

(** C5, at the seed -1: the generator state is negative, so is every index
    [j = n % (i + 1)] that is not 0; reading [p[j]] gives [undefined], which
    is stored as 0, and the write to [p[j]] is lost.  The table is not a
    permutation of 0..255: 255 does not occur in it and 0 occurs 249 times. *)
Theorem shuffled_negative_seed :
  count_occ Z.eq_dec (shuffled (-1)) 255%Z = 0%nat /\
  count_occ Z.eq_dec (shuffled (-1)) 0%Z = 249%nat /\
  ~ shuffled (-1) ≡ₚ zrange 0 256.
Proof.
  assert (H255 : count_occ Z.eq_dec (shuffled (-1)) 255%Z = 0%nat) by (vm_compute; reflexivity).
  split; [exact H255|]. split; [vm_compute; reflexivity|].
  intros Hp.
  assert (Hin : 255%Z ∈ zrange 0 256) by (apply zrange_elem; lia).
  generalize dependent (shuffled (-1)). intros l H255 Hp.
  rewrite <- Hp in Hin. apply list_elem_of_In in Hin.
  apply (count_occ_not_In Z.eq_dec) in H255. exact (H255 Hin).
Qed.

End PermutationTable.

(** ** Simplex noise at the vertices of the lattice *)

Section NoiseAtVertices.

Import SimplexNoise.
Local Open Scope R_scope.

Lemma sqrt3_sq : sqrt 3 * sqrt 3 = 3.
Proof. apply sqrt_sqrt. lra. Qed.

Lemma sqrt3_bounds : 1.7320508 < sqrt 3 < 1.7320509.
Proof.
  pose proof sqrt3_sq as H. pose proof (sqrt_pos 3) as H0.
  split; nra.
Qed.

Lemma G2_bounds : 0.2113248 < G2 < 0.2113249.
Proof. unfold G2. pose proof sqrt3_bounds. lra. Qed.

(** [G2] is the root of [6 g^2 - 6 g + 1] below one half. *)
Lemma G2_sq : G2 * G2 = G2 - 1 / 6.
Proof. unfold G2. pose proof sqrt3_sq. nra. Qed.

Lemma F2_G2 : (1 - 2 * G2) * F2 = G2.
Proof. unfold F2, G2. pose proof sqrt3_sq. nra. Qed.

Lemma Int_part_IZR (z : Z) : Int_part (IZR z) = z.
Proof. symmetry. apply Int_part_spec. lra. Qed.

Lemma corner_outside (gi : Z) (x y : R) :
  0.5 - x * x - y * y < 0 -> corner gi x y = 0.
Proof.
  intros H. unfold corner. destruct (Rle_dec 0 (0.5 - x * x - y * y)); [lra|reflexivity].
Qed.

Lemma corner_origin (gi : Z) : corner gi 0 0 = 0.
Proof. unfold corner. destruct (Rle_dec 0 (0.5 - 0 * 0 - 0 * 0)); ring. Qed.

(** At a vertex of the simplex lattice the first corner is the point itself,
    and the two other corners are out of reach: the noise is 0. *)
Lemma noise2D_vertex (sn : t) (a b : Z) (x y : R) :
  x = IZR a - IZR (a + b) * G2 ->
  y = IZR b - IZR (a + b) * G2 ->
  noise2D sn x y = 0.
Proof.
  intros Hx Hy.
  assert (Hs : (x + y) * F2 = IZR (a + b) * G2).
  { transitivity (IZR (a + b) * ((1 - 2 * G2) * F2)).
    - rewrite Hx, Hy, plus_IZR. ring.
    - now rewrite F2_G2. }
  assert (Hi : Int_part (x + (x + y) * F2) = a).
  { rewrite Hs. replace (x + IZR (a + b) * G2) with (IZR a) by lra. apply Int_part_IZR. }
  assert (Hj : Int_part (y + (x + y) * F2) = b).
  { rewrite Hs. replace (y + IZR (a + b) * G2) with (IZR b) by lra. apply Int_part_IZR. }
  unfold noise2D. rewrite Hi, Hj.
  replace (x - (IZR a - IZR (a + b) * G2)) with 0 by lra.
  replace (y - (IZR b - IZR (a + b) * G2)) with 0 by lra.
  destruct (Rlt_dec 0 0) as [H|_]; [lra|].
  rewrite corner_origin.
  pose proof G2_sq as Hg.
  rewrite !corner_outside; [ring| |]; nra.
Qed.

End NoiseAtVertices.

(** ** The flow vector at a lattice configuration *)

Section FlowAtVertices.

Import FlowField.
Local Open Scope R_scope.

(** With one octave, if the three samples of [noise3D] fall on lattice
    vertices the angle is [PI]. *)
Lemma getAngle_lattice (ff : t) (x y : R) (b : Z) :
  octaves ff = 1%Z ->
  x * scale ff = IZR (b + 1000) - IZR (2 * b + 1000) * SimplexNoise.G2 ->
  y * scale ff = IZR b - IZR (2 * b + 1000) * SimplexNoise.G2 ->
  zOffset ff = IZR (b - 1000) - IZR (2 * b + 1000) * SimplexNoise.G2 ->
  getAngle ff x y = PI.
Proof.
  intros Ho Hx Hy Hz. unfold getAngle. rewrite Ho. simpl.
  unfold noise3D.
  rewrite (noise2D_vertex (noise ff) (b + 1000) b) by
      (rewrite ?Hx, ?Hy; f_equal; f_equal; f_equal; lia).
  rewrite (noise2D_vertex (noise ff) (b + 2000) (b - 1000)) by
      (rewrite ?Hx, ?Hz, ?plus_IZR, ?minus_IZR, ?mult_IZR in *; lra).
  rewrite (noise2D_vertex (noise ff) (b + 2000) (b - 1000)) by
      (rewrite ?Hy, ?Hz, ?plus_IZR, ?minus_IZR, ?mult_IZR in *; lra).
  field.
Qed.

Lemma normalized_west : normalized (Fin (cos PI), Fin (sin PI)) = Vector.mk (Fin (-1)) (Fin 0).
Proof.
  rewrite cos_PI, sin_PI. unfold normalized. simpl.
  replace (-1 * -1 + 0 * 0) with 1 by ring.
  unfold Rltb. destruct (Rlt_dec 1 0) as [H|_]; [lra|].
  rewrite sqrt_1. simpl. unfold Rltb.
  destruct (Rlt_dec 0.0001 1) as [_|H]; [|lra].
  simpl. unfold Reqb. destruct (Req_dec_T 1 0) as [H|_]; [lra|].
  f_equal; f_equal; field.
Qed.

Lemma example_X_pos : 1019 < Example.lattice_x < 1020.
Proof. unfold Example.lattice_x. pose proof G2_bounds. lra. Qed.

Lemma example_angle : getAngle Example.field 0.01 Example.spot_y = PI.
Proof.
  pose proof example_X_pos as HX.
  apply (getAngle_lattice _ _ _ 400); simpl;
    rewrite ?plus_IZR, ?minus_IZR, ?mult_IZR.
  - reflexivity.
  - unfold Example.lattice_x. lra.
  - unfold Example.spot_y.
    replace (Example.lattice_y / (100 * Example.lattice_x) * (100 * Example.lattice_x))
      with Example.lattice_y by (field; lra).
    unfold Example.lattice_y. lra.
  - unfold Example.lattice_z. lra.
Qed.

Lemma example_vector :
  getVector Example.field 0.01 Example.spot_y = Vector.mk (Fin (-1)) (Fin 0).
Proof.
  unfold getVector, blended. rewrite example_angle. simpl. apply normalized_west.
Qed.

End FlowAtVertices.

(** ** Particle transport *)

Section ParticleTransport.

Import Particle.
Local Open Scope R_scope.

Lemma update_finite (ff : FlowField.t) (p : t) (vx vy : R) :
  FlowField.getVector ff (x p) (y p) = Vector.mk (Fin vx) (Fin vy) ->
  update ff p = Some (advance vx vy p).
Proof. intros H. unfold update. rewrite H. reflexivity. Qed.

(** A step that carries [x] beyond [width] puts the particle at 0. *)
Lemma advance_wraps_right (vx vy : R) (p : t) :
  0 <= width p -> width p < x p + vx * speed p -> x (advance vx vy p) = 0.
Proof.
  intros Hw Hx. unfold advance. cbn [x].
  destruct (Rlt_dec (x p + vx * speed p) 0) as [H|_]; [lra|].
  destruct (Rlt_dec (width p) (x p + vx * speed p)) as [_|H]; [reflexivity|lra].
Qed.

(** [prevX] after the step: the new [x] if it is farther than [width / 2]
    from the old [x], the old [x] otherwise. *)
Lemma advance_prevX (vx vy : R) (p : t) :
  prevX (advance vx vy p) =
    if Rlt_dec (width p / 2) (Rabs (x (advance vx vy p) - x p))
    then x (advance vx vy p) else x p.
Proof. reflexivity. Qed.

Lemma advance_inside (vx vy : R) (p : t) :
  0 <= x p + vx * speed p <= width p -> x (advance vx vy p) = x p + vx * speed p.
Proof.
  intros Hx. unfold advance. cbn [x].
  destruct (Rlt_dec (x p + vx * speed p) 0) as [H|_]; [lra|].
  destruct (Rlt_dec (width p) (x p + vx * speed p)) as [H|_]; [lra|reflexivity].
Qed.

(** C3, amended: a step from [x = 0.01] to [width + 0.01] wraps to [x = 0];
    [prevX] is then the pre-step position 0.01 when [width >= 0.02] (a
    segment of length 0.01, not a streak), and equals [x] only when
    [width < 0.02].  A step that stays within the bounds and moves [x] by at
    most [width / 2] keeps [prevX] at the pre-step position. *)
Theorem update_wraparound (ff : FlowField.t) (p : t) (vx vy : R) :
  FlowField.getVector ff (x p) (y p) = Vector.mk (Fin vx) (Fin vy) ->
  exists p', update ff p = Some p' /\
    (x p = 0.01 -> 0 <= width p -> x p + vx * speed p = width p + 0.01 ->
       x p' = 0 /\
       (0.02 <= width p -> prevX p' = 0.01) /\
       (width p < 0.02 -> prevX p' = x p')) /\
    (0 <= x p + vx * speed p <= width p -> Rabs (vx * speed p) <= width p / 2 ->
       x p' = x p + vx * speed p /\ prevX p' = x p).
Proof.
  intros Hv. exists (advance vx vy p). split; [now apply update_finite|]. split.
  - intros Hx Hw Hstep.
    assert (Hx' : x (advance vx vy p) = 0) by (apply advance_wraps_right; lra).
    split; [exact Hx'|]. rewrite advance_prevX, Hx', Hx.
    replace (Rabs (0 - 0.01)) with 0.01 by (unfold Rabs; destruct (Rcase_abs _); lra).
    destruct (Rlt_dec (width p / 2) 0.01); split; intros; first [reflexivity | lra].
  - intros Hin Hsmall.
    assert (Hx' : x (advance vx vy p) = x p + vx * speed p) by now apply advance_inside.
    split; [exact Hx'|]. rewrite advance_prevX, Hx'.
    replace (x p + vx * speed p - x p) with (vx * speed p) by ring.
    destruct (Rlt_dec (width p / 2) (Rabs (vx * speed p))); [lra|reflexivity].
Qed.

(** What [update] does to the particles of the example. *)
Lemma example_update (speed : R) :
  update Example.field (Example.particle speed)
  = Some (advance (-1) 0 (Example.particle speed)).
Proof. apply update_finite, example_vector. Qed.

Lemma update_wraparound_witness :
  (exists p', update Example.field (Example.particle (-100)) = Some p' /\
     x p' = 0 /\ prevX p' = 0.01) /\
  (exists p', update Example.field (Example.particle (-1)) = Some p' /\
     x p' = 1.01 /\ prevX p' = 0.01).
Proof.
  split.
  - destruct (update_wraparound Example.field (Example.particle (-100)) (-1) 0 example_vector)
      as (p' & Hp' & Hwrap & _).
    exists p'. split; [exact Hp'|].
    destruct Hwrap as (Hx & Hprev & _); simpl; try lra.
    split; [exact Hx|]. apply Hprev. simpl. lra.
  - destruct (update_wraparound Example.field (Example.particle (-1)) (-1) 0 example_vector)
      as (p' & Hp' & _ & Hin).
    exists p'. split; [exact Hp'|].
    destruct Hin as (Hx & Hprev); simpl.
    + lra.
    + replace (-1 * -1) with 1 by ring. rewrite Rabs_pos_eq; lra.
    + simpl in Hx, Hprev. split; [lra|exact Hprev].
Defined.

(** C3 as stated fails: the particle of the example, with speed -100 in a
    flow of direction [(-1, 0)], is carried from [x = 0.01] to
    [width + 0.01 = 100.01]; it wraps to [x = 0] and [prevX] stays 0.01. *)
Lemma update_wraparound_counterexample :
  x (Example.particle (-100)) = 0.01 /\
  x (Example.particle (-100)) + (-1) * speed (Example.particle (-100))
    = width (Example.particle (-100)) + 0.01 /\
  exists p', update Example.field (Example.particle (-100)) = Some p' /\
    prevX p' <> x p'.
Proof.
  split; [reflexivity|]. split; [simpl; lra|].
  exists (advance (-1) 0 (Example.particle (-100))). split; [apply example_update|].
  assert (Hx : x (advance (-1) 0 (Example.particle (-100))) = 0)
    by (apply advance_wraps_right; simpl; lra).
  rewrite advance_prevX, Hx. simpl.
  replace (Rabs (0 - 0.01)) with 0.01 by (unfold Rabs; destruct (Rcase_abs _); lra).
  destruct (Rlt_dec (100 / 2) 0.01); lra.
Qed.

End ParticleTransport.

(** ** Sampling the distance field outside the grid *)

Section NumFacts.

Local Open Scope R_scope.

Lemma Rltb_true (a b : R) : a < b -> Rltb a b = true.
Proof. intros H. unfold Rltb. destruct (Rlt_dec a b); [reflexivity|lra]. Qed.

Lemma Rltb_false (a b : R) : b <= a -> Rltb a b = false.
Proof. intros H. unfold Rltb. destruct (Rlt_dec a b); [lra|reflexivity]. Qed.

Lemma Rleb_true (a b : R) : a <= b -> Rleb a b = true.
Proof. intros H. unfold Rleb. destruct (Rle_dec a b); [reflexivity|lra]. Qed.

Lemma Rleb_false (a b : R) : b < a -> Rleb a b = false.
Proof. intros H. unfold Rleb. destruct (Rle_dec a b); [lra|reflexivity]. Qed.

Lemma Reqb_false (a b : R) : a <> b -> Reqb a b = false.
Proof. intros H. unfold Reqb. destruct (Req_dec_T a b); [contradiction|reflexivity]. Qed.

Lemma nsqrt_sumsq (a b : R) :
  nsqrt (Fin a * Fin a + Fin b * Fin b)%num = Fin (sqrt (a * a + b * b)).
Proof. simpl. rewrite Rltb_false by nra. reflexivity. Qed.

Lemma ndiv_fin (a b : R) : b <> 0 -> (Fin a / Fin b)%num = Fin (a / b).
Proof. intros H. simpl. now rewrite Reqb_false. Qed.

End NumFacts.

Section OutsideTheGrid.

Import SDF.
Local Open Scope R_scope.

Lemma inf_or_nan_mul (a : num) (r : R) : inf_or_nan a -> 0 < r -> inf_or_nan (a * Fin r)%num.
Proof.
  intros [-> | ->] Hr; simpl; [|now right].
  left. unfold scale_inf, Rltb. destruct (Rlt_dec 0 r); [reflexivity|lra].
Qed.

Lemma inf_or_nan_add_l (a b : num) : inf_or_nan a -> inf_or_nan (a + b)%num.
Proof. intros [-> | ->]; destruct b; simpl; auto using or_introl, or_intror; now (left + right). Qed.

Lemma inf_or_nan_add_r (a b : num) : inf_or_nan b -> inf_or_nan (a + b)%num.
Proof. intros [-> | ->]; destruct a; simpl; now (left + right). Qed.

Lemma inf_or_nan_mul_any (a : num) (r : R) : inf_or_nan a -> 0 <= r -> inf_or_nan (a * Fin r)%num.
Proof.
  intros [-> | ->] Hr; simpl; [|now right].
  unfold scale_inf, Rltb. destruct (Rlt_dec 0 r); [now left|].
  destruct (Rlt_dec r 0); [lra|now right].
Qed.

Lemma frac_range (r : R) : 0 <= r - IZR (Int_part r) < 1.
Proof. destruct (base_Int_part r). lra. Qed.

Lemma getGridValue_outside (s : t) (g : list num) (x y : Z) :
  (x < 0 \/ gridWidth s <= x \/ y < 0 \/ gridHeight s <= y)%Z ->
  getGridValue s g x y = PInf.
Proof.
  intros H. unfold getGridValue.
  destruct (Z.ltb_spec x 0), (Z.geb_spec x (gridWidth s)),
    (Z.ltb_spec y 0), (Z.geb_spec y (gridHeight s)); simpl; try reflexivity; lia.
Qed.

Lemma sampleBilinear_outside (s : t) (g : list num) (gx gy : R) :
  outside s gx gy -> inf_or_nan (sampleBilinear s g gx gy).
Proof.
  intros Hout. unfold sampleBilinear.
  pose proof (frac_range gx) as Hfx. pose proof (frac_range gy) as Hfy.
  rewrite (getGridValue_outside s g (Int_part gx) (Int_part gy)) by exact Hout.
  apply inf_or_nan_add_l, inf_or_nan_mul; [|lra].
  apply inf_or_nan_add_l, inf_or_nan_mul; [now left|lra].
Qed.

Lemma getDistance_outside (s : t) (x y : R) :
  loaded s = true -> outside s (x / resolution s) (y / resolution s) ->
  inf_or_nan (getDistance s x y).
Proof.
  intros Hl Hout. unfold getDistance. rewrite Hl. simpl.
  now apply sampleBilinear_outside.
Qed.

Lemma getGradient_outside (s : t) (x y : R) :
  loaded s = true -> outside s (x / resolution s) (y / resolution s) ->
  getGradient s x y = Vector.mk NaN NaN.
Proof.
  intros Hl Hout. unfold getGradient. rewrite Hl. simpl.
  destruct (sampleBilinear_outside s (gradientX s) _ _ Hout) as [-> | ->];
    destruct (sampleBilinear_outside s (gradientY s) _ _ Hout) as [-> | ->];
    reflexivity.
Qed.

(** Outside the grid the flow vector is the one of the noise alone. *)
Lemma getVector_outside (ff : FlowField.t) (s : t) (x y : R) :
  FlowField.sdf ff = Some s -> loaded s = true ->
  outside s (x / resolution s) (y / resolution s) ->
  FlowField.getVector ff x y = FlowField.getVector (FlowField.setSDF None ff) x y.
Proof.
  intros Hs Hl Hout. unfold FlowField.getVector, FlowField.blended.
  rewrite Hs. unfold isLoaded. rewrite Hl. cbn [FlowField.sdf FlowField.setSDF].
  destruct (getDistance_outside s x y Hl Hout) as [-> | ->]; reflexivity.
Qed.

Lemma Int_part_eq (r : R) (z : Z) : IZR z <= r < IZR z + 1 -> Int_part r = z.
Proof. intros H. symmetry. apply Int_part_spec. lra. Qed.

(** C2, at the right edge of the canvas ([x = 8], where a particle is put
    when it wraps): for the distance field of the example [getGradient]
    returns [(NaN, NaN)], not [(0, 0)], and on the top row [getDistance]
    returns [NaN], not [+Infinity]. *)
Theorem sampling_at_the_edge :
  getGradient Example.half_plane 8 1 = Vector.mk NaN NaN /\
  getDistance Example.half_plane 8 1 = PInf /\
  getDistance Example.half_plane 8 0 = NaN.
Proof.
  assert (H2 : Int_part (8 / 4) = 2%Z) by (apply Int_part_eq; simpl; lra).
  assert (H1 : Int_part (1 / 4) = 0%Z) by (apply Int_part_eq; simpl; lra).
  assert (H0 : Int_part (0 / 4) = 0%Z) by (apply Int_part_eq; simpl; lra).
  split; [|split].
  - apply getGradient_outside; [reflexivity|]. unfold outside. simpl. rewrite H2. lia.
  - unfold getDistance, sampleBilinear. simpl. rewrite H2, H1. simpl. decide_reals.
    reflexivity.
  - unfold getDistance, sampleBilinear. simpl. rewrite H2, H0. simpl. decide_reals.
    reflexivity.
Qed.

End OutsideTheGrid.

(** ** The blended flow vector *)

Section BlendedVector.

Import SDF.
Local Open Scope R_scope.

Lemma cell_finite (g : list num) (n : nat) (i : Z) :
  length g = n -> Forall is_finite g -> (0 <= i < Z.of_nat n)%Z ->
  exists r, cell g i = Fin r.
Proof.
  intros Hlen Hfin Hi. unfold cell.
  destruct (Z.ltb_spec i 0) as [|_]; [lia|].
  destruct (lookup_lt_is_Some_2 g (Z.to_nat i)) as [a Ha]; [lia|].
  rewrite Ha. simpl.
  rewrite Forall_lookup in Hfin. specialize (Hfin _ _ Ha).
  destruct a; try contradiction. now exists r.
Qed.

Lemma getGridValue_inside (s : t) (g : list num) (x y : Z) :
  grid_ok s g -> (0 <= x < gridWidth s)%Z -> (0 <= y < gridHeight s)%Z ->
  exists r, getGridValue s g x y = Fin r.
Proof.
  intros [Hlen Hfin] Hx Hy. unfold getGridValue.
  destruct (Z.ltb_spec x 0), (Z.geb_spec x (gridWidth s)),
    (Z.ltb_spec y 0), (Z.geb_spec y (gridHeight s)); try lia. simpl.
  apply (cell_finite g _ _ Hlen Hfin). nia.
Qed.

Lemma sampleBilinear_inside (s : t) (g : list num) (gx gy : R) :
  grid_ok s g ->
  (0 <= Int_part gx < gridWidth s)%Z -> (0 <= Int_part gy < gridHeight s)%Z ->
  exists r, sampleBilinear s g gx gy = Fin r.
Proof.
  intros Hg Hx Hy. unfold sampleBilinear.
  destruct (getGridValue_inside s g (Int_part gx) (Int_part gy) Hg) as [a ->]; [lia..|].
  destruct (getGridValue_inside s g (Z.min (Int_part gx + 1) (gridWidth s - 1)) (Int_part gy) Hg)
    as [b ->]; [lia..|].
  destruct (getGridValue_inside s g (Int_part gx) (Z.min (Int_part gy + 1) (gridHeight s - 1)) Hg)
    as [c ->]; [lia..|].
  destruct (getGridValue_inside s g (Z.min (Int_part gx + 1) (gridWidth s - 1))
              (Z.min (Int_part gy + 1) (gridHeight s - 1)) Hg) as [d ->]; [lia..|].
  simpl. eauto.
Qed.

Lemma outside_dec (s : t) (gx gy : R) :
  outside s gx gy \/
  ((0 <= Int_part gx < gridWidth s)%Z /\ (0 <= Int_part gy < gridHeight s)%Z).
Proof. unfold outside. lia. Qed.

Lemma getGradient_finite (s : t) (x y : R) (a b : R) :
  sampleBilinear s (gradientX s) (x / resolution s) (y / resolution s) = Fin a ->
  sampleBilinear s (gradientY s) (x / resolution s) (y / resolution s) = Fin b ->
  exists u v, getGradient s x y = Vector.mk (Fin u) (Fin v).
Proof.
  intros Ha Hb. unfold getGradient.
  destruct (loaded s); cbn [negb]; [|eauto].
  rewrite Ha, Hb, nsqrt_sumsq. cbn [nltb].
  destruct (Rlt_dec (sqrt (a * a + b * b)) 0.0001) as [Hlen|Hlen].
  - rewrite Rltb_true by exact Hlen. eauto.
  - rewrite Rltb_false by lra. rewrite !ndiv_fin by lra. eauto.
Qed.

Lemma tangent_finite (d u v bx by' : R) :
  exists tx ty,
    FlowField.tangent (Fin d) (Vector.mk (Fin u) (Fin v)) (Fin bx) (Fin by') = (Fin tx, Fin ty).
Proof.
  unfold FlowField.tangent. simpl.
  destruct (Rltb d 0); [eauto|].
  destruct (Rleb 0 (bx * - v + by' * u)); eauto.
Qed.

(** With well-formed grids the blended vector is finite. *)
Lemma blended_finite (ff : FlowField.t) (x y : R) :
  (forall s, FlowField.sdf ff = Some s -> loaded s = true -> well_formed s) ->
  exists bx by', FlowField.blended ff x y = (Fin bx, Fin by').
Proof.
  intros Hwf. unfold FlowField.blended.
  destruct (FlowField.sdf ff) as [s|] eqn:Hs; [|eauto].
  unfold isLoaded. destruct (loaded s) eqn:Hl; [|eauto].
  destruct (Hwf s eq_refl Hl) as (Hg & HgX & HgY).
  destruct (outside_dec s (x / resolution s) (y / resolution s)) as [Hout|[Hx Hy]].
  { destruct (getDistance_outside s x y Hl Hout) as [-> | ->]; simpl; eauto. }
  destruct (sampleBilinear_inside s (grid s) _ _ Hg Hx Hy) as [d Hd].
  destruct (sampleBilinear_inside s (gradientX s) _ _ HgX Hx Hy) as [a Ha].
  destruct (sampleBilinear_inside s (gradientY s) _ _ HgY Hx Hy) as [b Hb].
  destruct (getGradient_finite s x y a b Ha Hb) as (u & v & ->).
  unfold getDistance. rewrite Hl, Hd. cbn [negb nabs nltb Vector.x Vector.y].
  unfold Rltb at 1.
  destruct (Rlt_dec (Rabs d) (FlowField.sdfFalloff ff)) as [Hlt|]; [|simpl; eauto].
  destruct (nneqb (Fin u) (Fin 0) || nneqb (Fin v) (Fin 0)); [|simpl; eauto].
  cbn [andb].
  destruct (tangent_finite d u v (cos (FlowField.getAngle ff x y))
              (sin (FlowField.getAngle ff x y))) as (tx & ty & ->).
  pose proof (Rabs_pos d) as Hd0.
  cbn [ndiv]. unfold Reqb.
  destruct (Req_dec_T (FlowField.sdfFalloff ff) 0) as [H0|_]; [lra|].
  simpl. eauto.
Qed.

(** The final normalisation: a unit vector if the length exceeds [0.0001],
    the vector itself otherwise. *)
Lemma normalized_cases (a b : R) :
  exists rx ry,
    FlowField.normalized (Fin a, Fin b) = Vector.mk (Fin rx) (Fin ry) /\
    ((0.0001 < sqrt (a * a + b * b) /\ sqrt (rx * rx + ry * ry) = 1) \/
     (sqrt (a * a + b * b) <= 0.0001 /\ rx = a /\ ry = b)).
Proof.
  unfold FlowField.normalized. rewrite nsqrt_sumsq. cbn [ngtb nltb].
  set (len := sqrt (a * a + b * b)).
  assert (Hlen : len * len = a * a + b * b) by (apply sqrt_sqrt; nra).
  destruct (Rlt_dec 0.0001 len) as [Hbig|Hsmall].
  - rewrite Rltb_true by exact Hbig. rewrite !ndiv_fin by lra.
    exists (a / len), (b / len). split; [reflexivity|]. left. split; [exact Hbig|].
    replace (a / len * (a / len) + b / len * (b / len)) with 1; [apply sqrt_1|].
    field_simplify_eq; lra.
  - rewrite Rltb_false by lra.
    exists a, b. split; [reflexivity|]. right. repeat split. lra.
Qed.

(** What [getVector] returns, for every position and every configuration
    whose loaded distance field (if any) is well formed: a finite vector,
    of magnitude 1 if the magnitude of the blended vector exceeds 0.0001,
    and the blended vector itself, unchanged, if it does not. *)
Lemma getVector_unit_or_small (ff : FlowField.t) (x y : R) :
  (forall s, FlowField.sdf ff = Some s -> loaded s = true -> well_formed s) ->
  exists bx by' rx ry,
    FlowField.blended ff x y = (Fin bx, Fin by') /\
    FlowField.getVector ff x y = Vector.mk (Fin rx) (Fin ry) /\
    ((0.0001 < sqrt (bx * bx + by' * by') /\ sqrt (rx * rx + ry * ry) = 1) \/
     (sqrt (bx * bx + by' * by') <= 0.0001 /\ rx = bx /\ ry = by')).
Proof.
  intros Hwf.
  destruct (blended_finite ff x y Hwf) as (bx & by' & Hb).
  destruct (normalized_cases bx by') as (rx & ry & Hn & Hcases).
  exists bx, by', rx, ry. unfold FlowField.getVector. rewrite Hb. auto.
Qed.

End BlendedVector.

(** ** The example with the distance field attached *)

Section Deflected.

Import SDF.
Local Open Scope R_scope.

Lemma example_spot_y_range : 0 < Example.spot_y < 1.
Proof.
  pose proof example_X_pos as HX. pose proof G2_bounds as HG.
  assert (HY : 19 < Example.lattice_y < 20) by (unfold Example.lattice_y; lra).
  assert (E : Example.spot_y * (100 * Example.lattice_x) = Example.lattice_y)
    by (unfold Example.spot_y; field; lra).
  split; nra.
Qed.

Lemma example_cell : Int_part (0.01 / 4) = 0%Z /\ Int_part (Example.spot_y / 4) = 0%Z.
Proof.
  pose proof example_spot_y_range. split; apply Int_part_eq; simpl; lra.
Qed.

Lemma half_plane_well_formed : well_formed Example.half_plane.
Proof.
  unfold well_formed, grid_ok. simpl.
  repeat split; try reflexivity; repeat constructor.
Qed.

Lemma half_plane_distance :
  getDistance Example.half_plane 0.01 Example.spot_y = Fin (-3.98).
Proof.
  destruct example_cell as [Hx Hy].
  unfold getDistance, sampleBilinear. simpl. rewrite Hx, Hy. simpl.
  f_equal. lra.
Qed.

Lemma half_plane_gradient :
  getGradient Example.half_plane 0.01 Example.spot_y = Vector.mk (Fin 1) (Fin 0).
Proof.
  destruct example_cell as [Hx Hy].
  unfold getGradient, sampleBilinear. simpl. rewrite Hx, Hy. simpl.
  set (fx := 0.01 / 4 - 0). set (fy := Example.spot_y / 4 - 0).
  replace ((2 * (1 - fx) + 2 * fx) * (1 - fy) + (2 * (1 - fx) + 2 * fx) * fy) with 2 by ring.
  replace ((0 * (1 - fx) + 0 * fx) * (1 - fy) + (0 * (1 - fx) + 0 * fx) * fy) with 0 by ring.
  replace (2 * 2 + 0 * 0) with (2 * 2) by ring.
  rewrite sqrt_square by lra.
  decide_reals. f_equal; f_equal; lra.
Qed.

Lemma deflected_angle : FlowField.getAngle Example.deflected 0.01 Example.spot_y = PI.
Proof. exact example_angle. Qed.

Lemma deflected_tunables :
  FlowField.sdfStrength Example.deflected = 0.66668 /\
  FlowField.sdfFalloff Example.deflected = 7.96.
Proof.
  simpl. split.
  - rewrite Rmin_right, Rmax_right by lra. reflexivity.
  - apply Rmax_right. lra.
Qed.

Lemma deflected_blended :
  FlowField.blended Example.deflected 0.01 Example.spot_y = (Fin 0.00002, Fin 0).
Proof.
  unfold FlowField.blended.
  rewrite deflected_angle, cos_PI, sin_PI.
  destruct deflected_tunables as [-> ->].
  cbn [Example.deflected FlowField.sdf FlowField.setSDFFalloff FlowField.setSDFStrength
         FlowField.setSDF isLoaded loaded Example.half_plane].
  rewrite half_plane_distance, half_plane_gradient.
  cbn [nabs Vector.x Vector.y].
  replace (Rabs (-3.98)) with 3.98 by (unfold Rabs; destruct (Rcase_abs _); lra).
  unfold FlowField.tangent.
  decide_reals. f_equal; f_equal; lra.
Qed.

Lemma deflected_vector :
  FlowField.getVector Example.deflected 0.01 Example.spot_y
  = Vector.mk (Fin 0.00002) (Fin 0).
Proof.
  unfold FlowField.getVector. rewrite deflected_blended.
  unfold FlowField.normalized.
  replace (Fin 0.00002 * Fin 0.00002 + Fin 0 * Fin 0)%num with (Fin (0.00002 * 0.00002))
    by (simpl; f_equal; ring).
  cbn [nsqrt]. unfold Rltb at 1.
  destruct (Rlt_dec (0.00002 * 0.00002) 0) as [H|_]; [lra|].
  rewrite sqrt_square by lra.
  decide_reals. reflexivity.
Qed.

(** C1, at the example: [getVector] returns a vector that is neither a unit
    vector nor [(0, 0)].  The blended vector is [(0.00002, 0)]; its
    magnitude does not exceed 0.0001, so the test [len > 0.0001] of the
    final normalisation fails and the blended vector is returned as it is,
    of magnitude 0.00002.  The comment of [getVector] promises a unit
    vector, and [SDF.getGradient] returns [(0, 0)] below the same
    threshold. *)
Theorem getVector_below_threshold :
  FlowField.blended Example.deflected 0.01 Example.spot_y = (Fin 0.00002, Fin 0) /\
  sqrt (0.00002 * 0.00002 + 0 * 0) <= 0.0001 /\
  FlowField.getVector Example.deflected 0.01 Example.spot_y = Vector.mk (Fin 0.00002) (Fin 0) /\
  Vector.mk (Fin 0.00002) (Fin 0) <> Vector.mk (Fin 0) (Fin 0) /\
  sqrt (0.00002 * 0.00002 + 0 * 0) < 1 - 0.001.
Proof.
  assert (E : sqrt (0.00002 * 0.00002 + 0 * 0) = 0.00002).
  { replace (0.00002 * 0.00002 + 0 * 0) with (0.00002 * 0.00002) by ring.
    apply sqrt_square. lra. }
  rewrite E.
  split; [exact deflected_blended|]. split; [lra|].
  split; [exact deflected_vector|]. split; [|lra].
  intros H. injection H as H. lra.
Qed.

End Deflected.

(** ** The range of the noise *)

Section CertifiedBound.

Import Bound.
Local Open Scope R_scope.

Lemma one_pos : 0 < IZR one.
Proof. unfold one. lra. Qed.

Lemma val_add (a b : Z) : val (a + b) = val a + val b.
Proof. unfold val. rewrite plus_IZR. pose proof one_pos. field. lra. Qed.

Lemma val_sub (a b : Z) : val (a - b) = val a - val b.
Proof. unfold val. rewrite minus_IZR. pose proof one_pos. field. lra. Qed.

Lemma val_le (a b : Z) : (a <= b)%Z -> val a <= val b.
Proof.
  intros H. unfold val. apply IZR_le in H. pose proof one_pos.
  apply Rmult_le_compat_r; [|exact H]. left. now apply Rinv_0_lt_compat.
Qed.

Lemma val_lt (a b : Z) : (a < b)%Z -> val a < val b.
Proof.
  intros H. unfold val. apply IZR_lt in H. pose proof one_pos.
  apply Rmult_lt_compat_r; [|exact H]. now apply Rinv_0_lt_compat.
Qed.

Lemma val_0 : val 0 = 0.
Proof. unfold val. pose proof one_pos. field. lra. Qed.

Lemma val_one : val one = 1.
Proof. unfold val. pose proof one_pos. field. lra. Qed.

Lemma val_half : val half = 1 / 2.
Proof. unfold val, half, one. lra. Qed.

Lemma val_two : val (2 * one) = 2.
Proof. unfold val, one. rewrite mult_IZR. lra. Qed.

(** Division of integers rounds down. *)
Lemma div_floor (a c : Z) : (0 < c)%Z -> IZR (a / c) <= IZR a / IZR c.
Proof.
  intros Hc. pose proof (Z.mul_div_le a c Hc) as H.
  apply IZR_le in H. rewrite mult_IZR in H.
  apply IZR_lt in Hc.
  apply Rmult_le_reg_l with (IZR c); [exact Hc|].
  replace (IZR c * (IZR a / IZR c)) with (IZR a) by (field; lra). exact H.
Qed.

Lemma div_ceil (a c : Z) : (0 < c)%Z -> IZR a / IZR c <= IZR (- (- a / c)).
Proof.
  intros Hc. pose proof (div_floor (- a) c Hc) as H.
  rewrite opp_IZR in *. apply IZR_lt in Hc.
  replace (- IZR a / IZR c) with (- (IZR a / IZR c)) in H by (field; lra). lra.
Qed.

Lemma val_div (a c : Z) : (0 < c)%Z -> val (a / c) <= val a / IZR c.
Proof.
  intros Hc. unfold val. pose proof (div_floor a c Hc) as H. pose proof one_pos as H1.
  apply IZR_lt in Hc.
  replace (IZR a / IZR one / IZR c) with (IZR a / IZR c / IZR one) by (field; lra).
  apply Rmult_le_compat_r; [|exact H]. left. now apply Rinv_0_lt_compat.
Qed.

Lemma mul_up_sound (a b : Z) (x y : R) :
  0 <= x <= val a -> 0 <= y <= val b -> x * y <= val (mul_up a b).
Proof.
  intros Hx Hy. pose proof one_pos as H1.
  assert (H : val a * val b <= val (mul_up a b)).
  { unfold mul_up, val.
    pose proof (div_ceil (a * b) one ltac:(reflexivity)) as Hc. rewrite mult_IZR in Hc.
    replace (IZR a / IZR one * (IZR b / IZR one))
      with (IZR a * IZR b / IZR one / IZR one) by (field; lra).
    apply Rmult_le_compat_r; [|exact Hc]. left. now apply Rinv_0_lt_compat. }
  nra.
Qed.

Lemma mul_dn_sound (a : Z) (x : R) :
  0 <= val a <= x -> val (mul_dn a a) <= x * x.
Proof.
  intros Hx. pose proof one_pos as H1.
  assert (H : val (mul_dn a a) <= val a * val a).
  { unfold mul_dn, val.
    pose proof (div_floor (a * a) one ltac:(reflexivity)) as Hc. rewrite mult_IZR in Hc.
    replace (IZR a / IZR one * (IZR a / IZR one))
      with (IZR a * IZR a / IZR one / IZR one) by (field; lra).
    apply Rmult_le_compat_r; [|exact Hc]. left. now apply Rinv_0_lt_compat. }
  nra.
Qed.

(** A lower bound of [x * x / c] in fixed point. *)
Lemma sq_div_sound (a c : Z) (x : R) :
  (0 < c)%Z -> 0 <= val a <= x -> val (mul_dn a a / c) <= x * x / IZR c.
Proof.
  intros Hc Hx. pose proof (val_div (mul_dn a a) c Hc) as H.
  pose proof (mul_dn_sound a x Hx) as H'. apply IZR_lt in Hc.
  apply Rle_trans with (1 := H).
  apply Rmult_le_compat_r; [|exact H']. left. now apply Rinv_0_lt_compat.
Qed.

Lemma kernel_up_sound (T A : R) (Tb Ab : Z) :
  T <= val Tb -> 0 <= A <= val Ab -> kernel T A <= val (kernel_up Tb Ab).
Proof.
  intros HT HA. unfold kernel, kernel_up.
  destruct (Z.leb_spec Tb 0) as [Hle|Hgt].
  - apply val_le in Hle. rewrite val_0 in *.
    rewrite Rmax_left by lra. lra.
  - apply val_lt in Hgt. rewrite val_0 in Hgt.
    set (t := Rmax 0 T).
    assert (Ht : 0 <= t <= val Tb).
    { unfold t. split; [apply Rmax_l|]. apply Rmax_lub; lra. }
    pose proof (mul_up_sound Tb Tb t t Ht Ht) as H2.
    assert (H2' : 0 <= t * t <= val (mul_up Tb Tb)) by (split; [nra|exact H2]).
    pose proof (mul_up_sound _ _ _ _ H2' H2') as H4.
    apply mul_up_sound; [|exact HA]. split; [nra|exact H4].
Qed.

Lemma rho_sq : rho * rho = 1 / 3.
Proof. unfold rho. pose proof G2_sq. nra. Qed.

Lemma rho_range : 0 < rho <= val rho_up.
Proof.
  pose proof sqrt3_bounds.
  unfold rho, SimplexNoise.G2, val, rho_up, one. split; lra.
Qed.

Lemma box_up_sound (pl ph ml mh : Z) (p m : R) :
  (0 <= pl)%Z -> (ph <= one)%Z -> (0 <= ml)%Z -> (mh <= one)%Z ->
  val pl <= p <= val ph -> val ml <= m <= val mh ->
  phi p m <= val (box_up pl ph ml mh).
Proof.
  intros Hpl Hph Hml Hmh Hp Hm.
  pose proof rho_range as Hrho.
  pose proof (val_le _ _ Hpl) as Vpl. pose proof (val_le _ _ Hph) as Vph.
  pose proof (val_le _ _ Hml) as Vml. pose proof (val_le _ _ Hmh) as Vmh.
  rewrite val_0, ?val_one in *.
  unfold phi, box_up. rewrite !val_add.
  repeat apply Rplus_le_compat; apply kernel_up_sound.
  - unfold T0. rewrite !val_sub, val_half.
    pose proof (sq_div_sound pl 6 p ltac:(reflexivity) ltac:(lra)).
    pose proof (sq_div_sound ml 2 m ltac:(reflexivity) ltac:(lra)). lra.
  - unfold A0. split.
    + apply Rle_trans with (2 := Rmax_r _ _). lra.
    + apply Rmax_lub.
      * apply Rle_trans with (2 := val_le _ _ (Z.le_max_l _ _)).
        apply mul_up_sound; lra.
      * apply Rle_trans with (2 := val_le _ _ (Z.le_max_r _ _)). lra.
  - unfold T1. rewrite !val_sub, val_half.
    pose proof (sq_div_sound (one - ph) 6 (1 - p) ltac:(reflexivity)
                  ltac:(rewrite val_sub, val_one; lra)).
    pose proof (sq_div_sound (one - mh) 2 (1 - m) ltac:(reflexivity)
                  ltac:(rewrite val_sub, val_one; lra)). lra.
  - unfold A1. rewrite Rabs_pos_eq by lra. split.
    + apply Rle_trans with (2 := Rmax_r _ _). lra.
    + apply Rmax_lub.
      * apply Rle_trans with (2 := val_le _ _ (Z.le_max_l _ _)).
        apply mul_up_sound; [rewrite val_sub, val_one|]; lra.
      * apply Rle_trans with (2 := val_le _ _ (Z.le_max_r _ _)).
        rewrite val_sub, val_one. lra.
  - unfold T2. rewrite !val_sub, val_half.
    pose proof (sq_div_sound (2 * one - ph) 6 (2 - p) ltac:(reflexivity)
                  ltac:(rewrite val_sub, val_two; lra)).
    pose proof (sq_div_sound ml 2 m ltac:(reflexivity) ltac:(lra)). lra.
  - unfold A2. split.
    + apply Rle_trans with (2 := Rmax_r _ _). lra.
    + apply Rmax_lub.
      * apply Rle_trans with (2 := val_le _ _ (Z.le_max_l _ _)).
        apply mul_up_sound; [rewrite val_sub, val_two|]; lra.
      * apply Rle_trans with (2 := val_le _ _ (Z.le_max_r _ _)). lra.
Qed.

Lemma val_limit : val limit <= 1 / 70.
Proof. change limit with 239674%Z. unfold val, one. lra. Qed.

Lemma val_mid (a b : Z) (x : R) :
  val a <= x <= val b -> val a <= x <= val ((a + b) / 2) \/ val ((a + b) / 2) <= x <= val b.
Proof. intros H. destruct (Rle_dec x (val ((a + b) / 2))); [left|right]; lra. Qed.

Lemma check_sound (depth : nat) (pl ph ml mh : Z) (p m : R) :
  check depth pl ph ml mh = true ->
  (0 <= pl <= ph)%Z -> (ph <= one)%Z -> (0 <= ml <= mh)%Z -> (mh <= one)%Z ->
  val pl <= p <= val ph -> val ml <= m <= val mh -> m <= p ->
  phi p m <= 1 / 70.
Proof.
  revert pl ph ml mh.
  induction depth as [|d IH]; intros pl ph ml mh Hc Hpl Hph Hml Hmh Hp Hm Hmp;
    cbn [check] in Hc;
    (destruct (Z.ltb_spec ph ml) as [Hlt|_];
     [apply val_lt in Hlt; lra|]);
    (destruct (Z.leb_spec (box_up pl ph ml mh) limit) as [Hle|_];
     [apply val_le in Hle; pose proof val_limit;
      pose proof (box_up_sound pl ph ml mh p m ltac:(lia) Hph ltac:(lia) Hmh Hp Hm); lra|]).
  - discriminate.
  - apply andb_prop in Hc as [Hc H4]. apply andb_prop in Hc as [Hc H3].
    apply andb_prop in Hc as [H1 H2].
    assert (Hpm : (pl <= (pl + ph) / 2 <= ph)%Z)
      by (split; [apply Z.div_le_lower_bound|apply Z.div_le_upper_bound]; lia).
    assert (Hmm : (ml <= (ml + mh) / 2 <= mh)%Z)
      by (split; [apply Z.div_le_lower_bound|apply Z.div_le_upper_bound]; lia).
    destruct (val_mid pl ph p Hp) as [Hp'|Hp'], (val_mid ml mh m Hm) as [Hm'|Hm'].
    + apply (IH _ _ _ _ H1); auto; lia.
    + apply (IH _ _ _ _ H3); auto; lia.
    + apply (IH _ _ _ _ H2); auto; lia.
    + apply (IH _ _ _ _ H4); auto; lia.
Qed.

Lemma phi_mirror (p m : R) : phi (2 - p) m = phi p m.
Proof.
  unfold phi, T0, T1, T2, A0, A1, A2.
  replace (2 - (2 - p)) with p by ring.
  replace (1 - (2 - p)) with (- (1 - p)) by ring.
  rewrite Rabs_Ropp.
  replace (- (1 - p) * - (1 - p)) with ((1 - p) * (1 - p)) by ring.
  ring.
Qed.

Lemma check_unit_square : check 12 0 one 0 one = true.
Proof. vm_compute. reflexivity. Qed.

(** The sum of the three bounds is at most [1/70] on the whole cell. *)
Lemma phi_le (p m : R) :
  0 <= m -> m <= p -> m <= 2 - p -> phi p m <= 1 / 70.
Proof.
  intros Hm Hmp Hmq.
  assert (Hhalf : forall q, 0 <= q <= 1 -> m <= q -> phi q m <= 1 / 70).
  { intros q Hq Hmq'.
    apply (check_sound 12 0 one 0 one q m check_unit_square);
      rewrite ?val_0, ?val_one; unfold one; try lia; lra. }
  destruct (Rle_dec p 1).
  - apply Hhalf; lra.
  - rewrite <- phi_mirror. apply Hhalf; lra.
Qed.

End CertifiedBound.

Section NoiseRange.

Import SimplexNoise Bound.
Local Open Scope R_scope.

(** The first two components of every gradient are -1, 0 or 1. *)
Lemma grad3_range (gi : Z) :
  (-1 <= grad3_0 gi <= 1)%Z /\ (-1 <= grad3_1 gi <= 1)%Z.
Proof.
  unfold grad3_0, grad3_1. generalize (Z.to_nat gi). intros n.
  do 12 (destruct n as [|n]; [simpl; lia|]).
  destruct n; simpl; lia.
Qed.

Lemma dot_bound (a b x y : R) :
  -1 <= a <= 1 -> -1 <= b <= 1 ->
  Rabs (a * x + b * y) <= Rmax (Rabs (x + y)) (Rabs (x - y)).
Proof.
  intros Ha Hb.
  assert (H : Rabs (a * x + b * y) <= Rabs x + Rabs y).
  { apply Rle_trans with (1 := Rabs_triang _ _).
    rewrite !Rabs_mult.
    pose proof (Rabs_pos x). pose proof (Rabs_pos y).
    assert (Rabs a <= 1) by (apply Rabs_le; lra).
    assert (Rabs b <= 1) by (apply Rabs_le; lra).
    pose proof (Rabs_pos a). pose proof (Rabs_pos b). nra. }
  apply Rle_trans with (1 := H).
  unfold Rmax, Rabs.
  repeat match goal with
         | |- context [Rcase_abs ?z] => destruct (Rcase_abs z)
         | |- context [Rle_dec ?u ?v] => destruct (Rle_dec u v)
         end; lra.
Qed.

Lemma kernel_nonneg (T A : R) : 0 <= A -> 0 <= kernel T A.
Proof.
  intros HA. unfold kernel. pose proof (Rmax_l 0 T).
  apply Rmult_le_pos; [|exact HA]. nra.
Qed.

Lemma corner_bound (gi : Z) (x y : R) :
  Rabs (corner gi x y)
  <= kernel (1 / 2 - x * x - y * y) (Rmax (Rabs (x + y)) (Rabs (x - y))).
Proof.
  set (A := Rmax (Rabs (x + y)) (Rabs (x - y))).
  assert (HA : 0 <= A).
  { apply Rle_trans with (2 := Rmax_l _ _). apply Rabs_pos. }
  unfold corner. destruct (Rle_dec 0 (0.5 - x * x - y * y)) as [Ht|Ht].
  - destruct (grad3_range gi) as [[H0 H0'] [H1 H1']].
    apply IZR_le in H0, H0', H1, H1'.
    pose proof (dot_bound (IZR (grad3_0 gi)) (IZR (grad3_1 gi)) x y
                  ltac:(lra) ltac:(lra)) as Hd.
    fold A in Hd. unfold kernel.
    replace (0.5 - x * x - y * y) with (1 / 2 - x * x - y * y) in * by lra.
    rewrite Rmax_right by exact Ht.
    set (t := 1 / 2 - x * x - y * y) in *.
    rewrite Rabs_mult. rewrite (Rabs_pos_eq (t * t * (t * t))) by nra.
    apply Rmult_le_compat_l; [nra|exact Hd].
  - rewrite Rabs_R0. now apply kernel_nonneg.
Qed.

(** The offsets of the first corner, through the fractional parts [u], [v]
    of the skewed position. *)
Lemma first_corner (x y : R) :
  let s := (x + y) * F2 in
  let i := Int_part (x + s) in
  let j := Int_part (y + s) in
  let t := IZR (i + j) * G2 in
  exists u v, 0 <= u < 1 /\ 0 <= v < 1 /\
    x - (IZR i - t) = u - (u + v) * G2 /\
    y - (IZR j - t) = v - (u + v) * G2.
Proof.
  intros s i j t.
  exists (x + s - IZR i), (y + s - IZR j).
  pose proof (frac_range (x + s)). pose proof (frac_range (y + s)).
  fold i in H. fold j in H0.
  assert (Hs : s - (x + y + 2 * s) * G2 = 0).
  { unfold s. transitivity ((x + y) * ((1 - 2 * G2) * F2 - G2)); [ring|].
    rewrite F2_G2. ring. }
  unfold t. rewrite plus_IZR.
  repeat split; try lra; nra.
Qed.

(** In terms of [p = u + v] and [m = |u - v|]. *)
Lemma corner_args (u v dx dy cs cd : R) :
  let p := u + v in
  let m := Rabs (u - v) in
  let x := u - p * G2 + dx in
  let y := v - p * G2 + dy in
  x + y = (p - cs) * rho -> Rabs (x - y) = cd ->
  1 / 2 - x * x - y * y = 1 / 2 - (p - cs) * (p - cs) / 6 - cd * cd / 2 /\
  Rmax (Rabs (x + y)) (Rabs (x - y)) = Rmax (Rabs (p - cs) * rho) cd.
Proof.
  intros p m x y Hsum Hdiff. pose proof rho_sq as Hr. pose proof rho_range as Hr'.
  split.
  - assert (Hd2 : (x - y) * (x - y) = cd * cd).
    { rewrite <- Hdiff. unfold Rabs. destruct (Rcase_abs (x - y)); ring. }
    assert (Hs2 : (x + y) * (x + y) = (p - cs) * (p - cs) * (rho * rho))
      by (rewrite Hsum; ring).
    rewrite Hr in Hs2. nra.
  - rewrite Hsum, Hdiff, Rabs_mult, (Rabs_pos_eq rho) by lra. reflexivity.
Qed.

(** The three contributions at a point of the cell, for any gradients. *)
Lemma three_corners (g0 g1 g2 : Z) (u v : R) (i1 j1 : Z) :
  0 <= u < 1 -> 0 <= v < 1 ->
  (v < u /\ i1 = 1%Z /\ j1 = 0%Z) \/ (u <= v /\ i1 = 0%Z /\ j1 = 1%Z) ->
  let x0 := u - (u + v) * G2 in
  let y0 := v - (u + v) * G2 in
  Rabs (corner g0 x0 y0
        + corner g1 (x0 - IZR i1 + G2) (y0 - IZR j1 + G2)
        + corner g2 (x0 - 1 + 2 * G2) (y0 - 1 + 2 * G2)) <= 1 / 70.
Proof.
  intros Hu Hv Hcase x0 y0.
  set (p := u + v). set (m := Rabs (u - v)).
  assert (Hm : 0 <= m /\ m <= p /\ m <= 2 - p /\ m < 1).
  { unfold m, p, Rabs. destruct (Rcase_abs (u - v)); lra. }
  pose proof rho_range as Hrho.
  apply Rle_trans with (2 := phi_le p m ltac:(lra) ltac:(lra) ltac:(lra)).
  unfold phi.
  apply Rle_trans with (1 := Rabs_triang _ _).
  apply Rplus_le_compat; [apply Rle_trans with (1 := Rabs_triang _ _);
                          apply Rplus_le_compat|].
  - apply Rle_trans with (1 := corner_bound _ _ _).
    destruct (corner_args u v 0 0 0 m) as [HT HA].
    { unfold rho. ring. }
    { unfold m. f_equal. ring. }
    unfold x0, y0. fold p.
    replace (u - p * G2) with (u - p * G2 + 0) by ring.
    replace (v - p * G2) with (v - p * G2 + 0) by ring.
    fold p in HT, HA. rewrite HT, HA.
    replace (1 / 2 - (p - 0) * (p - 0) / 6 - m * m / 2) with (T0 p m)
      by (unfold T0; field).
    unfold A0. rewrite Rminus_0_r, Rabs_pos_eq by lra. apply Rle_refl.
  - apply Rle_trans with (1 := corner_bound _ _ _).
    destruct Hcase as [(Hlt & -> & ->)|(Hle & -> & ->)].
    + destruct (corner_args u v (- 1 + G2) G2 1 (1 - m)) as [HT HA].
      { unfold rho. ring. }
      { unfold m, Rabs. destruct (Rcase_abs (u - v)), (Rcase_abs _); lra. }
      unfold x0, y0. fold p.
      replace (u - p * G2 - 1 + G2) with (u - p * G2 + (- 1 + G2)) by ring.
      replace (v - p * G2 - 0 + G2) with (v - p * G2 + G2) by ring.
      fold p in HT, HA. rewrite HT, HA.
      replace (1 / 2 - (p - 1) * (p - 1) / 6 - (1 - m) * (1 - m) / 2) with (T1 p m)
        by (unfold T1; field).
      unfold A1. rewrite (Rabs_minus_sym 1 p). apply Rle_refl.
    + destruct (corner_args u v G2 (- 1 + G2) 1 (1 - m)) as [HT HA].
      { unfold rho. ring. }
      { unfold m, Rabs. destruct (Rcase_abs (u - v)), (Rcase_abs _); lra. }
      unfold x0, y0. fold p.
      replace (u - p * G2 - 0 + G2) with (u - p * G2 + G2) by ring.
      replace (v - p * G2 - 1 + G2) with (v - p * G2 + (- 1 + G2)) by ring.
      fold p in HT, HA. rewrite HT, HA.
      replace (1 / 2 - (p - 1) * (p - 1) / 6 - (1 - m) * (1 - m) / 2) with (T1 p m)
        by (unfold T1; field).
      unfold A1. rewrite (Rabs_minus_sym 1 p). apply Rle_refl.
  - apply Rle_trans with (1 := corner_bound _ _ _).
    destruct (corner_args u v (- 1 + 2 * G2) (- 1 + 2 * G2) 2 m) as [HT HA].
    { unfold rho. ring. }
    { unfold m. f_equal. ring. }
    unfold x0, y0. fold p.
    replace (u - p * G2 - 1 + 2 * G2) with (u - p * G2 + (- 1 + 2 * G2)) by ring.
    replace (v - p * G2 - 1 + 2 * G2) with (v - p * G2 + (- 1 + 2 * G2)) by ring.
    fold p in HT, HA. rewrite HT, HA.
    replace (1 / 2 - (p - 2) * (p - 2) / 6 - m * m / 2) with (T2 p m)
      by (unfold T2; field).
    unfold A2. rewrite (Rabs_minus_sym p 2), (Rabs_pos_eq (2 - p)) by lra.
    apply Rle_refl.
Qed.

(** The noise lies in [-1, 1], for every table. *)
Lemma noise2D_range (sn : t) (x y : R) : -1 <= noise2D sn x y <= 1.
Proof.
  unfold noise2D.
  destruct (first_corner x y) as (u & v & Hu & Hv & Hx0 & Hy0).
  cbv zeta in Hx0, Hy0. rewrite Hx0, Hy0.
  assert (Hsum : forall n, Rabs n <= 1 / 70 -> -1 <= 70 * n <= 1).
  { intros n Hn. unfold Rabs in Hn. destruct (Rcase_abs n); lra. }
  destruct (Rlt_dec (v - (u + v) * G2) (u - (u + v) * G2)) as [Hlt|Hge];
    apply Hsum, three_corners; try assumption; [left|right]; repeat split; lra.
Qed.

End NoiseRange.

(** C6: for every integer seed and every point, [noise2D] lies in [-1, 1]
    (in exact arithmetic; the bound holds for every permutation table). *)
Theorem noise2D_in_range (seed : Z) (x y : R) :
  (-1 <= SimplexNoise.noise2D (SimplexNoise.new seed) x y <= 1)%R.
Proof. apply noise2D_range. Qed.

(** ** The flow angle *)

Section FlowAngle.

Import FlowField.
Local Open Scope R_scope.

Lemma noise3D_range (ff : t) (x y z : R) : -1 <= noise3D ff x y z <= 1.
Proof.
  unfold noise3D.
  pose proof (noise2D_range (noise ff) x y).
  pose proof (noise2D_range (noise ff) (x + 1000) z).
  pose proof (noise2D_range (noise ff) (y + 2000) z).
  lra.
Qed.

Lemma octaves_loop (ff : t) (x y : R) (n : nat) :
  octaves_inv n (Nat.iter n (octave ff x y) (0, 1, scale ff, 0)).
Proof.
  induction n as [|n IH].
  - simpl. repeat split; try lra. lia.
  - rewrite Nat.iter_succ. unfold octaves_inv in *.
    destruct (Nat.iter n (octave ff x y) (0, 1, scale ff, 0)) as [[[nv a] f] mv].
    destruct IH as (Ha & Hnv & Hmv & _). unfold octave.
    pose proof (noise3D_range ff (x * f) (y * f) (zOffset ff)) as Hn.
    repeat split; try lra; try nra.
Qed.

(** C7: with an octave count in [1,8], [getAngle] lies in [0, 2 PI]: the
    weighted sum divided by the total weight lies in [-1, 1]. *)
Theorem getAngle_range (ff : t) (x y : R) :
  (1 <= octaves ff <= 8)%Z -> 0 <= getAngle ff x y <= 2 * PI.
Proof.
  intros Ho. unfold getAngle.
  pose proof (octaves_loop ff x y (Z.to_nat (octaves ff))) as H.
  unfold octaves_inv in H.
  destruct (Nat.iter (Z.to_nat (octaves ff)) (octave ff x y) (0, 1, scale ff, 0))
    as [[[nv a] f] mv].
  destruct H as (_ & Hnv & _ & Hmv). specialize (Hmv ltac:(lia)).
  assert (Hq : -1 <= nv / mv <= 1).
  { split.
    - apply Rmult_le_reg_r with mv; [exact Hmv|].
      replace (nv / mv * mv) with nv by (field; lra). lra.
    - apply Rmult_le_reg_r with mv; [exact Hmv|].
      replace (nv / mv * mv) with nv by (field; lra). lra. }
  pose proof PI_RGT_0. split; nra.
Qed.

Lemma getAngle_range_witness :
  0 <= getAngle Example.field 0.01 Example.spot_y <= 2 * PI.
Proof.
  apply (getAngle_range Example.field 0.01 Example.spot_y). simpl. lia.
Defined.

End FlowAngle.

(** ** The distance transform *)

Section Loops.

Context {S A : Type}.

Lemma forM_inv (I : S -> Prop) (P : A -> Prop) (body : S -> A -> option S)
  (xs : list A) (s : S) :
  I s -> Forall P xs ->
  (forall s a, I s -> P a -> exists s', body s a = Some s' /\ I s') ->
  exists s', forM xs body s = Some s' /\ I s'.
Proof.
  intros Hs Hxs Hbody. revert s Hs.
  induction Hxs as [|a xs Ha Hxs IH]; intros s Hs; simpl.
  - eauto.
  - destruct (Hbody s a Hs Ha) as (s' & -> & Hs'). simpl. now apply IH.
Qed.

End Loops.

Lemma forM_seq_inv {S : Type} (I : nat -> S -> Prop) (body : S -> nat -> option S)
  (len start : nat) (s : S) :
  I start s ->
  (forall k s, (start <= k < start + len)%nat -> I k s ->
     exists s', body s k = Some s' /\ I (Datatypes.S k) s') ->
  exists s', forM (seq start len) body s = Some s' /\ I (start + len)%nat s'.
Proof.
  revert start s. induction len as [|len IH]; intros start s Hs Hbody; simpl.
  - rewrite Nat.add_0_r. eauto.
  - destruct (Hbody start s ltac:(lia) Hs) as (s' & -> & Hs'). simpl.
    replace (start + Datatypes.S len)%nat with (Datatypes.S start + len)%nat by lia.
    apply IH; [exact Hs'|]. intros k s0 Hk. apply Hbody. lia.
Qed.

Lemma fold_left_seq_inv {S : Type} (I : nat -> S -> Prop) (body : S -> nat -> S)
  (len start : nat) (s : S) :
  I start s ->
  (forall k s, (start <= k < start + len)%nat -> I k s -> I (Datatypes.S k) (body s k)) ->
  I (start + len)%nat (fold_left body (seq start len) s).
Proof.
  revert start s. induction len as [|len IH]; intros start s Hs Hbody; simpl.
  - now rewrite Nat.add_0_r.
  - replace (start + Datatypes.S len)%nat with (Datatypes.S start + len)%nat by lia.
    apply IH; [apply Hbody; [lia|exact Hs]|]. intros k s0 Hk. apply Hbody. lia.
Qed.

Section HorizontalPass.

Import SDF.
Local Open Scope R_scope.

Variables (B : R) (w h : nat) (d0 : list R).
Hypothesis d0_bounded : bounded B (w * h) d0.

Lemma lowered_refl : lowered B (w * h) d0 d0.
Proof.
  destruct d0_bounded as [Hlen Hb]. split; [exact Hlen|].
  intros i v0 Hi. exists v0. specialize (Hb _ _ Hi). auto.
Qed.

Lemma lowered_lookup (d : list R) (i : nat) :
  lowered B (w * h) d0 d -> (i < w * h)%nat ->
  exists v, d !! i = Some v /\ 0 <= v <= B.
Proof.
  intros [_ Hd] Hi. destruct d0_bounded as [Hlen _].
  destruct (lookup_lt_is_Some_2 d0 i) as [v0 Hv0]; [lia|].
  destruct (Hd _ _ Hv0) as (v & Hv & Hr & _). eauto.
Qed.

Lemma relax_lowered (d : list R) (idx nb : nat) :
  lowered B (w * h) d0 d -> (idx < w * h)%nat -> (nb < w * h)%nat ->
  exists d', relax d idx nb = Some d' /\ lowered B (w * h) d0 d'.
Proof.
  intros Hd Hidx Hnb. unfold relax.
  destruct (lowered_lookup d idx Hd Hidx) as (dv & Hdv & Hdr).
  destruct (lowered_lookup d nb Hd Hnb) as (e & He & Her).
  rewrite Hdv, He. simpl.
  destruct (Rlt_dec (e + 1) dv) as [Hlt|_]; [|eauto].
  eexists. split; [reflexivity|].
  destruct Hd as [Hlen Hd]. split; [now rewrite length_insert|].
  intros i v0 Hi. destruct (Hd _ _ Hi) as (v & Hv & Hr & H1).
  destruct (decide (i = idx)) as [->|Hne].
  - exists (e + 1). rewrite list_lookup_insert_eq by lia.
    repeat split; lra.
  - exists v. now rewrite list_lookup_insert_ne by auto.
Qed.

Lemma index_in_grid (x y : nat) : (x < w)%nat -> (y < h)%nat -> (y * w + x < w * h)%nat.
Proof. intros Hx Hy. nia. Qed.

Lemma scan_row_lowered (d : list R) (y : nat) :
  lowered B (w * h) d0 d -> (y < h)%nat ->
  exists d', scan_row w d y = Some d' /\ lowered B (w * h) d0 d'.
Proof.
  intros Hd Hy. unfold scan_row.
  destruct (forM_inv (lowered B (w * h) d0) (fun x => 1 <= x < w)%nat
              (fun dist x => relax dist (y * w + x) (y * w + x - 1))
              (seq 1 (w - 1)) d Hd) as (d1 & -> & Hd1).
  { apply Forall_forall. intros x Hx. apply elem_of_seq in Hx. lia. }
  { intros s x Hs Hx. apply relax_lowered; [exact Hs| |].
    - apply index_in_grid; lia.
    - pose proof (index_in_grid (x - 1) y ltac:(lia) Hy). lia. }
  simpl.
  apply (forM_inv (lowered B (w * h) d0) (fun x => x + 1 < w)%nat); [exact Hd1| |].
  - apply Forall_forall. intros x Hx.
    apply list_elem_of_In, in_rev, list_elem_of_In, elem_of_seq in Hx. lia.
  - intros s x Hs Hx. apply relax_lowered; [exact Hs| |].
    + apply index_in_grid; lia.
    + pose proof (index_in_grid (x + 1) y ltac:(lia) Hy). lia.
Qed.

Lemma horizontal_lowered :
  exists d, horizontal w h d0 = Some d /\ lowered B (w * h) d0 d.
Proof.
  unfold horizontal.
  apply (forM_inv (lowered B (w * h) d0) (fun y => y < h)%nat); [apply lowered_refl| |].
  - apply Forall_forall. intros y Hy. apply elem_of_seq in Hy. lia.
  - intros s y Hs Hy. now apply scan_row_lowered.
Qed.

End HorizontalPass.

Section VerticalPass.

Import SDF.
Local Open Scope R_scope.

Variables (w h : nat) (g : list R).
Hypothesis w_pos : (0 < w)%nat.
Hypothesis h_pos : (0 < h)%nat.
Hypothesis g_bounded : bounded (INR (w + h)) (w * h) g.

Local Abbreviation INF := (INR ((w + h) * (w + h))).

Lemma INF_sq : INF = INR (w + h) * INR (w + h).
Proof. now rewrite mult_INR. Qed.

Lemma INF_large : INR h <= INF /\ 1 <= INF.
Proof.
  split.
  - apply le_INR. nia.
  - change 1 with (INR 1). apply le_INR. nia.
Qed.

Lemma g_lookup (x y : nat) :
  (x < w)%nat -> (y < h)%nat ->
  exists gv, g !! (y * w + x)%nat = Some gv /\ 0 <= gv * gv <= INF.
Proof.
  intros Hx Hy. destruct g_bounded as [Hlen Hb].
  destruct (lookup_lt_is_Some_2 g (y * w + x)) as [gv Hgv];
    [rewrite Hlen; now apply index_in_grid|].
  exists gv. split; [exact Hgv|]. specialize (Hb _ _ Hgv). rewrite INF_sq. nra.
Qed.

Lemma extract_squares (x : nat) (d f : list R) :
  (x < w)%nat -> length f = h ->
  (forall y, (y < h)%nat -> d !! (y * w + x)%nat = g !! (y * w + x)%nat) ->
  exists f', extract w h x d f = Some f' /\ squares_of w h g f' x h.
Proof.
  intros Hx Hf Hd. unfold extract.
  apply (forM_seq_inv (fun k f => squares_of w h g f x k) _ h 0 f).
  - split; [exact Hf|]. intros y Hy. lia.
  - intros k f0 Hk [Hlen Hsq].
    destruct (g_lookup x k Hx ltac:(lia)) as (gv & Hgv & _).
    rewrite Hd, Hgv by lia. simpl. eexists. split; [reflexivity|].
    split; [now rewrite length_insert|].
    intros y Hy. destruct (decide (y = k)) as [->|Hne].
    + exists gv. split; [exact Hgv|]. apply list_lookup_insert_eq. lia.
    + destruct (Hsq y ltac:(lia)) as (gy & Hgy & Hfy).
      exists gy. split; [exact Hgy|]. now rewrite list_lookup_insert_ne by auto.
Qed.

(** The entries of [f]: squares, between 0 and [INF]. *)
Lemma squares_lookup (f : list R) (x y : nat) :
  squares_of w h g f x h -> (x < w)%nat -> (y < h)%nat ->
  exists fv, f !! y = Some fv /\ 0 <= fv <= INF.
Proof.
  intros [_ Hsq] Hx Hy. destruct (Hsq y Hy) as (gv & Hgv & Hfy).
  destruct (g_lookup x y Hx Hy) as (gv' & Hgv' & Hr).
  rewrite Hgv in Hgv'. injection Hgv' as <-. eauto.
Qed.

Lemma pop_total (f : list R) (v : list nat) (z : list R) (x q k : nat) :
  squares_of w h g f x h -> (x < w)%nat -> (1 <= q < h)%nat ->
  (forall j, (j <= k)%nat -> exists vj, v !! j = Some vj /\ (vj < q)%nat) ->
  v !! 0%nat = Some 0%nat -> z !! 0%nat = Some (- INF) ->
  (forall j, (j <= k)%nat -> is_Some (z !! j)) ->
  exists k' s, pop f v z q k = Some (k', s) /\ (k' <= k)%nat.
Proof.
  intros Hf Hx Hq Hv Hv0 Hz0 Hz.
  destruct (squares_lookup f x q Hf Hx ltac:(lia)) as (fq & Hfq & Hfqr).
  induction k as [|k IH].
  - simpl. unfold intersect. rewrite Hv0. simpl. rewrite Hfq. simpl.
    destruct (squares_lookup f x 0 Hf Hx h_pos) as (f0 & Hf0 & Hf0r).
    rewrite Hf0. simpl.
    assert (Hq1 : 1 <= INR q) by (change 1 with (INR 1); apply le_INR; lia).
    destruct (Req_dec_T (2 * INR q - 2 * 0) 0) as [H0|_]; [lra|].
    rewrite Hz0. simpl.
    destruct (Rle_dec _ (- INF)) as [Hle|_]; [|eauto].
    exfalso. pose proof INF_large as [_ HI].
    assert (Hs : (fq + INR q * INR q - (f0 + 0 * 0)) / (2 * INR q - 2 * 0) * (2 * INR q)
                 = fq + INR q * INR q - f0) by (field; lra).
    nra.
  - cbn [pop]. unfold intersect.
    destruct (Hv (Datatypes.S k) ltac:(lia)) as (vk & Hvk & Hvkq).
    destruct (squares_lookup f x vk Hf Hx ltac:(lia)) as (fv & Hfv & _).
    rewrite Hvk. simpl. rewrite Hfq. simpl. rewrite Hfv. simpl.
    assert (Hlt : INR vk < INR q) by now apply lt_INR.
    destruct (Req_dec_T (2 * INR q - 2 * INR vk) 0) as [H0|_]; [lra|].
    destruct (Hz (Datatypes.S k) ltac:(lia)) as (zk & Hzk). rewrite Hzk. simpl.
    destruct (Rle_dec _ zk) as [_|_]; [|eauto].
    destruct IH as (k' & s & Hpop & Hk'); [intros; apply Hv; lia|intros; apply Hz; lia|].
    exists k', s. split; [exact Hpop|lia].
Qed.

Lemma envelope_step_inv (f : list R) (x q : nat) (st : nat * list nat * list R) :
  squares_of w h g f x h -> (x < w)%nat -> (1 <= q < 1 + (h - 1))%nat ->
  envelope_inv INF h q st ->
  exists st', envelope_step INF f st q = Some st' /\ envelope_inv INF h (Datatypes.S q) st'.
Proof.
  intros Hf Hx Hq. destruct st as [[k v] z]. intros (Hk & Hlv & Hlz & Hv & Hv0 & Hz0 & HzK).
  unfold envelope_step.
  destruct (pop_total f v z x q k Hf Hx ltac:(lia) Hv Hv0 Hz0) as (k' & s & -> & Hk').
  { intros j Hj. apply lookup_lt_is_Some_2. lia. }
  simpl. eexists. split; [reflexivity|].
  unfold envelope_inv. rewrite !length_insert.
  repeat split; try lia.
  - intros j Hj. destruct (decide (j = Datatypes.S k')) as [->|Hne].
    + exists q. rewrite list_lookup_insert_eq by lia. split; [reflexivity|lia].
    + destruct (Hv j ltac:(lia)) as (vj & Hvj & Hvjq).
      exists vj. rewrite list_lookup_insert_ne by auto. split; [exact Hvj|lia].
  - now rewrite list_lookup_insert_ne by lia.
  - now rewrite !list_lookup_insert_ne by lia.
  - apply list_lookup_insert_eq. rewrite length_insert. lia.
Qed.

Lemma envelope_total (f : list R) (v : list nat) (z : list R) (x : nat) :
  squares_of w h g f x h -> (x < w)%nat -> length v = h -> length z = Datatypes.S h ->
  exists st, envelope INF h f v z = Some st /\ envelope_inv INF h h st.
Proof.
  intros Hf Hx Hlv Hlz. unfold envelope.
  replace (envelope_inv INF h h) with (envelope_inv INF h (1 + (h - 1)))
    by (f_equal; lia).
  apply (forM_seq_inv (envelope_inv INF h)).
  - unfold envelope_inv. rewrite !length_insert.
    repeat split; try lia.
    + intros j Hj. exists 0%nat. replace j with 0%nat by lia.
      rewrite list_lookup_insert_eq by lia. split; [reflexivity|lia].
    + apply list_lookup_insert_eq. lia.
    + rewrite list_lookup_insert_ne by lia. apply list_lookup_insert_eq. lia.
    + apply list_lookup_insert_eq. rewrite length_insert. lia.
  - intros q st Hq. now apply envelope_step_inv with x.
Qed.

Lemma skip_total (z : list R) (y : R) (K fuel k : nat) :
  z !! (Datatypes.S K) = Some INF -> y <= INF ->
  (k <= K)%nat -> (K - k <= fuel)%nat ->
  exists k', skip z y fuel k = Some k' /\ (k <= k' <= K)%nat.
Proof.
  intros HzK Hy. revert k. induction fuel as [|fuel IH]; intros k Hk Hfuel.
  - assert (k = K) by lia. subst k. simpl. rewrite HzK.
    destruct (Rlt_dec INF y); [lra|]. exists K. split; [reflexivity|lia].
  - cbn [skip]. destruct (z !! Datatypes.S k) as [zk|] eqn:Hzk.
    + destruct (Rlt_dec zk y) as [Hlt|_].
      * assert (k <> K) by (intros ->; rewrite HzK in Hzk; injection Hzk as <-; lra).
        destruct (IH (Datatypes.S k)) as (k' & Hk' & Hr); [lia..|].
        exists k'. split; [exact Hk'|lia].
      * exists k. split; [reflexivity|lia].
    + exists k. split; [reflexivity|lia].
Qed.

Lemma cell_index_inj (x x' y y' : nat) :
  (x < w)%nat -> (x' < w)%nat -> (y * w + x = y' * w + x')%nat -> x = x' /\ y = y'.
Proof.
  intros Hx Hx' E.
  assert (y = y') by nia. subst. lia.
Qed.

Lemma fill_step_inv (f : list R) (v : list nat) (z d0 : list R) (x K y : nat)
  (st : nat * list R) :
  squares_of w h g f x h -> (x < w)%nat -> (0 <= y < 0 + h)%nat ->
  envelope_inv INF h h (K, v, z) ->
  fill_inv w h g d0 x K y st ->
  exists st', fill_step w x f v z st y = Some st' /\ fill_inv w h g d0 x K (Datatypes.S y) st'.
Proof.
  intros Hf Hx Hy (HK & Hlv & Hlz & Hv & _ & _ & HzK).
  destruct st as [k d]. intros (Hk & Hld & Hdone & Hrest).
  unfold fill_step.
  destruct (skip_total z (INR y) K (length z) k HzK) as (k' & -> & Hk'); [|lia..|].
  { pose proof INF_large as [HI _]. apply Rle_trans with (2 := HI). apply le_INR. lia. }
  simpl.
  destruct (Hv k' ltac:(lia)) as (vk & Hvk & Hvkh). rewrite Hvk. simpl.
  destruct Hf as [Hlf Hsq].
  destruct (Hsq vk Hvkh) as (gv & Hgv & Hfv). rewrite Hfv. simpl.
  eexists. split; [reflexivity|].
  unfold fill_inv. rewrite length_insert.
  repeat split; try lia.
  - intros y' Hy'. destruct (decide (y' = y)) as [->|Hne].
    + exists vk, gv. repeat split; try assumption.
      apply list_lookup_insert_eq. rewrite Hld. apply index_in_grid; lia.
    + destruct (Hdone y' ltac:(lia)) as (u & gu & Hu & Hgu & Hd).
      exists u, gu. repeat split; try assumption.
      rewrite list_lookup_insert_ne; [exact Hd|].
      intros E. apply cell_index_inj in E; [lia|assumption..].
  - intros i Hi. rewrite list_lookup_insert_ne.
    + apply Hrest. intros y' Hy'. apply Hi. lia.
    + intros E. apply (Hi y); [lia|now symmetry].
Qed.

Lemma column_inv (k : nat) (st : list R * scratch) :
  (0 <= k < 0 + w)%nat -> columns_done w h g k st ->
  exists st', column INF w h st k = Some st' /\ columns_done w h g (Datatypes.S k) st'.
Proof.
  intros Hk. destruct st as [d sc].
  intros (Hld & Hlf & Hlv & Hlz & Hdone & Hrest). unfold column.
  destruct (extract_squares k d (sf sc)) as (f & -> & Hf); [lia|exact Hlf| |].
  { intros y Hy. apply Hrest; lia. }
  simpl.
  destruct (envelope_total f (sv sc) (sz sc) k Hf ltac:(lia) Hlv Hlz)
    as ([[K v] z] & -> & Henv).
  simpl.
  destruct (forM_seq_inv (fill_inv w h g d k K) (fill_step w k f v z) h 0 (0%nat, d))
    as ([k' d'] & -> & (_ & Hld' & Hcol & Hother)).
  { unfold fill_inv. repeat split; lia. }
  { intros y st Hy. now apply fill_step_inv. }
  simpl. eexists. split; [reflexivity|].
  destruct Henv as (_ & Hlv' & Hlz' & _). destruct Hf as [Hlf' Hsq].
  unfold columns_done. cbn [sf sv sz].
  repeat split; try assumption.
  - intros x y Hx Hxw Hy. destruct (decide (x = k)) as [->|Hne].
    + apply Hcol. lia.
    + destruct (Hdone x y ltac:(lia) Hxw Hy) as (u & gu & Hu & Hgu & Hd).
      exists u, gu. repeat split; try assumption.
      rewrite Hother; [exact Hd|].
      intros y' _ E. apply cell_index_inj in E; [lia|lia..].
  - intros x y Hx Hxw Hy. rewrite Hother; [apply Hrest; lia|].
    intros y' _ E. apply cell_index_inj in E; lia.
Qed.

(** The vertical pass returns, and every cell holds a parabola of its
    column. *)
Lemma vertical_total :
  exists d, vertical w h g = Some d /\ length d = (w * h)%nat /\
    forall x y, (x < w)%nat -> (y < h)%nat -> parabola_at w h g d x y.
Proof.
  unfold vertical.
  destruct (forM_seq_inv (columns_done w h g) (column INF w h) w 0
              (g, mkScratch (replicate h 0) (replicate h 0%nat) (replicate (h + 1) 0)))
    as ([d sc] & -> & (Hld & _ & _ & _ & Hdone & _)).
  { destruct g_bounded as [Hlg _]. unfold columns_done. cbn [sf sv sz].
    rewrite !length_replicate. repeat split; try lia; try assumption. }
  { intros k st Hk. now apply column_inv. }
  simpl. exists d. repeat split; [exact Hld|].
  intros x y Hx Hy. apply Hdone; lia.
Qed.

End VerticalPass.

Section DistanceField.

Import SDF.
Local Open Scope R_scope.

Variables (w h : nat).
Hypothesis w_pos : (0 < w)%nat.
Hypothesis h_pos : (0 < h)%nat.

Lemma lowered_bounded (B : R) (d0 d : list R) :
  bounded B (w * h) d0 -> lowered B (w * h) d0 d -> bounded B (w * h) d.
Proof.
  intros [Hl0 _] [Hl Hd]. split; [exact Hl|].
  intros i v Hv.
  destruct (lookup_lt_is_Some_2 d0 i) as [v0 Hv0].
  { rewrite Hl0, <- Hl. now apply lookup_lt_Some with v. }
  destruct (Hd _ _ Hv0) as (v' & Hv' & Hr & _).
  rewrite Hv in Hv'. injection Hv' as <-. exact Hr.
Qed.

Lemma cell_coordinates (i : nat) :
  (i < w * h)%nat -> exists x y, (x < w)%nat /\ (y < h)%nat /\ i = (y * w + x)%nat.
Proof.
  intros Hi. exists (i mod w)%nat, (i / w)%nat.
  pose proof (Nat.div_mod_eq i w) as E.
  pose proof (Nat.mod_upper_bound i w ltac:(lia)) as Hm.
  repeat split; [exact Hm| |lia].
  apply Nat.Div0.div_lt_upper_bound. lia.
Qed.

(** The transform returns; it keeps cells non-negative, and keeps at 1 or
    more the cells that started at 1 or more. *)
Lemma distanceTransform2D_lowered (d0 : list R) :
  bounded (INR (w + h)) (w * h) d0 ->
  exists d, distanceTransform2D d0 w h = Some d /\ length d = (w * h)%nat /\
    forall i v0, d0 !! i = Some v0 ->
      exists v, d !! i = Some v /\ 0 <= v /\ (1 <= v0 -> 1 <= v).
Proof.
  intros Hd0. unfold distanceTransform2D.
  destruct (horizontal_lowered _ w h d0 Hd0) as (g & -> & Hg). simpl.
  pose proof (lowered_bounded _ _ _ Hd0 Hg) as Hgb.
  destruct (vertical_total w h g w_pos h_pos Hgb) as (d & -> & Hld & Hpar).
  exists d. repeat split; [exact Hld|].
  intros i v0 Hv0.
  assert (Hi : (i < w * h)%nat).
  { destruct Hd0 as [Hl0 _]. rewrite <- Hl0. now apply lookup_lt_Some with v0. }
  destruct (cell_coordinates i Hi) as (x & y & Hx & Hy & ->).
  destruct (Hpar x y Hx Hy) as (u & gu & Hu & Hgu & Hd).
  exists (gu * gu + (INR y - INR u) * (INR y - INR u)).
  pose proof (Rle_0_sqr gu) as Hsq1. pose proof (Rle_0_sqr (INR y - INR u)) as Hsq2.
  unfold Rsqr in Hsq1, Hsq2.
  split; [exact Hd|]. split; [lra|].
  intros H1. destruct (decide (u = y)) as [->|Hne].
  - destruct Hg as [_ Hg]. destruct (Hg _ _ Hv0) as (gv & Hgv & Hr & Hone).
    rewrite Hgu in Hgv. injection Hgv as <-. specialize (Hone H1). nra.
  - assert (Hgap : INR u + 1 <= INR y \/ INR y + 1 <= INR u).
    { destruct (Nat.lt_ge_cases u y) as [Hlt|Hge]; [left|right];
        rewrite <- S_INR; apply le_INR; lia. }
    nra.
Qed.

Lemma initialise_spec (inside : list Z) :
  initialised w h inside (w * h) (initialise w h inside).
Proof.
  unfold initialise.
  apply (fold_left_seq_inv (initialised w h inside) (init_step inside) (w * h) 0).
  - unfold initialised. rewrite !length_replicate. repeat split; try lia;
      apply lookup_replicate_2; lia.
  - intros k [dO dI] Hk (HlO & HlI & Hdone & Hrest). unfold init_step, initialised.
    destruct (truthy (inside !! k)) eqn:Ht; rewrite ?length_insert;
      (split; [exact HlO|]; split; [exact HlI|]; split).
    + intros i Hi Hn. destruct (decide (i = k)) as [->|Hne].
      * rewrite Ht, list_lookup_insert_eq by lia. split; [reflexivity|].
        apply Hrest; lia.
      * rewrite list_lookup_insert_ne by auto. apply Hdone; lia.
    + intros i Hi Hn. rewrite list_lookup_insert_ne by lia. apply Hrest; lia.
    + intros i Hi Hn. destruct (decide (i = k)) as [->|Hne].
      * rewrite Ht, list_lookup_insert_eq by lia. split; [|reflexivity].
        apply Hrest; lia.
      * rewrite list_lookup_insert_ne by auto. apply Hdone; lia.
    + intros i Hi Hn. rewrite list_lookup_insert_ne by lia. apply Hrest; lia.
Qed.

Lemma initialise_bounded (inside : list Z) :
  bounded (INR (w + h)) (w * h) (fst (initialise w h inside)) /\
  bounded (INR (w + h)) (w * h) (snd (initialise w h inside)).
Proof.
  pose proof (initialise_spec inside) as H.
  destruct (initialise w h inside) as [dO dI]. destruct H as (HlO & HlI & Hdone & _).
  assert (HB : 0 <= INR (w + h)) by apply pos_INR.
  split; (split; [assumption|]); intros i v Hv; simpl in Hv.
  - assert (Hi : (i < w * h)%nat) by (rewrite <- HlO; now apply lookup_lt_Some with v).
    destruct (Hdone i Hi Hi) as [E _]. rewrite Hv in E. injection E as ->.
    destruct (truthy _); lra.
  - assert (Hi : (i < w * h)%nat) by (rewrite <- HlI; now apply lookup_lt_Some with v).
    destruct (Hdone i Hi Hi) as [_ E]. rewrite Hv in E. injection E as ->.
    destruct (truthy _); lra.
Qed.

End DistanceField.

Section SignedDistance.

Import SDF.
Local Open Scope R_scope.

Lemma combine_total (n : nat) (resolution : R) (inside : list Z)
  (distOutside distInside : list R) :
  length distOutside = n -> length distInside = n ->
  exists sdf,
    forM (seq 0 n) (combine_step resolution inside distOutside distInside) (replicate n 0)
    = Some sdf /\
    length sdf = n /\
    forall i, (i < n)%nat ->
      exists d, sdf !! i = Some d /\ signed resolution inside distOutside distInside i d.
Proof.
  intros HlO HlI.
  apply (forM_seq_inv
           (fun k sdf => length sdf = n /\
              forall i, (i < k)%nat ->
                exists d, sdf !! i = Some d /\
                  signed resolution inside distOutside distInside i d)
           _ n 0).
  - rewrite length_replicate. split; [reflexivity|]. intros i Hi. lia.
  - intros k sdf Hk [Hl Hdone]. unfold combine_step.
    destruct (lookup_lt_is_Some_2 distOutside k) as [dO HdO]; [lia|].
    destruct (lookup_lt_is_Some_2 distInside k) as [dI HdI]; [lia|].
    rewrite HdO. simpl. rewrite HdI. simpl.
    eexists. split; [reflexivity|]. rewrite length_insert. split; [exact Hl|].
    intros i Hi. destruct (decide (i = k)) as [->|Hne].
    + eexists. rewrite list_lookup_insert_eq by lia. split; [reflexivity|].
      exists dO, dI. auto.
    + rewrite list_lookup_insert_ne by auto. apply Hdone. lia.
Qed.

Lemma sqrt_ge_1 (v : R) : 1 <= v -> 1 <= sqrt v.
Proof. intros H. rewrite <- sqrt_1. now apply sqrt_le_1_alt. Qed.

(** [computeDistanceField] returns, and the sign of every cell tells inside
    from outside. *)
Lemma computeDistanceField_signed (w h : nat) (resolution : R) (inside : list Z) :
  (0 < w)%nat -> (0 < h)%nat -> 0 < resolution ->
  exists distOutside distInside sdf,
    distanceTransform2D (fst (initialise w h inside)) w h = Some distOutside /\
    distanceTransform2D (snd (initialise w h inside)) w h = Some distInside /\
    computeDistanceField w h resolution inside = Some sdf /\
    length sdf = (w * h)%nat /\
    forall i, (i < w * h)%nat ->
      exists d, sdf !! i = Some d /\
        signed resolution inside distOutside distInside i d /\
        (d < 0 <-> truthy (inside !! i) = true) /\
        (0 < d <-> truthy (inside !! i) = false).
Proof.
  intros Hw Hh Hres.
  destruct (initialise_bounded w h Hw Hh inside) as [HbO HbI].
  pose proof (initialise_spec w h Hw Hh inside) as Hinit.
  unfold computeDistanceField.
  destruct (initialise w h inside) as [dO0 dI0]. cbn [fst snd] in *.
  destruct Hinit as (_ & _ & Hinit & _).
  destruct (distanceTransform2D_lowered w h Hw Hh dO0 HbO) as (dO & HtO & HlO & HO).
  destruct (distanceTransform2D_lowered w h Hw Hh dI0 HbI) as (dI & HtI & HlI & HI).
  rewrite HtO. simpl. rewrite HtI. simpl.
  destruct (combine_total (w * h) resolution inside dO dI HlO HlI) as (sdf & -> & Hl & Hsdf).
  exists dO, dI, sdf. repeat split; try assumption.
  intros i Hi. destruct (Hsdf i Hi) as (d & Hd & Hsigned).
  exists d. split; [exact Hd|]. split; [exact Hsigned|].
  destruct Hsigned as (vO & vI & HvO & HvI & ->).
  destruct (Hinit i Hi Hi) as [HO0 HI0].
  assert (HINF : 1 <= INR (w + h)).
  { change 1 with (INR 1). apply le_INR. lia. }
  destruct (truthy (inside !! i)).
  - destruct (HI _ _ HI0) as (v & Hv & _ & Hone).
    rewrite HvI in Hv. injection Hv as <-.
    pose proof (sqrt_ge_1 vI (Hone HINF)).
    split; split; intros; try reflexivity; try discriminate; nra.
  - destruct (HO _ _ HO0) as (v & Hv & _ & Hone).
    rewrite HvO in Hv. injection Hv as <-.
    pose proof (sqrt_ge_1 vO (Hone HINF)).
    split; split; intros; try reflexivity; try discriminate; nra.
Qed.

End SignedDistance.

(** ** The distance field of the example is the one built from its mask *)

Section ExampleField.

Import SDF.
Local Open Scope R_scope.

Lemma ceil_eq (r : R) (z : Z) : IZR z - 1 < r <= IZR z -> ceil r = z.
Proof.
  intros H. unfold ceil. rewrite (Int_part_eq (- r) (- z)); [lia|].
  rewrite opp_IZR. lra.
Qed.

Lemma cell_inside (g : list num) (i : Z) :
  (0 <= i)%Z -> cell g i = default NaN (g !! Z.to_nat i).
Proof. intros H. unfold cell. destruct (Z.ltb_spec i 0); [lia|reflexivity]. Qed.

Lemma half_plane_distances :
  computeDistanceField 2 2 4 Example.half_mask = Some [-4; 4; -4; 4].
Proof.
  unfold computeDistanceField, initialise, distanceTransform2D, horizontal, scan_row,
    vertical.
  run_reals.
  replace ((0 + 1) * (0 + 1) + (0 - 0) * (0 - 0)) with 1 by lra.
  replace ((0 + 1) * (0 + 1) + (1 - 1) * (1 - 1)) with 1 by lra.
  rewrite sqrt_1. repeat f_equal; lra.
Qed.

(** [fromSVG] on an 8 x 8 canvas, at resolution 4, with the left half of
    the canvas inside the shape. *)
Lemma half_plane_from_mask :
  fromMask (SDF.new 4) 8 8 Example.half_mask = Some Example.half_plane.
Proof.
  unfold fromMask. cbn [resolution SDF.new].
  rewrite (ceil_eq (8 / 4) 2) by (simpl; lra).
  change (Z.to_nat 2) with 2%nat.
  rewrite half_plane_distances. cbn [mbind option_bind].
  unfold computeGradients, gradient_cell, Example.half_plane. cbn [flat_map map seq app].
  repeat match goal with
         | |- context [cell ?g ?i] =>
             progress (let i' := eval vm_compute in i in change (cell g i) with (cell g i'))
         | |- context [IZR ?z] =>
             progress (let z' := eval vm_compute in z in change (IZR z) with (IZR z'))
         end.
  rewrite !cell_inside by lia.
  repeat match goal with
         | |- context [Z.to_nat ?i] =>
             let n := eval vm_compute in (Z.to_nat i) in change (Z.to_nat i) with n
         end.
  cbn. unfold_tests. run_reals.
  repeat f_equal; lra.
Qed.

End ExampleField.

(** ** The distance fields that [fromSVG] builds are well formed *)

Section BuiltFields.

Import SDF.
Local Open Scope R_scope.

Lemma gradient_cell_finite (g : list num) (w h : nat) (resolution : R) (x y : nat) :
  length g = (w * h)%nat -> Forall is_finite g ->
  (2 <= w)%nat -> (2 <= h)%nat -> 0 < resolution -> (x < w)%nat -> (y < h)%nat ->
  exists a b,
    gradient_cell g (Z.of_nat w) (Z.of_nat h) resolution (Z.of_nat x) (Z.of_nat y)
    = (Fin a, Fin b).
Proof.
  intros Hlen Hfin Hw Hh Hres Hx Hy. unfold gradient_cell.
  set (x0 := Z.max 0 (Z.of_nat x - 1)). set (x1 := Z.min (Z.of_nat w - 1) (Z.of_nat x + 1)).
  set (y0 := Z.max 0 (Z.of_nat y - 1)). set (y1 := Z.min (Z.of_nat h - 1) (Z.of_nat y + 1)).
  assert (Hx01 : (0 <= x0 < x1 /\ x1 < Z.of_nat w)%Z) by (unfold x0, x1; lia).
  assert (Hy01 : (0 <= y0 < y1 /\ y1 < Z.of_nat h)%Z) by (unfold y0, y1; lia).
  destruct (cell_finite g _ (Z.of_nat y * Z.of_nat w + x1) Hlen Hfin) as [a1 ->]; [nia|].
  destruct (cell_finite g _ (Z.of_nat y * Z.of_nat w + x0) Hlen Hfin) as [a0 ->]; [nia|].
  destruct (cell_finite g _ (y1 * Z.of_nat w + Z.of_nat x) Hlen Hfin) as [b1 ->]; [nia|].
  destruct (cell_finite g _ (y0 * Z.of_nat w + Z.of_nat x) Hlen Hfin) as [b0 ->]; [nia|].
  cbn [nsub nneg nadd].
  assert (Hdx : 1 <= IZR (x1 - x0)) by (apply IZR_le; lia).
  assert (Hdy : 1 <= IZR (y1 - y0)) by (apply IZR_le; lia).
  rewrite !ndiv_fin by nra. eauto.
Qed.

Lemma computeGradients_ok (g : list num) (w h : nat) (resolution : R) :
  length g = (w * h)%nat -> Forall is_finite g ->
  (2 <= w)%nat -> (2 <= h)%nat -> 0 < resolution ->
  let '(gX, gY) := computeGradients g w h resolution in
  (length gX = (w * h)%nat /\ Forall is_finite gX) /\
  (length gY = (w * h)%nat /\ Forall is_finite gY).
Proof.
  intros Hlen Hfin Hw Hh Hres. unfold computeGradients.
  set (cells := flat_map _ _).
  assert (Hcells : length cells = (w * h)%nat /\
                   Forall (fun c => is_finite (fst c) /\ is_finite (snd c)) cells).
  { unfold cells. split.
    - rewrite (flat_map_constant_length (c := w)), length_seq; [lia|].
      intros y _. now rewrite length_map, length_seq.
    - apply Forall_forall. intros c Hc.
      apply list_elem_of_In, in_flat_map in Hc. destruct Hc as (y & Hy & Hc).
      apply in_map_iff in Hc. destruct Hc as (x & <- & Hx).
      apply in_seq in Hy, Hx.
      destruct (gradient_cell_finite g w h resolution x y) as (a & b & ->);
        try assumption; try lia.
      simpl. auto. }
  destruct Hcells as [Hl Hf].
  rewrite !length_map. repeat split; try exact Hl.
  - apply Forall_fmap. eapply Forall_impl; [exact Hf|]. intros c [Hc _]. exact Hc.
  - apply Forall_fmap. eapply Forall_impl; [exact Hf|]. intros c [_ Hc]. exact Hc.
Qed.

(** In [fromSVG] a positive canvas width gives a positive grid width only
    at a positive resolution. *)
Lemma positive_grid_resolution (canvasWidth res : R) :
  0 < canvasWidth -> (0 < ceil (canvasWidth / res))%Z -> 0 < res.
Proof.
  intros Hc Hw. destruct (Rlt_dec 0 res) as [|Hres]; [assumption|exfalso].
  assert (Hq : canvasWidth / res <= 0).
  { destruct (Req_dec_T res 0) as [->|Hne].
    - unfold Rdiv. rewrite Rinv_0. lra.
    - assert (Hneg : res < 0) by lra.
      apply Rinv_lt_0_compat in Hneg. unfold Rdiv. nra. }
  unfold ceil in Hw.
  destruct (base_Int_part (- (canvasWidth / res))) as [Hlo Hhi].
  assert (H : -1 < IZR (Int_part (- (canvasWidth / res)))) by lra.
  apply lt_IZR in H. lia.
Qed.

(** On a grid of at least 2 x 2 cells, at a positive resolution, [fromSVG]
    leaves a loaded and well-formed distance field, whatever the mask. *)
Lemma fromMask_well_formed (s0 : t) (canvasWidth canvasHeight : R) (inside : list Z) :
  0 < resolution s0 ->
  (2 <= ceil (canvasWidth / resolution s0))%Z ->
  (2 <= ceil (canvasHeight / resolution s0))%Z ->
  exists s, fromMask s0 canvasWidth canvasHeight inside = Some s /\
    loaded s = true /\ well_formed s.
Proof.
  intros Hres Hw Hh. unfold fromMask.
  set (w := ceil (canvasWidth / resolution s0)) in *.
  set (h := ceil (canvasHeight / resolution s0)) in *.
  destruct (Z.leb_spec w 0) as [|_]; [lia|].
  destruct (Z.leb_spec h 0) as [|_]; [lia|]. cbn [orb].
  destruct (computeDistanceField_signed (Z.to_nat w) (Z.to_nat h) (resolution s0) inside)
    as (_ & _ & sdf & _ & _ & -> & Hlen & _); [lia|lia|exact Hres|].
  cbn [mbind option_bind].
  assert (Hg : length (map Fin sdf) = (Z.to_nat w * Z.to_nat h)%nat
               /\ Forall is_finite (map Fin sdf)).
  { rewrite length_map. split; [exact Hlen|].
    apply Forall_fmap, Forall_forall. intros v _. exact I. }
  destruct Hg as [Hgl Hgf].
  pose proof (computeGradients_ok (map Fin sdf) (Z.to_nat w) (Z.to_nat h) (resolution s0)
                Hgl Hgf ltac:(lia) ltac:(lia) Hres) as HG.
  destruct (computeGradients (map Fin sdf) (Z.to_nat w) (Z.to_nat h) (resolution s0))
    as [gX gY].
  destruct HG as [[HlX HfX] [HlY HfY]].
  eexists. split; [reflexivity|]. split; [reflexivity|].
  unfold well_formed, grid_ok. cbn [grid gradientX gradientY gridWidth gridHeight].
  rewrite Z2Nat.inj_mul by lia. auto.
Qed.

End BuiltFields.

(** ** Particles stay on the canvas *)

Section ParticleInvariants.

Import Particle.
Local Open Scope R_scope.

Lemma getVector_finite (ff : FlowField.t) (x0 y0 : R) :
  (forall s, FlowField.sdf ff = Some s -> SDF.loaded s = true -> SDF.well_formed s) ->
  exists vx vy, FlowField.getVector ff x0 y0 = Vector.mk (Fin vx) (Fin vy).
Proof.
  intros Hwf.
  destruct (blended_finite ff x0 y0 Hwf) as (bx & by' & Hb).
  destruct (normalized_cases bx by') as (rx & ry & Hn & _).
  exists rx, ry. unfold FlowField.getVector. now rewrite Hb.
Qed.

Lemma advance_in_bounds (vx vy : R) (p : t) :
  0 <= width p -> 0 <= height p ->
  0 <= x (advance vx vy p) <= width p /\ 0 <= y (advance vx vy p) <= height p.
Proof.
  intros Hw Hh. unfold advance. cbn [x y].
  split.
  - destruct (Rlt_dec (x p + vx * speed p) 0);
      destruct (Rlt_dec (width p) _); lra.
  - destruct (Rlt_dec (y p + vy * speed p) 0);
      destruct (Rlt_dec (height p) _); lra.
Qed.

Lemma advance_short_segment (vx vy : R) (p : t) :
  0 <= width p -> 0 <= height p ->
  Rabs (x (advance vx vy p) - prevX (advance vx vy p)) <= width p / 2 /\
  Rabs (y (advance vx vy p) - prevY (advance vx vy p)) <= height p / 2.
Proof.
  intros Hw Hh. unfold advance. cbn [x y prevX prevY].
  split.
  - match goal with |- context [Rlt_dec (width p / 2) ?a] =>
      destruct (Rlt_dec (width p / 2) a) as [Hf|Hn] end.
    + rewrite Rminus_diag, Rabs_R0. lra.
    + lra.
  - match goal with |- context [Rlt_dec (height p / 2) ?a] =>
      destruct (Rlt_dec (height p / 2) a) as [Hf|Hn] end.
    + rewrite Rminus_diag, Rabs_R0. lra.
    + lra.
Qed.

(** X1: after [update] the particle is on the canvas, wherever it was before
    and whatever its speed: [0 <= x <= width] and [0 <= y <= height]; the
    bounds and the speeds are unchanged. *)
Theorem update_in_bounds (ff : FlowField.t) (p : t) :
  (forall s, FlowField.sdf ff = Some s -> SDF.loaded s = true -> SDF.well_formed s) ->
  0 <= width p -> 0 <= height p ->
  exists p', update ff p = Some p' /\
    0 <= x p' <= width p' /\ 0 <= y p' <= height p' /\
    width p' = width p /\ height p' = height p /\
    speed p' = speed p /\ baseSpeed p' = baseSpeed p.
Proof.
  intros Hwf Hw Hh.
  destruct (getVector_finite ff (x p) (y p) Hwf) as (vx & vy & Hv).
  exists (advance vx vy p). split; [now apply update_finite|].
  destruct (advance_in_bounds vx vy p Hw Hh) as [Hx Hy].
  repeat split; try reflexivity; try apply Hx; apply Hy.
Qed.

Lemma update_in_bounds_witness :
  exists p', update Example.field (Example.particle (-100)) = Some p' /\
    0 <= x p' <= width p' /\ 0 <= y p' <= height p' /\
    width p' = width (Example.particle (-100)) /\
    height p' = height (Example.particle (-100)) /\
    speed p' = speed (Example.particle (-100)) /\
    baseSpeed p' = baseSpeed (Example.particle (-100)).
Proof.
  apply (update_in_bounds Example.field (Example.particle (-100))).
  - intros s Hs. discriminate Hs.
  - simpl. lra.
  - simpl. lra.
Defined.

(** X2: after [update] the segment from [(prevX, prevY)] to [(x, y)], the one
    that [draw] strokes, spans at most half the canvas in each direction. *)
Theorem update_short_segment (ff : FlowField.t) (p : t) :
  (forall s, FlowField.sdf ff = Some s -> SDF.loaded s = true -> SDF.well_formed s) ->
  0 <= width p -> 0 <= height p ->
  exists p', update ff p = Some p' /\
    Rabs (x p' - prevX p') <= width p / 2 /\
    Rabs (y p' - prevY p') <= height p / 2.
Proof.
  intros Hwf Hw Hh.
  destruct (getVector_finite ff (x p) (y p) Hwf) as (vx & vy & Hv).
  exists (advance vx vy p). split; [now apply update_finite|].
  now apply advance_short_segment.
Qed.

Lemma update_short_segment_witness :
  exists p', update Example.deflected (Example.particle (-100)) = Some p' /\
    Rabs (x p' - prevX p') <= width (Example.particle (-100)) / 2 /\
    Rabs (y p' - prevY p') <= height (Example.particle (-100)) / 2.
Proof.
  apply (update_short_segment Example.deflected (Example.particle (-100))).
  - intros s Hs _. simpl in Hs. injection Hs as <-. exact half_plane_well_formed.
  - simpl. lra.
  - simpl. lra.
Defined.

End ParticleInvariants.

Section PlainFlow.

Import FlowField.
Local Open Scope R_scope.

Lemma normalized_unit (a b : R) :
  a * a + b * b = 1 -> normalized (Fin a, Fin b) = Vector.mk (Fin a) (Fin b).
Proof.
  intros H. unfold normalized. rewrite nsqrt_sumsq, H, sqrt_1. cbn [ngtb nltb].
  rewrite Rltb_true by lra. rewrite !ndiv_fin by lra.
  f_equal; f_equal; field.
Qed.

Lemma cos_sin_unit (a : R) : cos a * cos a + sin a * sin a = 1.
Proof. pose proof (sin2_cos2 a) as H. unfold Rsqr in H. lra. Qed.

Lemma blended_plain (ff : t) (x y : R) :
  (forall s, sdf ff = Some s -> SDF.loaded s = false) ->
  blended ff x y = (Fin (cos (getAngle ff x y)), Fin (sin (getAngle ff x y))).
Proof.
  intros H. unfold blended. destruct (sdf ff) as [s|]; [|reflexivity].
  unfold SDF.isLoaded. now rewrite (H s eq_refl).
Qed.

Lemma getVector_plain (ff : t) (x y : R) :
  (forall s, sdf ff = Some s -> SDF.loaded s = false) ->
  getVector ff x y = Earlier.getVector ff x y.
Proof.
  intros H. unfold getVector. rewrite blended_plain by exact H.
  apply normalized_unit, cos_sin_unit.
Qed.

(** X3: without a distance field, or with one that is not loaded, [getVector]
    returns the direction of the angle, [(cos angle, sin angle)], which is
    what [getVector] of the earlier flow field returns; its magnitude is 1. *)
Theorem getVector_without_sdf (ff : t) (x y : R) :
  (forall s, sdf ff = Some s -> SDF.loaded s = false) ->
  getVector ff x y = Earlier.getVector ff x y /\
  getVector ff x y = Vector.mk (Fin (cos (getAngle ff x y))) (Fin (sin (getAngle ff x y))) /\
  cos (getAngle ff x y) * cos (getAngle ff x y)
    + sin (getAngle ff x y) * sin (getAngle ff x y) = 1.
Proof.
  intros H. rewrite getVector_plain by exact H.
  split; [reflexivity|]. split; [reflexivity|]. apply cos_sin_unit.
Qed.

Lemma getVector_without_sdf_witness :
  getVector (setSDF (Some (SDF.new 4)) Example.field) 3 5
    = Earlier.getVector (setSDF (Some (SDF.new 4)) Example.field) 3 5 /\
  getVector (setSDF (Some (SDF.new 4)) Example.field) 3 5
    = Vector.mk (Fin (cos (getAngle (setSDF (Some (SDF.new 4)) Example.field) 3 5)))
                (Fin (sin (getAngle (setSDF (Some (SDF.new 4)) Example.field) 3 5))) /\
  cos (getAngle (setSDF (Some (SDF.new 4)) Example.field) 3 5)
    * cos (getAngle (setSDF (Some (SDF.new 4)) Example.field) 3 5)
  + sin (getAngle (setSDF (Some (SDF.new 4)) Example.field) 3 5)
    * sin (getAngle (setSDF (Some (SDF.new 4)) Example.field) 3 5) = 1.
Proof.
  apply (getVector_without_sdf (setSDF (Some (SDF.new 4)) Example.field) 3 5).
  intros s Hs. simpl in Hs. injection Hs as <-. reflexivity.
Defined.

(** X4: a field whose distance field was cleared flows as a field without one. *)
Theorem cleared_sdf_has_no_influence (ff : t) (s : SDF.t) (x y : R) :
  SDF.isLoaded (SDF.clear s) = false /\
  SDF.getDistance (SDF.clear s) x y = PInf /\
  SDF.getGradient (SDF.clear s) x y = Vector.mk (Fin 0) (Fin 0) /\
  getVector (setSDF (Some (SDF.clear s)) ff) x y = getVector (setSDF None ff) x y.
Proof.
  split; [reflexivity|]. split; [reflexivity|]. split; [reflexivity|].
  rewrite !getVector_plain.
  - reflexivity.
  - intros s' Hs'. discriminate Hs'.
  - intros s' Hs'. simpl in Hs'. injection Hs' as <-. reflexivity.
Qed.

End PlainFlow.

Section StepLength.

Import Particle.
Local Open Scope R_scope.

(** X5: in a field without a loaded distance field a particle that does not
    leave the canvas moves by [speed] in the direction of the angle: the
    length of the step is the absolute value of the speed. *)
Theorem update_step_length (ff : FlowField.t) (p : t) :
  (forall s, FlowField.sdf ff = Some s -> SDF.loaded s = false) ->
  let angle := FlowField.getAngle ff (x p) (y p) in
  0 <= x p + cos angle * speed p <= width p ->
  0 <= y p + sin angle * speed p <= height p ->
  exists p', update ff p = Some p' /\
    x p' = x p + cos angle * speed p /\
    y p' = y p + sin angle * speed p /\
    sqrt ((x p' - x p) * (x p' - x p) + (y p' - y p) * (y p' - y p)) = Rabs (speed p).
Proof.
  intros Hs angle Hx Hy.
  pose proof (getVector_plain ff (x p) (y p) Hs) as Hv. unfold Earlier.getVector in Hv.
  fold angle in Hv.
  exists (advance (cos angle) (sin angle) p). split; [now apply update_finite|].
  assert (Ex : x (advance (cos angle) (sin angle) p) = x p + cos angle * speed p).
  { unfold advance. cbn [x].
    destruct (Rlt_dec (x p + cos angle * speed p) 0); [lra|].
    destruct (Rlt_dec (width p) _); [lra|reflexivity]. }
  assert (Ey : y (advance (cos angle) (sin angle) p) = y p + sin angle * speed p).
  { unfold advance. cbn [y].
    destruct (Rlt_dec (y p + sin angle * speed p) 0); [lra|].
    destruct (Rlt_dec (height p) _); [lra|reflexivity]. }
  rewrite Ex, Ey. repeat split.
  pose proof (cos_sin_unit angle) as Hu.
  replace (_ + _) with (speed p * speed p) by nra.
  apply sqrt_Rsqr_abs.
Qed.

Lemma update_step_length_witness :
  exists p', update Example.field (Example.particle (-1)) = Some p' /\
    x p' = x (Example.particle (-1))
           + cos (FlowField.getAngle Example.field (x (Example.particle (-1)))
                    (y (Example.particle (-1)))) * speed (Example.particle (-1)) /\
    y p' = y (Example.particle (-1))
           + sin (FlowField.getAngle Example.field (x (Example.particle (-1)))
                    (y (Example.particle (-1)))) * speed (Example.particle (-1)) /\
    sqrt ((x p' - x (Example.particle (-1))) * (x p' - x (Example.particle (-1)))
          + (y p' - y (Example.particle (-1))) * (y p' - y (Example.particle (-1))))
    = Rabs (speed (Example.particle (-1))).
Proof.
  apply (update_step_length Example.field (Example.particle (-1))).
  - intros s Hs. discriminate Hs.
  - cbn [x y speed width Example.particle]. rewrite example_angle, cos_PI. lra.
  - cbn [x y speed height Example.particle]. rewrite example_angle, sin_PI.
    pose proof example_spot_y_range. lra.
Defined.

End StepLength.

Section Tunables.

Import FlowField.
Local Open Scope R_scope.

Lemma setSDFStrength_range (s : R) (ff : t) : 0 <= sdfStrength (setSDFStrength s ff) <= 2.
Proof.
  cbn [sdfStrength setSDFStrength]. unfold Rmax, Rmin.
  destruct (Rle_dec 2 s); destruct (Rle_dec 0 _); lra.
Qed.

Lemma setSDFFalloff_range (f : R) (ff : t) : 1 <= sdfFalloff (setSDFFalloff f ff).
Proof. cbn [sdfFalloff setSDFFalloff]. apply Rmax_l. Qed.

Lemma apply_tunables (ff : t) (o : op) :
  0 <= sdfStrength ff <= 2 /\ 1 <= sdfFalloff ff ->
  0 <= sdfStrength (apply ff o) <= 2 /\ 1 <= sdfFalloff (apply ff o).
Proof.
  intros [Hs Hf]. destruct o; cbn [apply]; try (split; assumption).
  - split; [apply setSDFStrength_range|exact Hf].
  - split; [exact Hs|apply setSDFFalloff_range].
Qed.

Lemma run_tunables (ops : list op) (ff : t) :
  0 <= sdfStrength ff <= 2 /\ 1 <= sdfFalloff ff ->
  0 <= sdfStrength (run ops ff) <= 2 /\ 1 <= sdfFalloff (run ops ff).
Proof.
  revert ff. induction ops as [|o ops IH]; intros ff H; [exact H|].
  apply IH, apply_tunables, H.
Qed.

(** X6: the strength of the distance field is clamped to [0, 2] and its falloff
    is at least 1: [setSDFStrength] and [setSDFFalloff] store the nearest
    value of the range, and in every state reached from the constructor the
    strength is in [0, 2] and the falloff at least 1. *)
Theorem sdf_tunables_clamped :
  (forall (s : R) (ff : t),
      sdfStrength (setSDFStrength s ff) = (if Rlt_dec s 0 then 0 else if Rlt_dec 2 s then 2 else s)) /\
  (forall (f : R) (ff : t),
      sdfFalloff (setSDFFalloff f ff) = (if Rlt_dec f 1 then 1 else f)) /\
  (forall (scale : R) (seed : option Z) (fresh : SimplexNoise.t) (ops : list op),
      0 <= sdfStrength (run ops (new scale seed fresh)) <= 2 /\
      1 <= sdfFalloff (run ops (new scale seed fresh))).
Proof.
  split; [|split].
  - intros s ff. cbn [sdfStrength setSDFStrength]. unfold Rmax, Rmin.
    destruct (Rle_dec 2 s); destruct (Rle_dec 0 _); destruct (Rlt_dec s 0);
      destruct (Rlt_dec 2 s); lra.
  - intros f ff. cbn [sdfFalloff setSDFFalloff]. unfold Rmax.
    destruct (Rle_dec 1 f); destruct (Rlt_dec f 1); lra.
  - intros scale seed fresh ops. apply run_tunables. simpl. lra.
Qed.

End Tunables.

Section OutsideTheShape.

Import SDF.
Local Open Scope R_scope.

(** A gradient read inside the grid is [(0, 0)] or a unit vector. *)
Lemma getGradient_inside (s : t) (x y : R) :
  loaded s = true -> well_formed s ->
  (0 <= Int_part (x / resolution s) < gridWidth s)%Z ->
  (0 <= Int_part (y / resolution s) < gridHeight s)%Z ->
  getGradient s x y = Vector.mk (Fin 0) (Fin 0) \/
  exists u v, getGradient s x y = Vector.mk (Fin u) (Fin v) /\ u * u + v * v = 1.
Proof.
  intros Hl (_ & HgX & HgY) Hx Hy.
  destruct (sampleBilinear_inside s (gradientX s) _ _ HgX Hx Hy) as [a Ha].
  destruct (sampleBilinear_inside s (gradientY s) _ _ HgY Hx Hy) as [b Hb].
  unfold getGradient. rewrite Hl. cbn [negb].
  rewrite Ha, Hb, nsqrt_sumsq. cbn [nltb].
  set (len := sqrt (a * a + b * b)).
  assert (Hlen : len * len = a * a + b * b) by (apply sqrt_sqrt; nra).
  destruct (Rlt_dec len 0.0001) as [Hsmall|Hbig].
  - rewrite Rltb_true by exact Hsmall. now left.
  - rewrite Rltb_false by lra. rewrite !ndiv_fin by lra. right.
    exists (a / len), (b / len). split; [reflexivity|].
    field_simplify_eq; lra.
Qed.

Lemma blend_length (bx by' u v i : R) :
  bx * bx + by' * by' = 1 -> u * u + v * v = 1 -> 0 <= i <= 2 ->
  0 <= bx * u + by' * v ->
  1 / 2 <= (bx * (1 - i) + u * i) * (bx * (1 - i) + u * i)
           + (by' * (1 - i) + v * i) * (by' * (1 - i) + v * i).
Proof.
  intros Hb Hg [Hi0 Hi2] Hc.
  pose proof (Rle_0_sqr (bx - u)) as H1. pose proof (Rle_0_sqr (by' - v)) as H2.
  unfold Rsqr in H1, H2.
  assert (Hc1 : bx * u + by' * v <= 1) by lra.
  replace ((bx * (1 - i) + u * i) * (bx * (1 - i) + u * i)
              + (by' * (1 - i) + v * i) * (by' * (1 - i) + v * i))
    with ((1 - i) * (1 - i) * (bx * bx + by' * by') + i * i * (u * u + v * v)
                + 2 * i * (1 - i) * (bx * u + by' * v)) by ring.
  rewrite Hb, Hg.
  generalize dependent (bx * u + by' * v). intros c Hc Hc1.
  destruct (Rle_dec i 1) as [Hle|Hgt].
  - assert (0 <= i * (1 - i)) by (apply Rmult_le_pos; lra).
    assert (0 <= i * (1 - i) * c) by (apply Rmult_le_pos; lra). 
    assert (0 <= (2 * i - 1) * (2 * i - 1)) by apply Rle_0_sqr. lra.
  - assert (0 <= i * (i - 1)) by (apply Rmult_le_pos; lra).
    assert (0 <= i * (i - 1) * (1 - c)) by (apply Rmult_le_pos; lra). lra.
Qed.

Lemma blend_length_weak (bx by' u v i : R) :
  bx * bx + by' * by' = 1 -> u * u + v * v = 1 -> 0 <= i <= 0.4999 ->
  0.0002 * 0.0002 <= (bx * (1 - i) + u * i) * (bx * (1 - i) + u * i)
                     + (by' * (1 - i) + v * i) * (by' * (1 - i) + v * i).
Proof.
  intros Hb Hg [Hi0 Hi2].
  pose proof (Rle_0_sqr (bx + u)) as H1. pose proof (Rle_0_sqr (by' + v)) as H2.
  unfold Rsqr in H1, H2.
  assert (Hc1 : -1 <= bx * u + by' * v) by lra.
  replace ((bx * (1 - i) + u * i) * (bx * (1 - i) + u * i)
              + (by' * (1 - i) + v * i) * (by' * (1 - i) + v * i))
    with ((1 - i) * (1 - i) * (bx * bx + by' * by') + i * i * (u * u + v * v)
                + 2 * i * (1 - i) * (bx * u + by' * v)) by ring.
  rewrite Hb, Hg.
  generalize dependent (bx * u + by' * v). intros c Hc1.
  assert (0 <= i * (1 - i)) by (apply Rmult_le_pos; lra).
  assert (0 <= i * (1 - i) * (c + 1)) by (apply Rmult_le_pos; lra).
  assert (0.0002 * 0.0002 <= (1 - 2 * i) * (1 - 2 * i)) by nra.
  lra.
Qed.

(** The blended vector is [b * (1 - i) + T * i] for the unit vector [b] of
    the angle, a unit vector [T] and an influence [i] between 0 and the
    strength ([i = 0] when nothing is blended); where the distance is not
    negative, [T] does not point against [b]. *)
Lemma blended_form (ff : FlowField.t) (x y : R) :
  (forall s, FlowField.sdf ff = Some s -> loaded s = true -> well_formed s) ->
  0 <= FlowField.sdfStrength ff ->
  exists bx by' u v i,
    FlowField.blended ff x y
    = (Fin (bx * (1 - i) + u * i), Fin (by' * (1 - i) + v * i)) /\
    bx * bx + by' * by' = 1 /\ u * u + v * v = 1 /\
    0 <= i <= FlowField.sdfStrength ff /\
    ((forall s, FlowField.sdf ff = Some s -> nltb (getDistance s x y) (Fin 0) = false) ->
     0 <= bx * u + by' * v).
Proof.
  intros Hwf Hstr. unfold FlowField.blended.
  set (angle := FlowField.getAngle ff x y).
  pose proof (cos_sin_unit angle) as Hunit.
  assert (Hbase : exists bx by' u v i,
            (Fin (cos angle), Fin (sin angle))
            = (Fin (bx * (1 - i) + u * i), Fin (by' * (1 - i) + v * i)) /\
            bx * bx + by' * by' = 1 /\ u * u + v * v = 1 /\
            0 <= i <= FlowField.sdfStrength ff /\
            ((forall s, FlowField.sdf ff = Some s ->
                nltb (getDistance s x y) (Fin 0) = false) ->
             0 <= bx * u + by' * v)).
  { exists (cos angle), (sin angle), (cos angle), (sin angle), 0.
    split; [f_equal; f_equal; ring|]. repeat split; try assumption; lra. }
  destruct (FlowField.sdf ff) as [s|] eqn:Hs; [|exact Hbase].
  unfold isLoaded. destruct (loaded s) eqn:Hl; [|exact Hbase].
  destruct (Hwf s eq_refl Hl) as (Hg & HgX & HgY).
  destruct (outside_dec s (x / resolution s) (y / resolution s)) as [Hout|[Hx Hy]].
  { destruct (getDistance_outside s x y Hl Hout) as [-> | ->]; simpl; exact Hbase. }
  destruct (sampleBilinear_inside s (grid s) _ _ Hg Hx Hy) as [d Hd].
  assert (Hdist : getDistance s x y = Fin d) by (unfold getDistance; now rewrite Hl).
  rewrite Hdist.
  destruct (getGradient_inside s x y Hl (conj Hg (conj HgX HgY)) Hx Hy)
    as [-> | (u & v & -> & Huv)].
  { cbn [Vector.x Vector.y nneqb]. unfold Reqb.
    destruct (Req_dec_T 0 0) as [_|H0]; [|lra]. cbn [negb orb].
    rewrite andb_false_r. exact Hbase. }
  cbn [nabs nltb Vector.x Vector.y].
  destruct (Rlt_dec (Rabs d) (FlowField.sdfFalloff ff)) as [Hlt|Hge];
    [rewrite Rltb_true by exact Hlt|rewrite Rltb_false by lra; exact Hbase].
  destruct (nneqb (Fin u) (Fin 0) || nneqb (Fin v) (Fin 0)); [|exact Hbase].
  cbn [andb].
  pose proof (Rabs_pos d) as Hd0.
  set (F := FlowField.sdfFalloff ff) in *.
  rewrite ndiv_fin by lra. cbn [nmul nsub nadd nneg].
  set (t := Rabs d / F).
  assert (Ht : 0 <= t < 1).
  { unfold t. split.
    - apply Rmult_le_pos; [exact Hd0|]. left. apply Rinv_0_lt_compat. lra.
    - apply Rmult_lt_reg_r with F; [lra|]. unfold Rdiv. rewrite Rmult_assoc, Rinv_l by lra. lra. }
  set (i := (1 + - (t * t)) * FlowField.sdfStrength ff).
  assert (Hi : 0 <= i <= FlowField.sdfStrength ff).
  { assert (0 <= t * t) by nra. assert (t * t < 1) by nra. unfold i. split; nra. }
  unfold FlowField.tangent. cbn [nltb Vector.x Vector.y nneg nmul nadd ngeb].
  destruct (Rlt_dec d 0) as [Hneg|Hpos];
    [rewrite Rltb_true by exact Hneg|rewrite Rltb_false by lra].
  - cbn [nmul nadd nsub nneg].
    exists (cos angle), (sin angle), u, v, i.
    split; [f_equal; f_equal; ring|]. repeat split; try assumption; try lra.
    intros H. specialize (H s eq_refl). rewrite Hdist in H. cbn [nltb] in H.
    rewrite Rltb_true in H by exact Hneg. discriminate H.
  - destruct (Rle_dec 0 (cos angle * - v + sin angle * u)) as [Hdot|Hdot].
    + rewrite Rleb_true by exact Hdot. cbn [nmul nadd nsub nneg].
      exists (cos angle), (sin angle), (- v), u, i.
      split; [f_equal; f_equal; ring|]. repeat split; try assumption; try lra; try nra.
    + rewrite Rleb_false by lra. cbn [nmul nadd nsub nneg].
      exists (cos angle), (sin angle), v, (- u), i.
      split; [f_equal; f_equal; ring|]. repeat split; try assumption; try lra; try nra.
Qed.

Lemma normalized_long (bx by' : R) :
  0.0002 * 0.0002 <= bx * bx + by' * by' ->
  exists rx ry,
    FlowField.normalized (Fin bx, Fin by') = Vector.mk (Fin rx) (Fin ry) /\
    rx * rx + ry * ry = 1.
Proof.
  intros Hlen.
  destruct (normalized_cases bx by') as (rx & ry & Hn & Hcases).
  exists rx, ry. split; [exact Hn|].
  assert (Hbig : 0.0001 < sqrt (bx * bx + by' * by')).
  { apply Rlt_le_trans with (sqrt (0.0002 * 0.0002)).
    - rewrite sqrt_square; lra.
    - apply sqrt_le_1_alt. lra. }
  destruct Hcases as [[_ Hone]|[Hsmall _]]; [|lra].
  assert (Hnn : 0 <= rx * rx + ry * ry) by nra.
  rewrite <- (sqrt_sqrt _ Hnn), Hone. ring.
Qed.

(** X7: outside the shape, and on its boundary, the flow vector is a unit
    vector: where the distance is not negative the blend of the flow with
    the tangent has length at least [sqrt (1/2)], so the final normalisation
    always divides.  The strength is in [0, 2], as [setSDFStrength] leaves
    it. *)
Theorem getVector_unit_outside_shape (ff : FlowField.t) (x y : R) :
  (forall s, FlowField.sdf ff = Some s -> loaded s = true -> well_formed s) ->
  0 <= FlowField.sdfStrength ff <= 2 ->
  (forall s, FlowField.sdf ff = Some s -> nltb (getDistance s x y) (Fin 0) = false) ->
  exists rx ry,
    FlowField.getVector ff x y = Vector.mk (Fin rx) (Fin ry) /\ rx * rx + ry * ry = 1.
Proof.
  intros Hwf [Hs0 Hs2] Hpos.
  destruct (blended_form ff x y Hwf Hs0) as (bx & by' & u & v & i & Hb & Hbu & Huv & Hi & Hc).
  unfold FlowField.getVector. rewrite Hb. apply normalized_long.
  pose proof (blend_length bx by' u v i Hbu Huv ltac:(lra) (Hc Hpos)). lra.
Qed.

(** X8: with a strength of at most 0.4999 the flow vector is a unit vector at
    every position, inside the shape too: the blend has length at least
    [1 - 2 * strength]. *)
Theorem getVector_unit_weak_field (ff : FlowField.t) (x y : R) :
  (forall s, FlowField.sdf ff = Some s -> loaded s = true -> well_formed s) ->
  0 <= FlowField.sdfStrength ff <= 0.4999 ->
  exists rx ry,
    FlowField.getVector ff x y = Vector.mk (Fin rx) (Fin ry) /\ rx * rx + ry * ry = 1.
Proof.
  intros Hwf [Hs0 Hs2].
  destruct (blended_form ff x y Hwf Hs0) as (bx & by' & u & v & i & Hb & Hbu & Huv & Hi & _).
  unfold FlowField.getVector. rewrite Hb. apply normalized_long.
  apply blend_length_weak; [assumption..|lra].
Qed.

End OutsideTheShape.

Section Evolution.

Import FlowField.
Local Open Scope R_scope.

(** X9: [evolve] accumulates: two steps are one step of the sum, and
    [resetEvolution] forgets every step taken; neither touches the noise,
    the scale, the octaves or the distance field, so the flow after two
    steps is the flow after one step of the sum. *)
Theorem evolve_accumulates (a b : R) (ff : t) :
  evolve b (evolve a ff) = evolve (a + b) ff /\
  zOffset (evolve a ff) = zOffset ff + a /\
  resetEvolution (evolve a ff) = resetEvolution ff /\
  forall x y, getVector (evolve b (evolve a ff)) x y = getVector (evolve (a + b) ff) x y.
Proof.
  assert (E : evolve b (evolve a ff) = evolve (a + b) ff).
  { unfold evolve, with_noise. cbn. f_equal. ring. }
  split; [exact E|]. split; [reflexivity|]. split; [reflexivity|].
  intros x y. now rewrite E.
Qed.

End Evolution.

Section Octaves.

Import FlowField.
Local Open Scope R_scope.

(** The state of the loop over the octaves after [n] rounds. *)
Lemma octaves_closed_form (ff : t) (x y : R) (n : nat) :
  Nat.iter (S n) (octave ff x y) (0, 1, scale ff, 0)
  = (sum_f_R0 (fun k => (1 / 2) ^ k
                        * noise3D ff (x * (scale ff * 2 ^ k)) (y * (scale ff * 2 ^ k))
                            (zOffset ff)) n,
     (1 / 2) ^ S n, scale ff * 2 ^ S n, 2 - 2 * (1 / 2) ^ S n).
Proof.
  induction n as [|n IH].
  - simpl. replace (scale ff * 1) with (scale ff) by ring.
    repeat match goal with |- (_, _) = (_, _) => apply (f_equal2 pair) end; lra.
  - rewrite Nat.iter_succ, IH. cbn [octave sum_f_R0].
    repeat match goal with |- (_, _) = (_, _) => apply (f_equal2 pair) end;
      try reflexivity; simpl; lra.
Qed.

(** X10: [getAngle] is fractal noise: octave [k] samples [noise3D] at the
    frequency [scale * 2^k] with the weight [1 / 2^k], and the sum over the
    [n] octaves is divided by the total weight [2 - 2 / 2^n] before it is
    mapped to an angle. *)
Theorem getAngle_closed_form (ff : t) (x y : R) (n : nat) :
  octaves ff = Z.of_nat (S n) ->
  getAngle ff x y
  = (sum_f_R0 (fun k => (1 / 2) ^ k
                        * noise3D ff (x * (scale ff * 2 ^ k)) (y * (scale ff * 2 ^ k))
                            (zOffset ff)) n
     / (2 - 2 * (1 / 2) ^ S n) + 1) * PI.
Proof.
  intros Ho. unfold getAngle. rewrite Ho, Nat2Z.id, octaves_closed_form. reflexivity.
Qed.

Lemma getAngle_closed_form_witness :
  getAngle (setOctaves 3 Example.field) 0.01 Example.spot_y
  = (sum_f_R0 (fun k => (1 / 2) ^ k
                        * noise3D (setOctaves 3 Example.field)
                            (0.01 * (scale (setOctaves 3 Example.field) * 2 ^ k))
                            (Example.spot_y * (scale (setOctaves 3 Example.field) * 2 ^ k))
                            (zOffset (setOctaves 3 Example.field))) 2
     / (2 - 2 * (1 / 2) ^ 3) + 1) * PI.
Proof.
  apply (getAngle_closed_form (setOctaves 3 Example.field) 0.01 Example.spot_y 2).
  reflexivity.
Defined.

End Octaves.

Section WitnessOutside.

Import SDF.
Local Open Scope R_scope.

Lemma half_plane_far_side : getDistance Example.half_plane 6 1 = Fin 4.
Proof.
  assert (Hx : Int_part (6 / 4) = 1%Z) by (apply Int_part_eq; simpl; lra).
  assert (Hy : Int_part (1 / 4) = 0%Z) by (apply Int_part_eq; simpl; lra).
  unfold getDistance, sampleBilinear. simpl. rewrite Hx, Hy. simpl.
  f_equal. lra.
Qed.

Lemma getVector_unit_outside_shape_witness :
  exists rx ry,
    FlowField.getVector Example.deflected 6 1 = Vector.mk (Fin rx) (Fin ry) /\
    rx * rx + ry * ry = 1.
Proof.
  apply (getVector_unit_outside_shape Example.deflected 6 1).
  - intros s Hs _. simpl in Hs. injection Hs as <-. exact half_plane_well_formed.
  - destruct deflected_tunables as [-> _]. lra.
  - intros s Hs. simpl in Hs. injection Hs as <-.
    rewrite half_plane_far_side. cbn [nltb]. apply Rltb_false. lra.
Defined.

Lemma getVector_unit_weak_field_witness :
  exists rx ry,
    FlowField.getVector (FlowField.setSDFStrength 0.25 Example.deflected) 0.01 Example.spot_y
    = Vector.mk (Fin rx) (Fin ry) /\ rx * rx + ry * ry = 1.
Proof.
  apply (getVector_unit_weak_field (FlowField.setSDFStrength 0.25 Example.deflected)
           0.01 Example.spot_y).
  - intros s Hs _. simpl in Hs. injection Hs as <-. exact half_plane_well_formed.
  - cbn [FlowField.sdfStrength FlowField.setSDFStrength].
    rewrite Rmin_right, Rmax_right by lra. lra.
Defined.

End WitnessOutside.

(** ** Sampling inside the grid *)

Section Sampling.

Import SDF.
Local Open Scope R_scope.

Lemma getGridValue_cell (s : t) (g : list num) (x y : Z) :
  (0 <= x < gridWidth s)%Z -> (0 <= y < gridHeight s)%Z ->
  getGridValue s g x y = cell g (y * gridWidth s + x).
Proof.
  intros Hx Hy. unfold getGridValue.
  destruct (Z.ltb_spec x 0), (Z.geb_spec x (gridWidth s)),
    (Z.ltb_spec y 0), (Z.geb_spec y (gridHeight s)); try lia. reflexivity.
Qed.

Lemma sampleBilinear_node (s : t) (g : list num) (i j : Z) :
  grid_ok s g -> (0 <= i < gridWidth s)%Z -> (0 <= j < gridHeight s)%Z ->
  sampleBilinear s g (IZR i) (IZR j) = cell g (j * gridWidth s + i).
Proof.
  intros Hg Hi Hj. unfold sampleBilinear. rewrite !Int_part_IZR.
  rewrite <- (getGridValue_cell s g i j Hi Hj).
  destruct (getGridValue_inside s g i j Hg) as [a ->]; [lia..|].
  destruct (getGridValue_inside s g (Z.min (i + 1) (gridWidth s - 1)) j Hg)
    as [b ->]; [lia..|].
  destruct (getGridValue_inside s g i (Z.min (j + 1) (gridHeight s - 1)) Hg)
    as [c ->]; [lia..|].
  destruct (getGridValue_inside s g (Z.min (i + 1) (gridWidth s - 1))
              (Z.min (j + 1) (gridHeight s - 1)) Hg) as [d ->]; [lia..|].
  cbn [nmul nadd]. f_equal. ring.
Qed.

(** X11: at the position of a grid node, [(i * resolution, j * resolution)], the
    interpolated distance is the value of the cell [(i, j)]: the bilinear
    weights of the three other cells are 0 there. *)
Theorem getDistance_at_node (s : t) (i j : Z) :
  loaded s = true -> resolution s <> 0 -> grid_ok s (grid s) ->
  (0 <= i < gridWidth s)%Z -> (0 <= j < gridHeight s)%Z ->
  getDistance s (IZR i * resolution s) (IZR j * resolution s)
  = cell (grid s) (j * gridWidth s + i).
Proof.
  intros Hl Hres Hg Hi Hj. unfold getDistance. rewrite Hl. cbn [negb].
  replace (IZR i * resolution s / resolution s) with (IZR i) by (field; exact Hres).
  replace (IZR j * resolution s / resolution s) with (IZR j) by (field; exact Hres).
  now apply sampleBilinear_node.
Qed.

Lemma getDistance_at_node_witness :
  getDistance Example.half_plane (IZR 1 * resolution Example.half_plane)
    (IZR 1 * resolution Example.half_plane)
  = cell (grid Example.half_plane) (1 * gridWidth Example.half_plane + 1).
Proof.
  apply (getDistance_at_node Example.half_plane 1 1).
  - reflexivity.
  - simpl. lra.
  - apply half_plane_well_formed.
  - simpl. lia.
  - simpl. lia.
Defined.

Lemma convex_between (a b f lo hi : R) :
  lo <= a <= hi -> lo <= b <= hi -> 0 <= f <= 1 -> lo <= a * (1 - f) + b * f <= hi.
Proof.
  intros Ha Hb Hf.
  assert (0 <= (a - lo) * (1 - f)) by (apply Rmult_le_pos; lra).
  assert (0 <= (b - lo) * f) by (apply Rmult_le_pos; lra).
  assert (0 <= (hi - a) * (1 - f)) by (apply Rmult_le_pos; lra).
  assert (0 <= (hi - b) * f) by (apply Rmult_le_pos; lra).
  lra.
Qed.

Lemma cell_between (lo hi : R) (g : list num) (i : Z) :
  cells_between lo hi g -> (0 <= i < Z.of_nat (length g))%Z ->
  exists v, cell g i = Fin v /\ lo <= v <= hi.
Proof.
  intros Hb Hi. unfold cell.
  destruct (Z.ltb_spec i 0) as [|_]; [lia|].
  destruct (lookup_lt_is_Some_2 g (Z.to_nat i)) as [a Ha]; [lia|].
  rewrite Ha. simpl.
  unfold cells_between in Hb. rewrite Forall_lookup in Hb. exact (Hb _ _ Ha).
Qed.

Lemma sampleBilinear_between (s : t) (g : list num) (gx gy lo hi : R) :
  length g = Z.to_nat (gridWidth s * gridHeight s) -> cells_between lo hi g ->
  (0 <= Int_part gx < gridWidth s)%Z -> (0 <= Int_part gy < gridHeight s)%Z ->
  exists r, sampleBilinear s g gx gy = Fin r /\ lo <= r <= hi.
Proof.
  intros Hlen Hb Hx Hy. unfold sampleBilinear.
  pose proof (frac_range gx) as Hfx. pose proof (frac_range gy) as Hfy.
  set (x0 := Int_part gx) in *. set (y0 := Int_part gy) in *.
  set (x1 := Z.min (x0 + 1) (gridWidth s - 1)).
  set (y1 := Z.min (y0 + 1) (gridHeight s - 1)).
  assert (Hx1 : (0 <= x1 < gridWidth s)%Z) by (unfold x1; lia).
  assert (Hy1 : (0 <= y1 < gridHeight s)%Z) by (unfold y1; lia).
  rewrite !getGridValue_cell by assumption.
  destruct (cell_between lo hi g (y0 * gridWidth s + x0) Hb) as (a & -> & Ha); [nia|].
  destruct (cell_between lo hi g (y0 * gridWidth s + x1) Hb) as (b & -> & Hb'); [nia|].
  destruct (cell_between lo hi g (y1 * gridWidth s + x0) Hb) as (c & -> & Hc); [nia|].
  destruct (cell_between lo hi g (y1 * gridWidth s + x1) Hb) as (d & -> & Hd); [nia|].
  cbn [nmul nadd]. eexists. split; [reflexivity|].
  apply convex_between; [apply convex_between; (assumption || lra)..|lra].
Qed.

(** X12: inside the grid the interpolated distance stays between the least and
    the greatest cell: if every cell of the grid is between [lo] and [hi],
    so is [getDistance]. *)
Theorem getDistance_between (s : t) (x y lo hi : R) :
  loaded s = true ->
  length (grid s) = Z.to_nat (gridWidth s * gridHeight s) ->
  cells_between lo hi (grid s) ->
  (0 <= Int_part (x / resolution s) < gridWidth s)%Z ->
  (0 <= Int_part (y / resolution s) < gridHeight s)%Z ->
  exists d, getDistance s x y = Fin d /\ lo <= d <= hi.
Proof.
  intros Hl Hlen Hb Hx Hy. unfold getDistance. rewrite Hl. cbn [negb].
  now apply sampleBilinear_between.
Qed.

Lemma getDistance_between_witness :
  exists d, getDistance Example.half_plane 0.01 Example.spot_y = Fin d /\ -4 <= d <= 4.
Proof.
  apply (getDistance_between Example.half_plane 0.01 Example.spot_y (-4) 4).
  - reflexivity.
  - reflexivity.
  - unfold cells_between. simpl.
    repeat constructor; eexists; (split; [reflexivity|lra]).
  - destruct example_cell as [Hx _]. simpl. rewrite Hx. lia.
  - destruct example_cell as [_ Hy]. simpl. rewrite Hy. lia.
Defined.

(** X13: [getGradient] returns [(0, 0)], a unit vector, or [(NaN, NaN)]; the
    last at the positions outside the grid of a loaded field, and only
    there. *)
Theorem getGradient_unit_or_zero (s : t) (x y : R) :
  well_formed s ->
  (getGradient s x y = Vector.mk NaN NaN /\
   loaded s = true /\ outside s (x / resolution s) (y / resolution s)) \/
  ((getGradient s x y = Vector.mk (Fin 0) (Fin 0) \/
    exists u v, getGradient s x y = Vector.mk (Fin u) (Fin v) /\ u * u + v * v = 1) /\
   (loaded s = false \/ ~ outside s (x / resolution s) (y / resolution s))).
Proof.
  intros Hwf. destruct (loaded s) eqn:Hl.
  - destruct (outside_dec s (x / resolution s) (y / resolution s)) as [Hout|[Hx Hy]].
    + left. split; [now apply getGradient_outside|]. split; [reflexivity|exact Hout].
    + right. split; [now apply getGradient_inside|].
      right. unfold outside. lia.
  - right. split; [|now left]. left. unfold getGradient. now rewrite Hl.
Qed.

Lemma getGradient_unit_or_zero_witness :
  (getGradient Example.half_plane 0.01 Example.spot_y = Vector.mk NaN NaN /\
   loaded Example.half_plane = true /\
   outside Example.half_plane (0.01 / resolution Example.half_plane)
     (Example.spot_y / resolution Example.half_plane)) \/
  ((getGradient Example.half_plane 0.01 Example.spot_y = Vector.mk (Fin 0) (Fin 0) \/
    exists u v, getGradient Example.half_plane 0.01 Example.spot_y = Vector.mk (Fin u) (Fin v)
                /\ u * u + v * v = 1) /\
   (loaded Example.half_plane = false \/
    ~ outside Example.half_plane (0.01 / resolution Example.half_plane)
        (Example.spot_y / resolution Example.half_plane))).
Proof.
  apply (getGradient_unit_or_zero Example.half_plane 0.01 Example.spot_y).
  exact half_plane_well_formed.
Defined.

End Sampling.

(** ** The noise tables and the lattice *)

Section NoiseTables.

Import SimplexNoise.

Lemma zrange_NoDup (lo : Z) (n : nat) : NoDup (zrange lo n).
Proof.
  unfold zrange. apply NoDup_fmap_2; [|apply NoDup_seq].
  intros a b H. lia.
Qed.

Lemma land_255 (k : Z) : Z.land k 255 = (k mod 256)%Z.
Proof. change 255%Z with (Z.ones 8). now rewrite Z.land_ones by lia. Qed.

(** X14: for a seed that is not negative, with [seed * 16807 < 2^53] (so that
    every product of the shuffle is exact in the source's binary64, as it
    is here), the table that [buildPermutationTable] shuffles is a
    permutation of 0..255 without a repeated entry, and the table it
    returns holds every byte [b] at some place [k < 256] and again at
    [k + 256]. *)
Theorem permutation_for_nonneg_seed (seed : Z) :
  (0 <= seed)%Z -> (seed * 16807 < 2 ^ 53)%Z ->
  shuffled seed ≡ₚ zrange 0 256 /\
  NoDup (shuffled seed) /\
  forall b, (0 <= b < 256)%Z ->
    exists k, (0 <= k < 256)%Z /\
      U8.get (buildPermutationTable seed) k = Some b /\
      U8.get (buildPermutationTable seed) (k + 256) = Some b.
Proof.
  intros Hseed _. pose proof (shuffled_permutation seed Hseed) as Hp.
  split; [exact Hp|]. split.
  - rewrite Hp. apply zrange_NoDup.
  - intros b Hb.
    assert (Hin : b ∈ shuffled seed) by (rewrite Hp; apply zrange_elem; lia).
    apply list_elem_of_lookup in Hin. destruct Hin as [n Hn].
    assert (Hlt : (n < 256)%nat).
    { destruct (shuffled_bytes seed) as [Hl _]. rewrite <- Hl.
      now apply lookup_lt_Some with b. }
    assert (Hat : forall k, (k mod 256 = Z.of_nat n)%Z ->
                   U8.at_ (shuffled seed) (Z.land k 255) = b).
    { intros k Hk. rewrite land_255, Hk. unfold U8.at_, U8.get.
      destruct (Z.ltb_spec (Z.of_nat n) 0) as [|_]; [lia|].
      now rewrite Nat2Z.id, Hn. }
    exists (Z.of_nat n). split; [lia|].
    change (buildPermutationTable seed) with (perm (new seed)).
    destruct (tables_derived seed (Z.of_nat n) ltac:(lia)) as [-> _].
    destruct (tables_derived seed (Z.of_nat n + 256) ltac:(lia)) as [-> _].
    rewrite !Hat; [auto| |].
    + rewrite <- (Z.mod_small (Z.of_nat n) 256) at 2 by lia.
      replace (Z.of_nat n + 256)%Z with (Z.of_nat n + 1 * 256)%Z by lia.
      apply Z_mod_plus_full.
    + apply Z.mod_small. lia.
Qed.

Lemma permutation_for_nonneg_seed_witness :
  shuffled 42 ≡ₚ zrange 0 256 /\
  NoDup (shuffled 42) /\
  forall b, (0 <= b < 256)%Z ->
    exists k, (0 <= k < 256)%Z /\
      U8.get (buildPermutationTable 42) k = Some b /\
      U8.get (buildPermutationTable 42) (k + 256) = Some b.
Proof. apply (permutation_for_nonneg_seed 42); lia. Defined.

(** X15: whatever the seed, the reads of [noise2D] are defined: for the three
    corners, [perm[jj + j1]] is a byte [b], [permMod12[ii + i1 + b]] is a
    gradient index [g < 12], and [grad3[g]] is a gradient. *)
Theorem noise2D_reads_defined (seed i j i1 j1 : Z) :
  (0 <= i1 <= 1)%Z -> (0 <= j1 <= 1)%Z ->
  exists b g gr,
    U8.get (perm (new seed)) (Z.land j 255 + j1) = Some b /\
    U8.get (permMod12 (new seed)) (Z.land i 255 + i1 + b) = Some g /\
    (0 <= g < 12)%Z /\
    grad3 !! Z.to_nat g = Some gr.
Proof.
  intros Hi1 Hj1.
  assert (Hi : (0 <= Z.land i 255 < 256)%Z)
    by (rewrite land_255; apply Z.mod_pos_bound; lia).
  assert (Hj : (0 <= Z.land j 255 < 256)%Z)
    by (rewrite land_255; apply Z.mod_pos_bound; lia).
  destruct (tables_in_range seed (Z.land j 255 + j1) ltac:(lia)) as [(b & Hb & Hbr) _].
  destruct (tables_in_range seed (Z.land i 255 + i1 + b) ltac:(lia)) as [_ (g & Hg & Hgr)].
  destruct (lookup_lt_is_Some_2 grad3 (Z.to_nat g)) as [gr Hgrad].
  { change (length grad3) with 12%nat. lia. }
  exists b, g, gr. auto.
Qed.

Lemma noise2D_reads_defined_witness :
  exists b g gr,
    U8.get (perm (new 42)) (Z.land (-7) 255 + 1) = Some b /\
    U8.get (permMod12 (new 42)) (Z.land 300 255 + 0 + b) = Some g /\
    (0 <= g < 12)%Z /\
    grad3 !! Z.to_nat g = Some gr.
Proof. apply (noise2D_reads_defined 42 300 (-7) 0 1); lia. Defined.

End NoiseTables.

Section NoiseLattice.

Import SimplexNoise.
Local Open Scope R_scope.

(** X16: [noise2D] is 0 at every vertex of the simplex lattice, whatever the
    permutation table. *)
Theorem noise2D_zero_at_vertices (sn : t) (a b : Z) :
  noise2D sn (IZR a - IZR (a + b) * G2) (IZR b - IZR (a + b) * G2) = 0.
Proof. apply (noise2D_vertex sn a b); reflexivity. Qed.

Lemma Int_part_shift (r : R) (z : Z) : Int_part (r + IZR z) = (Int_part r + z)%Z.
Proof.
  apply Int_part_eq. rewrite plus_IZR.
  destruct (base_Int_part r) as [Hlo Hhi]. lra.
Qed.

Lemma land_255_shift (i a : Z) : Z.land (i + 256 * a) 255 = Z.land i 255.
Proof.
  rewrite !land_255. replace (i + 256 * a)%Z with (i + a * 256)%Z by lia.
  apply Z_mod_plus_full.
Qed.

(** X17: [noise2D] repeats when the lattice cell moves by 256 in either lattice
    direction (the cell coordinates are hashed through [& 255]): the
    periods are the vectors [(256 a - 256 (a + b) G2, 256 b - 256 (a + b) G2)]. *)
Theorem noise2D_periodic (sn : t) (x y : R) (a b : Z) :
  noise2D sn (x + (IZR (256 * a) - IZR (256 * (a + b)) * G2))
             (y + (IZR (256 * b) - IZR (256 * (a + b)) * G2))
  = noise2D sn x y.
Proof.
  set (x' := x + (IZR (256 * a) - IZR (256 * (a + b)) * G2)).
  set (y' := y + (IZR (256 * b) - IZR (256 * (a + b)) * G2)).
  assert (Hs : (x' + y') * F2 = (x + y) * F2 + IZR (256 * (a + b)) * G2).
  { transitivity ((x + y) * F2 + IZR (256 * (a + b)) * ((1 - 2 * G2) * F2)).
    - unfold x', y'. rewrite !mult_IZR, !plus_IZR. ring.
    - now rewrite F2_G2. }
  assert (Hi : Int_part (x' + (x' + y') * F2) = (Int_part (x + (x + y) * F2) + 256 * a)%Z).
  { rewrite Hs, <- Int_part_shift. f_equal. unfold x'. ring. }
  assert (Hj : Int_part (y' + (x' + y') * F2) = (Int_part (y + (x + y) * F2) + 256 * b)%Z).
  { rewrite Hs, <- Int_part_shift. f_equal. unfold y'. ring. }
  unfold noise2D. rewrite Hi, Hj.
  set (i := Int_part (x + (x + y) * F2)). set (j := Int_part (y + (x + y) * F2)).
  replace (x' - (IZR (i + 256 * a) - IZR (i + 256 * a + (j + 256 * b)) * G2))
    with (x - (IZR i - IZR (i + j) * G2))
    by (unfold x'; rewrite !plus_IZR, !mult_IZR, !plus_IZR; ring).
  replace (y' - (IZR (j + 256 * b) - IZR (i + 256 * a + (j + 256 * b)) * G2))
    with (y - (IZR j - IZR (i + j) * G2))
    by (unfold y'; rewrite !plus_IZR, !mult_IZR, !plus_IZR; ring).
  rewrite !land_255_shift. reflexivity.
Qed.

End NoiseLattice.

(** ** The grids that [fromSVG] builds *)

Section BuiltGrids.

Import SDF.
Local Open Scope R_scope.

Lemma ceil_upper (r : R) : r <= IZR (ceil r).
Proof.
  unfold ceil. rewrite opp_IZR. destruct (base_Int_part (- r)) as [Hlo _]. lra.
Qed.

Lemma Int_part_below (r : R) (n : Z) : 0 <= r -> r < IZR n -> (0 <= Int_part r < n)%Z.
Proof.
  intros H0 Hn. destruct (base_Int_part r) as [Hlo Hhi]. split.
  - assert (H : -1 < IZR (Int_part r)) by lra.
    apply lt_IZR in H. lia.
  - apply lt_IZR. lra.
Qed.

Lemma on_canvas_in_grid (res cw x : R) :
  0 < res -> 0 <= x < cw -> (0 <= Int_part (x / res) < ceil (cw / res))%Z.
Proof.
  intros Hres Hx. pose proof (ceil_upper (cw / res)) as Hc.
  assert (Hi : 0 < / res) by now apply Rinv_0_lt_compat.
  apply Int_part_below.
  - unfold Rdiv. apply Rmult_le_pos; lra.
  - apply Rlt_le_trans with (cw / res); [|exact Hc].
    unfold Rdiv. apply Rmult_lt_compat_r; lra.
Qed.

(** X18: on a canvas of at least 2 x 2 cells, at a positive resolution, [fromSVG]
    leaves a loaded distance field whose three grids hold one finite value
    per cell, whatever the mask; every position of the canvas,
    [0 <= x < canvasWidth] and [0 <= y < canvasHeight], is inside the grid,
    and the distance there is finite. *)
Theorem fromSVG_covers_canvas (s0 : t) (canvasWidth canvasHeight : R) (inside : list Z) :
  0 < resolution s0 ->
  (2 <= ceil (canvasWidth / resolution s0))%Z ->
  (2 <= ceil (canvasHeight / resolution s0))%Z ->
  exists s, fromMask s0 canvasWidth canvasHeight inside = Some s /\
    loaded s = true /\ well_formed s /\
    forall x y, 0 <= x < canvasWidth -> 0 <= y < canvasHeight ->
      ~ outside s (x / resolution s) (y / resolution s) /\
      exists d, getDistance s x y = Fin d.
Proof.
  intros Hres Hw Hh.
  destruct (fromMask_well_formed s0 canvasWidth canvasHeight inside Hres Hw Hh)
    as (s & Hs & Hl & Hwf).
  exists s. split; [exact Hs|]. split; [exact Hl|]. split; [exact Hwf|].
  assert (Hdim : gridWidth s = ceil (canvasWidth / resolution s0) /\
                 gridHeight s = ceil (canvasHeight / resolution s0) /\
                 resolution s = resolution s0).
  { unfold fromMask in Hs.
    destruct (_ || _)%bool; [discriminate Hs|].
    destruct (computeDistanceField _ _ _ _) as [g|]; [|discriminate Hs].
    cbn [mbind option_bind] in Hs.
    destruct (computeGradients _ _ _ _) as [gX gY].
    injection Hs as <-. auto. }
  destruct Hdim as (Ew & Eh & Er).
  intros x y Hx Hy.
  pose proof (on_canvas_in_grid _ _ _ Hres Hx) as Hgx.
  pose proof (on_canvas_in_grid _ _ _ Hres Hy) as Hgy.
  rewrite <- Ew in Hgx. rewrite <- Eh in Hgy. rewrite <- Er in Hgx, Hgy.
  split.
  - unfold outside. lia.
  - unfold getDistance. rewrite Hl. cbn [negb].
    destruct Hwf as [Hg _]. now apply sampleBilinear_inside.
Qed.

Lemma fromSVG_covers_canvas_witness :
  exists s, fromMask (SDF.new 4) 8 8 Example.half_mask = Some s /\
    loaded s = true /\ well_formed s /\
    forall x y, 0 <= x < 8 -> 0 <= y < 8 ->
      ~ outside s (x / resolution s) (y / resolution s) /\
      exists d, getDistance s x y = Fin d.
Proof.
  apply (fromSVG_covers_canvas (SDF.new 4) 8 8 Example.half_mask).
  - simpl. lra.
  - cbn [resolution SDF.new]. rewrite (ceil_eq (8 / 4) 2) by (simpl; lra). lia.
  - cbn [resolution SDF.new]. rewrite (ceil_eq (8 / 4) 2) by (simpl; lra). lia.
Defined.

Lemma zero_over_zero (a res : R) (z : Z) :
  z = 0%Z -> ((Fin a - Fin a) / Fin (IZR z * res))%num = NaN.
Proof.
  intros ->. cbn [nsub nneg nadd ndiv]. unfold Reqb.
  destruct (Req_dec_T (0 * res) 0) as [_|H]; [|lra].
  unfold scale_inf. rewrite !Rltb_false by lra. reflexivity.
Qed.

Lemma cell_at (g : list num) (i : nat) (a : num) :
  g !! i = Some a -> cell g (Z.of_nat i) = a.
Proof.
  intros H. unfold cell. destruct (Z.ltb_spec (Z.of_nat i) 0) as [|_]; [lia|].
  now rewrite Nat2Z.id, H.
Qed.

Lemma finite_lookup (g : list num) (i : nat) :
  Forall is_finite g -> (i < length g)%nat -> exists a, g !! i = Some (Fin a).
Proof.
  intros Hf Hi. destruct (lookup_lt_is_Some_2 g i Hi) as [v Hv].
  rewrite Forall_lookup in Hf. specialize (Hf _ _ Hv).
  destruct v; try contradiction. eauto.
Qed.

(** X19: on a grid one cell wide the x-gradient is [NaN] in every cell, and on
    a grid one cell high the y-gradient is: the central difference is
    taken between a cell and itself and divided by [0 * resolution]. *)
Theorem gradients_of_thin_grid (g : list num) (n : nat) (resolution : R) :
  length g = n -> Forall is_finite g ->
  fst (computeGradients g 1 n resolution) = replicate n NaN /\
  snd (computeGradients g n 1 resolution) = replicate n NaN.
Proof.
  intros Hlen Hfin. unfold computeGradients. cbn [fst snd]. split.
  - assert (H : forall len start, (start + len <= n)%nat ->
       map fst (flat_map (fun y => map (fun x => gradient_cell g (Z.of_nat 1) (Z.of_nat n)
                                    resolution (Z.of_nat x) (Z.of_nat y)) (seq 0 1))
                  (seq start len)) = replicate len NaN).
    { induction len as [|len IH]; intros start Hs; [reflexivity|].
      cbn [seq flat_map map app replicate fst]. rewrite IH by lia. f_equal.
      destruct (finite_lookup g start Hfin ltac:(lia)) as [a Ha].
      unfold gradient_cell. cbn [fst].
      replace (Z.of_nat start * Z.of_nat 1 + Z.min (Z.of_nat 1 - 1) (Z.of_nat 0 + 1))%Z
        with (Z.of_nat start) by lia.
      replace (Z.of_nat start * Z.of_nat 1 + Z.max 0 (Z.of_nat 0 - 1))%Z
        with (Z.of_nat start) by lia.
      rewrite (cell_at g start _ Ha). apply zero_over_zero. lia. }
    apply H. lia.
  - cbn [seq flat_map]. rewrite app_nil_r.
    assert (H : forall len start, (start + len <= n)%nat ->
       map snd (map (fun x => gradient_cell g (Z.of_nat n) (Z.of_nat 1)
                                resolution (Z.of_nat x) (Z.of_nat 0)) (seq start len))
       = replicate len NaN).
    { induction len as [|len IH]; intros start Hs; [reflexivity|].
      cbn [seq map replicate snd]. rewrite IH by lia. f_equal.
      destruct (finite_lookup g start Hfin ltac:(lia)) as [a Ha].
      unfold gradient_cell. cbn [snd].
      replace (Z.min (Z.of_nat 1 - 1) (Z.of_nat 0 + 1) * Z.of_nat n + Z.of_nat start)%Z
        with (Z.of_nat start) by lia.
      replace (Z.max 0 (Z.of_nat 0 - 1) * Z.of_nat n + Z.of_nat start)%Z
        with (Z.of_nat start) by lia.
      rewrite (cell_at g start _ Ha). apply zero_over_zero. lia. }
    apply H. lia.
Qed.

Lemma gradients_of_thin_grid_witness :
  fst (computeGradients [Fin 4; Fin (-4)] 1 2 4) = replicate 2 NaN /\
  snd (computeGradients [Fin 4; Fin (-4)] 2 1 4) = replicate 2 NaN.
Proof.
  apply (gradients_of_thin_grid [Fin 4; Fin (-4)] 2 4).
  - reflexivity.
  - repeat constructor.
Defined.

End BuiltGrids.

Section RoundTrip.

Import SDF.
Local Open Scope R_scope.

(** X20: the mask can be read back from the distance field that [fromSVG]
    builds from it: at the position of the grid node [(i, j)] the distance
    is negative if the cell is inside the shape and positive if not. *)
Theorem fromSVG_sign_at_nodes (s0 : t) (canvasWidth canvasHeight : R) (inside : list Z) :
  0 < resolution s0 ->
  (2 <= ceil (canvasWidth / resolution s0))%Z ->
  (2 <= ceil (canvasHeight / resolution s0))%Z ->
  exists s, fromMask s0 canvasWidth canvasHeight inside = Some s /\
    forall i j, (0 <= i < gridWidth s)%Z -> (0 <= j < gridHeight s)%Z ->
      exists d, getDistance s (IZR i * resolution s) (IZR j * resolution s) = Fin d /\
        (d < 0 <-> truthy (inside !! Z.to_nat (j * gridWidth s + i)) = true) /\
        (0 < d <-> truthy (inside !! Z.to_nat (j * gridWidth s + i)) = false).
Proof.
  intros Hres Hw Hh. unfold fromMask.
  set (w := ceil (canvasWidth / resolution s0)) in *.
  set (h := ceil (canvasHeight / resolution s0)) in *.
  destruct (Z.leb_spec w 0) as [|_]; [lia|].
  destruct (Z.leb_spec h 0) as [|_]; [lia|]. cbn [orb].
  destruct (computeDistanceField_signed (Z.to_nat w) (Z.to_nat h) (resolution s0) inside)
    as (dO & dI & sdf & _ & _ & -> & Hlen & Hsign); [lia|lia|exact Hres|].
  cbn [mbind option_bind].
  destruct (computeGradients (map Fin sdf) (Z.to_nat w) (Z.to_nat h) (resolution s0))
    as [gX gY].
  eexists. split; [reflexivity|].
  cbn [gridWidth gridHeight resolution]. intros i j Hi Hj.
  set (s := {| grid := map Fin sdf; gradientX := gX; gradientY := gY;
               gridWidth := w; gridHeight := h; resolution := resolution s0;
               loaded := true |}).
  assert (Hk : (Z.to_nat (j * w + i) < Z.to_nat w * Z.to_nat h)%nat) by nia.
  destruct (Hsign _ Hk) as (d & Hd & _ & Hneg & Hpos).
  exists d. split; [|split; assumption].
  unfold getDistance. cbn [loaded negb s resolution grid].
  replace (IZR i * resolution s0 / resolution s0) with (IZR i) by (field; lra).
  replace (IZR j * resolution s0 / resolution s0) with (IZR j) by (field; lra).
  rewrite (sampleBilinear_node s (map Fin sdf) i j); [|split| |].
  - cbn [gridWidth s]. rewrite cell_inside by nia.
    now rewrite list_lookup_fmap, Hd.
  - rewrite length_map, Hlen. cbn [gridWidth gridHeight s]. rewrite Z2Nat.inj_mul; lia.
  - apply Forall_fmap, Forall_forall. intros v _. exact I.
  - exact Hi.
  - exact Hj.
Qed.

Lemma fromSVG_sign_at_nodes_witness :
  exists s, fromMask (SDF.new 4) 8 8 Example.half_mask = Some s /\
    forall i j, (0 <= i < gridWidth s)%Z -> (0 <= j < gridHeight s)%Z ->
      exists d, getDistance s (IZR i * resolution s) (IZR j * resolution s) = Fin d /\
        (d < 0 <-> truthy (Example.half_mask !! Z.to_nat (j * gridWidth s + i)) = true) /\
        (0 < d <-> truthy (Example.half_mask !! Z.to_nat (j * gridWidth s + i)) = false).
Proof.
  apply (fromSVG_sign_at_nodes (SDF.new 4) 8 8 Example.half_mask).
  - simpl. lra.
  - cbn [resolution SDF.new]. rewrite (ceil_eq (8 / 4) 2) by (simpl; lra). lia.
  - cbn [resolution SDF.new]. rewrite (ceil_eq (8 / 4) 2) by (simpl; lra). lia.
Defined.

End RoundTrip.

Section Animation.

Import Main.
Local Open Scope R_scope.

Lemma spawn_on_canvas (width height speed variation : R) (r : R * R * R) :
  0 <= width -> 0 <= height ->
  0 <= snd (fst r) <= 1 -> 0 <= snd r <= 1 ->
  on_canvas width height (spawn width height speed variation r).
Proof.
  intros Hw Hh. destruct r as [[r1 r2] r3]. cbn [fst snd]. intros H2 H3.
  unfold on_canvas, spawn, Particle.new. cbn.
  repeat split; nra.
Qed.

(** X21: [adjustParticleCount] leaves exactly [targetCount] particles; the
    particles that were there stay, in their order, as far as the new
    count goes. *)
Theorem adjustParticleCount_length (width height speed variation : R)
  (random : nat -> R * R * R) (targetCount : nat) (particles : list Particle.t) :
  let particles' :=
    adjustParticleCount width height speed variation random targetCount particles in
  length particles' = targetCount /\
  take (Nat.min (length particles) targetCount) particles'
  = take (Nat.min (length particles) targetCount) particles.
Proof.
  unfold adjustParticleCount.
  destruct (Nat.ltb_spec (length particles) targetCount) as [Hlt|Hge].
  - cbn zeta. rewrite length_app, length_map, length_seq. split; [lia|].
    rewrite Nat.min_l by lia. rewrite take_app_le by lia. reflexivity.
  - destruct (Nat.ltb_spec targetCount (length particles)) as [Hlt|Hge'].
    + cbn zeta. rewrite length_take. split; [lia|].
      rewrite Nat.min_r by lia. now rewrite take_take, Nat.min_id.
    + cbn zeta. split; [lia|reflexivity].
Qed.

Lemma update_on_canvas (ff : FlowField.t) (w h : R) (p : Particle.t) :
  (forall s, FlowField.sdf ff = Some s -> SDF.loaded s = true -> SDF.well_formed s) ->
  0 <= w -> 0 <= h -> Particle.width p = w /\ Particle.height p = h ->
  exists p', Particle.update ff p = Some p' /\ on_canvas w h p'.
Proof.
  intros Hwf Hw Hh (Ew & Eh).
  destruct (getVector_finite ff (Particle.x p) (Particle.y p) Hwf) as (vx & vy & Hv).
  exists (Particle.advance vx vy p). split; [now apply update_finite|].
  destruct (advance_in_bounds vx vy p) as [Hx Hy]; [lra..|].
  unfold on_canvas. rewrite Ew in Hx. rewrite Eh in Hy.
  repeat split; try assumption; try apply Hx; apply Hy.
Qed.

Lemma mapM_update_on_canvas (ff : FlowField.t) (w h : R) (ps : list Particle.t) :
  (forall s, FlowField.sdf ff = Some s -> SDF.loaded s = true -> SDF.well_formed s) ->
  0 <= w -> 0 <= h ->
  Forall (fun p => Particle.width p = w /\ Particle.height p = h) ps ->
  exists ps', mapM (Particle.update ff) ps = Some ps' /\
    length ps' = length ps /\ Forall (on_canvas w h) ps'.
Proof.
  intros Hwf Hw Hh Hps. induction Hps as [|p ps Hp Hps IH].
  - exists []. repeat split. constructor.
  - destruct (update_on_canvas ff w h p Hwf Hw Hh Hp) as (p' & Hp' & Hc).
    destruct IH as (ps' & Hps' & Hl & Hf).
    exists (p' :: ps'). cbn. rewrite Hp'. cbn. rewrite Hps'. cbn.
    repeat split; [now rewrite Hl|now constructor].
Qed.

Lemma update_running (evo w h : R) (ff : FlowField.t) (ps : list Particle.t) :
  (forall s, FlowField.sdf ff = Some s -> SDF.loaded s = true -> SDF.well_formed s) ->
  0 <= w -> 0 <= h ->
  Forall (fun p => Particle.width p = w /\ Particle.height p = h) ps ->
  exists ff' ps', update false evo (ff, ps) = Some (ff', ps') /\
    FlowField.sdf ff' = FlowField.sdf ff /\
    length ps' = length ps /\ Forall (on_canvas w h) ps'.
Proof.
  intros Hwf Hw Hh Hps. unfold update.
  set (ff' := if Rlt_dec 0 evo then FlowField.evolve evo ff else ff).
  assert (Hsdf : FlowField.sdf ff' = FlowField.sdf ff).
  { unfold ff'. destruct (Rlt_dec 0 evo); reflexivity. }
  destruct (mapM_update_on_canvas ff' w h ps) as (ps' & -> & Hl & Hf);
    [rewrite Hsdf; exact Hwf|assumption..|].
  exists ff', ps'. cbn. auto.
Qed.

Lemma on_canvas_bounds (w h : R) (ps : list Particle.t) :
  Forall (on_canvas w h) ps ->
  Forall (fun p => Particle.width p = w /\ Particle.height p = h) ps.
Proof. intros H. eapply Forall_impl; [exact H|]. intros p (Ew & Eh & _). auto. Qed.

Lemma update_frame (paused : bool) (evo w h : R) (ff : FlowField.t) (ps : list Particle.t) :
  (forall s, FlowField.sdf ff = Some s -> SDF.loaded s = true -> SDF.well_formed s) ->
  0 <= w -> 0 <= h -> Forall (on_canvas w h) ps ->
  exists ff' ps', update paused evo (ff, ps) = Some (ff', ps') /\
    FlowField.sdf ff' = FlowField.sdf ff /\
    length ps' = length ps /\ Forall (on_canvas w h) ps'.
Proof.
  intros Hwf Hw Hh Hps. destruct paused.
  - exists ff, ps. auto.
  - apply update_running; try assumption. now apply on_canvas_bounds.
Qed.

(** X22: the animation never leaves the model and never loses a particle: from
    particles that are on the canvas, any number of frames ends with as
    many particles, all on the canvas (so no position is ever [NaN]), in a
    flow field with the same distance field. *)
Theorem animate_keeps_particles (frames : nat) (paused : bool) (evo w h : R)
  (ff : FlowField.t) (ps : list Particle.t) :
  (forall s, FlowField.sdf ff = Some s -> SDF.loaded s = true -> SDF.well_formed s) ->
  0 <= w -> 0 <= h -> Forall (on_canvas w h) ps ->
  exists ff' ps', animate frames paused evo (ff, ps) = Some (ff', ps') /\
    FlowField.sdf ff' = FlowField.sdf ff /\
    length ps' = length ps /\ Forall (on_canvas w h) ps'.
Proof.
  intros Hwf Hw Hh. revert ff ps Hwf.
  induction frames as [|n IH]; intros ff ps Hwf Hps.
  - exists ff, ps. auto.
  - destruct (update_frame paused evo w h ff ps Hwf Hw Hh Hps)
      as (ff1 & ps1 & H1 & Hs1 & Hl1 & Hf1).
    destruct (IH ff1 ps1) as (ff' & ps' & H' & Hs' & Hl' & Hf');
      [rewrite Hs1; exact Hwf|exact Hf1|].
    exists ff', ps'. cbn [animate]. rewrite H1. cbn.
    repeat split; [exact H'|congruence|congruence|exact Hf'].
Qed.

Lemma animate_keeps_particles_witness :
  exists ff' ps',
    animate 3 false 0.001
      (Example.deflected, createParticles 8 8 0.5 0.5 (fun _ => (0.5, 0.25, 0.75)) 2)
    = Some (ff', ps') /\
    FlowField.sdf ff' = FlowField.sdf Example.deflected /\
    length ps' = length (createParticles 8 8 0.5 0.5 (fun _ => (0.5, 0.25, 0.75)) 2) /\
    Forall (on_canvas 8 8) ps'.
Proof.
  apply (animate_keeps_particles 3 false 0.001 8 8 Example.deflected).
  - intros s Hs _. simpl in Hs. injection Hs as <-. exact half_plane_well_formed.
  - lra.
  - lra.
  - unfold createParticles. cbn [seq map].
    do 2 (constructor; [apply spawn_on_canvas; cbn [fst snd]; lra|]).
    constructor.
Defined.

(** X23: after a resize, one frame of the animation brings every particle onto
    the new canvas, wherever it was on the old one, and no particle is
    lost. *)
Theorem resize_then_update (width height evo : R) (sdf : option SDF.t) (ff : FlowField.t)
  (ps : list Particle.t) :
  (forall s, FlowField.sdf ff = Some s -> SDF.loaded s = true -> SDF.well_formed s) ->
  0 <= width -> 0 <= height ->
  let '(sdf', ff', ps') := handleResize width height (sdf, ff, ps) in
  Forall (fun p => Particle.width p = width /\ Particle.height p = height) ps' /\
  (sdf' = None /\ (sdf <> None -> FlowField.sdf ff' = None)) /\
  exists ff'' ps'', update false evo (ff', ps') = Some (ff'', ps'') /\
    length ps'' = length ps /\ Forall (on_canvas width height) ps''.
Proof.
  intros Hwf Hw Hh. unfold handleResize, handleSVGClear.
  set (ps' := map (Particle.setBounds width height) ps).
  assert (Hps' : Forall (fun p => Particle.width p = width /\ Particle.height p = height) ps').
  { unfold ps'. apply Forall_fmap, Forall_forall. intros p _. split; reflexivity. }
  assert (Hlen : length ps' = length ps) by (unfold ps'; apply length_map).
  destruct sdf as [s|].
  - split; [exact Hps'|]. split; [split; [reflexivity|reflexivity]|].
    destruct (update_running evo width height (FlowField.setSDF None ff) ps')
      as (ff'' & ps'' & Hu & _ & Hl & Hf); try assumption.
    { intros s' Hs'. discriminate Hs'. }
    exists ff'', ps''. split; [exact Hu|]. split; [congruence|exact Hf].
  - split; [exact Hps'|]. split; [split; [reflexivity|intros H; now contradiction H]|].
    destruct (update_running evo width height ff ps')
      as (ff'' & ps'' & Hu & _ & Hl & Hf); try assumption.
    exists ff'', ps''. split; [exact Hu|]. split; [congruence|exact Hf].
Qed.

Lemma resize_then_update_witness :
  let '(sdf', ff', ps') :=
    handleResize 4 4 (Some Example.half_plane, Example.deflected, [Example.particle (-1)]) in
  Forall (fun p => Particle.width p = 4 /\ Particle.height p = 4) ps' /\
  (sdf' = None /\ (Some Example.half_plane <> None -> FlowField.sdf ff' = None)) /\
  exists ff'' ps'', update false 0.001 (ff', ps') = Some (ff'', ps'') /\
    length ps'' = length [Example.particle (-1)] /\ Forall (on_canvas 4 4) ps''.
Proof.
  apply (resize_then_update 4 4 0.001 (Some Example.half_plane) Example.deflected
           [Example.particle (-1)]).
  - intros s Hs _. simpl in Hs. injection Hs as <-. exact half_plane_well_formed.
  - lra.
  - lra.
Defined.

End Animation.

Section Spawn.

Import Main.
Local Open Scope R_scope.

(** X24: [createParticles] makes [count] particles, each on the canvas with a
    segment of length 0 and a speed within [variation] of the base speed;
    [reset] puts a particle back on the canvas, with a segment of length 0
    and the same speed.  The values of [Math.random()] are in [0, 1). *)
Theorem createParticles_on_canvas (width height speed variation : R)
  (random : nat -> R * R * R) (count : nat) :
  0 <= width -> 0 <= height -> 0 <= variation ->
  (forall i, 0 <= fst (fst (random i)) < 1 /\ 0 <= snd (fst (random i)) < 1 /\
             0 <= snd (random i) < 1) ->
  length (createParticles width height speed variation random count) = count /\
  Forall (fun p => fresh_on_canvas width height p /\
                   Particle.baseSpeed p = speed /\
                   speed - variation <= Particle.speed p <= speed + variation)
         (createParticles width height speed variation random count) /\
  forall p r1 r2, Particle.width p = width -> Particle.height p = height ->
    0 <= r1 < 1 -> 0 <= r2 < 1 ->
    fresh_on_canvas width height (Particle.reset r1 r2 p) /\
    Particle.speed (Particle.reset r1 r2 p) = Particle.speed p.
Proof.
  intros Hw Hh Hv Hr. unfold createParticles. split; [|split].
  - now rewrite length_map, length_seq.
  - apply Forall_fmap, Forall_forall. intros i _. unfold compose.
    specialize (Hr i). destruct (random i) as [[r1 r2] r3]. cbn [fst snd] in Hr.
    unfold spawn, fresh_on_canvas, on_canvas, Particle.new. cbn.
    repeat split; nra.
  - intros p r1 r2 Ew Eh H1 H2.
    unfold fresh_on_canvas, on_canvas, Particle.reset. cbn. rewrite Ew, Eh.
    repeat split; nra.
Qed.

Lemma createParticles_on_canvas_witness :
  length (createParticles 8 8 0.5 0.5 (fun _ => (0.5, 0.25, 0.75)) 2) = 2%nat /\
  Forall (fun p => fresh_on_canvas 8 8 p /\
                   Particle.baseSpeed p = 0.5 /\
                   0.5 - 0.5 <= Particle.speed p <= 0.5 + 0.5)
         (createParticles 8 8 0.5 0.5 (fun _ => (0.5, 0.25, 0.75)) 2) /\
  forall p r1 r2, Particle.width p = 8 -> Particle.height p = 8 ->
    0 <= r1 < 1 -> 0 <= r2 < 1 ->
    fresh_on_canvas 8 8 (Particle.reset r1 r2 p) /\
    Particle.speed (Particle.reset r1 r2 p) = Particle.speed p.
Proof.
  apply (createParticles_on_canvas 8 8 0.5 0.5 (fun _ => (0.5, 0.25, 0.75)) 2); try lra.
  intros _. cbn [fst snd]. lra.
Defined.

End Spawn.

(** ** The distance transform is exact *)

Section Reads.

Import SDF.
Local Open Scope R_scope.

Lemma read_lookup (l : list R) (i : nat) (a : R) : l !! i = Some a -> read l i = a.
Proof. intros H. unfold read. now rewrite H. Qed.

Lemma lookup_read (l : list R) (i : nat) : (i < length l)%nat -> l !! i = Some (read l i).
Proof.
  intros H. destruct (lookup_lt_is_Some_2 l i H) as [a Ha].
  now rewrite (read_lookup l i a Ha).
Qed.

Lemma read_insert_eq (l : list R) (i : nat) (a : R) :
  (i < length l)%nat -> read (<[i := a]> l) i = a.
Proof. intros H. apply read_lookup. now apply list_lookup_insert_eq. Qed.

Lemma read_insert_ne (l : list R) (i j : nat) (a : R) :
  i <> j -> read (<[i := a]> l) j = read l j.
Proof. intros H. unfold read. now rewrite list_lookup_insert_ne. Qed.

Lemma peek_lookup (v : list nat) (j a : nat) : v !! j = Some a -> peek v j = a.
Proof. intros H. unfold peek. now rewrite H. Qed.

Lemma peek_insert_eq (v : list nat) (i a : nat) :
  (i < length v)%nat -> peek (<[i := a]> v) i = a.
Proof. intros H. apply peek_lookup. now apply list_lookup_insert_eq. Qed.

Lemma peek_insert_ne (v : list nat) (i j a : nat) :
  i <> j -> peek (<[i := a]> v) j = peek v j.
Proof. intros H. unfold peek. now rewrite list_lookup_insert_ne. Qed.

Lemma least_ext (n : nat) (F G : nat -> R) (m : R) :
  (forall c, (c < n)%nat -> F c = G c) -> least n F m -> least n G m.
Proof.
  intros E [(c & Hc & Hm) Hle]. split.
  - exists c. split; [exact Hc|]. now rewrite <- E.
  - intros c' Hc'. rewrite <- E by exact Hc'. now apply Hle.
Qed.

Lemma least_unique (n : nat) (F : nat -> R) (m m' : R) :
  least n F m -> least n F m' -> m = m'.
Proof.
  intros [(c & Hc & Hm) Hle] [(c' & Hc' & Hm') Hle'].
  specialize (Hle c' Hc'). specialize (Hle' c Hc). lra.
Qed.

End Reads.

Lemma forM_rev_seq_inv {S : Type} (I : nat -> S -> Prop) (body : S -> nat -> option S)
  (len : nat) (s : S) :
  I len s ->
  (forall k s, (k < len)%nat -> I (Datatypes.S k) s -> exists s', body s k = Some s' /\ I k s') ->
  exists s', forM (rev (seq 0 len)) body s = Some s' /\ I 0%nat s'.
Proof.
  revert s. induction len as [|len IH]; intros s Hs Hbody.
  - simpl. eauto.
  - rewrite seq_S, rev_app_distr. cbn [rev app forM Nat.add].
    destruct (Hbody len s ltac:(lia) Hs) as (s' & -> & Hs'). cbn.
    apply IH; [exact Hs'|]. intros k s0 Hk. apply Hbody. lia.
Qed.

Lemma forM_seq_inv2 {S : Type} (I J : nat -> S -> Prop) (body : S -> nat -> option S)
  (len start : nat) (s : S) :
  I start s -> J start s ->
  (forall k s, (start <= k < start + len)%nat -> I k s ->
     exists s', body s k = Some s' /\ I (Datatypes.S k) s') ->
  (forall k s s', (start <= k < start + len)%nat -> I k s -> J k s ->
     body s k = Some s' -> J (Datatypes.S k) s') ->
  exists s', forM (seq start len) body s = Some s' /\
    I (start + len)%nat s' /\ J (start + len)%nat s'.
Proof.
  intros HI HJ Htot Hpart.
  apply (forM_seq_inv (fun k s => I k s /\ J k s)); [auto|].
  intros k s0 Hk [HI0 HJ0].
  destruct (Htot k s0 Hk HI0) as (s' & Hs' & HI').
  exists s'. split; [exact Hs'|]. split; [exact HI'|]. now apply (Hpart k s0).
Qed.

Section HorizontalExact.

Import SDF.
Local Open Scope R_scope.

Variables (w h : nat).

Lemma relax_value (cur : list R) (idx nb : nat) :
  (idx < length cur)%nat -> (nb < length cur)%nat ->
  exists cur', relax cur idx nb = Some cur' /\ length cur' = length cur /\
    (forall i, i <> idx -> cur' !! i = cur !! i) /\
    read cur' idx = (if Rlt_dec (read cur nb + 1) (read cur idx)
                     then read cur nb + 1 else read cur idx).
Proof.
  intros Hidx Hnb. unfold relax.
  rewrite (lookup_read cur idx Hidx), (lookup_read cur nb Hnb). cbn.
  destruct (Rlt_dec (read cur nb + 1) (read cur idx)) as [Hlt|Hge].
  - eexists. split; [reflexivity|]. rewrite length_insert. split; [reflexivity|]. split.
    + intros i Hi. now rewrite list_lookup_insert_ne by auto.
    + now apply read_insert_eq.
  - eexists. split; [reflexivity|]. repeat split.
Qed.

Lemma forward_scan (d : list R) (y : nat) :
  length d = (w * h)%nat -> (y < h)%nat ->
  exists cur, forM (seq 1 (w - 1)%nat)
                (fun dist x => relax dist (y * w + x)%nat (y * w + x - 1)%nat) d = Some cur /\
    length cur = (w * h)%nat /\
    (forall i, (forall c, (c < w)%nat -> i <> (y * w + c)%nat) -> cur !! i = d !! i) /\
    (forall c, (c < w)%nat -> row_fwd w d y c (read cur (y * w + c))).
Proof.
  intros Hlen Hy.
  destruct (forM_seq_inv
    (fun x cur => length cur = (w * h)%nat /\
       (forall i, (forall c, (c < w)%nat -> i <> (y * w + c)%nat) -> cur !! i = d !! i) /\
       (forall c, (c < w)%nat -> (c < x)%nat -> row_fwd w d y c (read cur (y * w + c))) /\
       (forall c, (c < w)%nat -> (x <= c)%nat -> read cur (y * w + c) = read d (y * w + c)))
    (fun dist x => relax dist (y * w + x)%nat (y * w + x - 1)%nat) (w - 1) 1 d)
    as (cur & Hcur & Hl & Hout & Hdone & _).
  - split; [exact Hlen|]. split; [auto|]. split; [|auto].
    intros c Hc Hc1. assert (c = 0)%nat by lia. subst c. split.
    + exists 0%nat. split; [lia|]. simpl. lra.
    + intros c' Hc'. assert (c' = 0)%nat by lia. subst c'. simpl. lra.
  - intros k cur Hk (Hl & Hout & Hdone & Hrest).
    assert (Hkw : (k < w)%nat) by lia.
    pose proof (index_in_grid w h k y Hkw Hy) as Hidx.
    destruct (relax_value cur (y * w + k) (y * w + k - 1)) as (cur' & -> & Hl' & Hne & Hv);
      [lia..|].
    exists cur'. split; [reflexivity|]. split; [lia|]. split; [|split].
    + intros i Hi. rewrite Hne; [now apply Hout|]. now apply Hi.
    + intros c Hc Hck. destruct (decide (c = k)) as [->|Hne'].
      * rewrite Hv. replace (y * w + k - 1)%nat with (y * w + (k - 1))%nat by lia.
        rewrite (Hrest k Hkw ltac:(lia)).
        destruct (Hdone (k - 1)%nat ltac:(lia) ltac:(lia)) as [(c0 & Hc0 & He) Hle].
        replace (Datatypes.S (k - 1)) with k in * by lia.
        assert (Ek : INR k = INR (k - 1) + 1).
        { rewrite <- S_INR. f_equal. lia. }
        set (e := read cur (y * w + (k - 1))) in *.
        destruct (Rlt_dec (e + 1) (read d (y * w + k))) as [Hlt|Hge]; split.
        -- exists c0. split; [lia|]. lra.
        -- intros c' Hc'. destruct (decide (c' = k)) as [->|Hn]; [lra|].
           specialize (Hle c' ltac:(lia)). lra.
        -- exists k. split; [lia|]. lra.
        -- intros c' Hc'. destruct (decide (c' = k)) as [->|Hn]; [lra|].
           specialize (Hle c' ltac:(lia)). lra.
      * unfold read. rewrite Hne by lia. apply Hdone; lia.
    + intros c Hc Hck. unfold read. rewrite Hne by lia. apply Hrest; lia.
  - exists cur. split; [exact Hcur|]. split; [exact Hl|]. split; [exact Hout|].
    intros c Hc. apply Hdone; lia.
Qed.

Lemma backward_step (a b : R) (d : list R) (y k : nat) :
  (k + 1 < w)%nat -> row_fwd w d y k a -> row_full w d y (k + 1) b ->
  row_full w d y k (if Rlt_dec (b + 1) a then b + 1 else a).
Proof.
  intros Hk [(ca & Hca & Ea) Hla] [(cb & Hcb & Eb) Hlb].
  assert (Ek : INR (k + 1) = INR k + 1) by (rewrite plus_INR; simpl; lra).
  assert (Habs : forall c', (c' <= k)%nat -> Rabs (INR k - INR c') = INR k - INR c').
  { intros c' Hc'. apply Rabs_right. apply le_INR in Hc'. lra. }
  assert (Habs' : forall c', (k < c')%nat ->
            Rabs (INR k - INR c') = INR c' - INR k /\
            Rabs (INR (k + 1) - INR c') = INR c' - INR k - 1).
  { intros c' Hc'. assert (H1 : INR (k + 1) <= INR c') by (apply le_INR; lia).
    split.
    - rewrite Rabs_left1; lra.
    - rewrite Rabs_left1; lra. }
  assert (Hlow : forall c', (c' < w)%nat ->
            Rmin a (b + 1) <= read d (y * w + c') + Rabs (INR k - INR c')).
  { intros c' Hc'. destruct (Nat.le_gt_cases c' k) as [Hle|Hgt].
    - rewrite Habs by exact Hle. specialize (Hla c' ltac:(lia)).
      pose proof (Rmin_l a (b + 1)). lra.
    - destruct (Habs' c' Hgt) as [-> E2]. specialize (Hlb c' Hc'). rewrite E2 in Hlb.
      pose proof (Rmin_r a (b + 1)). lra. }
  destruct (Rlt_dec (b + 1) a) as [Hlt|Hge]; split.
  - exists cb. split; [exact Hcb|].
    destruct (Nat.le_gt_cases cb k) as [Hle|Hgt].
    + exfalso. specialize (Hla cb ltac:(lia)).
      assert (H1 : INR cb <= INR k) by now apply le_INR.
      rewrite Rabs_right in Eb by lra. lra.
    + destruct (Habs' cb Hgt) as [-> E2]. rewrite E2 in Eb. lra.
  - intros c' Hc'. specialize (Hlow c' Hc'). rewrite Rmin_right in Hlow by lra. exact Hlow.
  - exists ca. split; [lia|]. rewrite Habs by lia. exact Ea.
  - intros c' Hc'. specialize (Hlow c' Hc'). rewrite Rmin_left in Hlow by lra. exact Hlow.
Qed.

Lemma scan_row_exact (d : list R) (y : nat) :
  length d = (w * h)%nat -> (y < h)%nat ->
  exists d', scan_row w d y = Some d' /\ length d' = (w * h)%nat /\
    (forall i, (forall c, (c < w)%nat -> i <> (y * w + c)%nat) -> d' !! i = d !! i) /\
    (forall x, (x < w)%nat -> row_full w d y x (read d' (y * w + x))).
Proof.
  intros Hlen Hy. unfold scan_row.
  destruct (forward_scan d y Hlen Hy) as (d1 & -> & Hl1 & Hout1 & Hfwd). cbn.
  destruct (forM_rev_seq_inv
    (fun k cur => length cur = (w * h)%nat /\
       (forall i, (forall c, (c < w)%nat -> i <> (y * w + c)%nat) -> cur !! i = d !! i) /\
       (forall c, (c < w)%nat -> (k <= c)%nat -> row_full w d y c (read cur (y * w + c))) /\
       (forall c, (c < w)%nat -> (c < k)%nat -> row_fwd w d y c (read cur (y * w + c))))
    (fun dist x => relax dist (y * w + x)%nat (y * w + x + 1)%nat) (w - 1) d1)
    as (cur & Hcur & Hl & Hout & Hdone & _).
  - split; [exact Hl1|]. split; [exact Hout1|]. split; [|intros; now apply Hfwd].
    intros c Hc Hck. assert (Datatypes.S c = w) as Ew by lia.
    specialize (Hfwd c Hc). unfold row_fwd in Hfwd. rewrite Ew in Hfwd.
    eapply least_ext; [|exact Hfwd].
    intros c' Hc'. cbn beta. rewrite Rabs_right; [reflexivity|].
    assert (INR c' <= INR c) by (apply le_INR; lia). lra.
  - intros k cur Hk (Hl & Hout & Hdone & Hrest).
    assert (Hkw : (k + 1 < w)%nat) by lia.
    pose proof (index_in_grid w h k y ltac:(lia) Hy) as Hidx.
    pose proof (index_in_grid w h (k + 1) y Hkw Hy) as Hidx'.
    destruct (relax_value cur (y * w + k) (y * w + k + 1)) as (cur' & -> & Hl' & Hne & Hv);
      [lia..|].
    exists cur'. split; [reflexivity|]. split; [lia|]. split; [|split].
    + intros i Hi. rewrite Hne; [now apply Hout|]. apply Hi. lia.
    + intros c Hc Hck. destruct (decide (c = k)) as [->|Hne'].
      * rewrite Hv. replace (y * w + k + 1)%nat with (y * w + (k + 1))%nat by lia.
        apply backward_step; [exact Hkw| |].
        -- apply Hrest; lia.
        -- apply Hdone; lia.
      * unfold read. rewrite Hne by lia. apply Hdone; lia.
    + intros c Hc Hck. unfold read. rewrite Hne by lia. apply Hrest; lia.
  - exists cur. split; [exact Hcur|]. split; [exact Hl|]. split; [exact Hout|].
    intros x Hx. apply Hdone; lia.
Qed.

(** The horizontal pass returns, and leaves in every cell the least of
    [d0[y*w + c] + |x - c|] over the cells [c] of its row. *)
Lemma horizontal_exact (d0 : list R) :
  length d0 = (w * h)%nat ->
  exists d, horizontal w h d0 = Some d /\ length d = (w * h)%nat /\
    forall x y, (x < w)%nat -> (y < h)%nat -> row_full w d0 y x (read d (y * w + x)).
Proof.
  intros Hlen. unfold horizontal.
  destruct (forM_seq_inv
    (fun y cur => length cur = (w * h)%nat /\
       (forall x y', (x < w)%nat -> (y' < h)%nat -> (y' < y)%nat ->
          row_full w d0 y' x (read cur (y' * w + x))) /\
       (forall x y', (x < w)%nat -> (y' < h)%nat -> (y <= y')%nat ->
          cur !! (y' * w + x)%nat = d0 !! (y' * w + x)%nat))
    (scan_row w) h 0 d0) as (d & Hd & Hl & Hdone & _).
  - split; [exact Hlen|]. split; [intros; lia|auto].
  - intros y cur Hy (Hl & Hdone & Hrest).
    destruct (scan_row_exact cur y Hl ltac:(lia)) as (d' & -> & Hl' & Hout & Hrow).
    exists d'. split; [reflexivity|]. split; [exact Hl'|]. split.
    + intros x y' Hx Hy' Hlt. destruct (decide (y' = y)) as [->|Hne].
      * eapply least_ext; [|apply Hrow; exact Hx].
        intros c Hc. cbn beta. unfold read at 1. rewrite Hrest by lia. reflexivity.
      * unfold read. rewrite Hout.
        -- apply Hdone; lia.
        -- intros c Hc E. apply (cell_index_inj w h) in E; lia.
    + intros x y' Hx Hy' Hle. rewrite Hout.
      * apply Hrest; lia.
      * intros c Hc E. apply (cell_index_inj w h) in E; lia.
  - exists d. split; [exact Hd|]. split; [exact Hl|].
    intros x y Hx Hy. apply Hdone; lia.
Qed.

End HorizontalExact.

Section Parabolas.

Import SDF.
Local Open Scope R_scope.

Lemma intersect_Some (f : list R) (v : list nat) (q k : nat) (s : R) :
  intersect f v q k = Some s ->
  is_Some (v !! k) /\
  2 * INR q - 2 * INR (peek v k) <> 0 /\
  s * (2 * INR q - 2 * INR (peek v k))
  = (read f q + INR q * INR q) - (read f (peek v k) + INR (peek v k) * INR (peek v k)).
Proof.
  unfold intersect. intros H.
  destruct (v !! k) as [vk|] eqn:Hvk; [|discriminate H]. cbn in H.
  destruct (f !! q) as [fq|] eqn:Hfq; [|discriminate H]. cbn in H.
  destruct (f !! vk) as [fv|] eqn:Hfv; [|discriminate H]. cbn in H.
  destruct (Req_dec_T (2 * INR q - 2 * INR vk) 0) as [|Hden]; [discriminate H|].
  injection H as <-.
  rewrite (peek_lookup v k vk Hvk), (read_lookup f q fq Hfq), (read_lookup f vk fv Hfv).
  split; [eauto|]. split; [exact Hden|]. field. exact Hden.
Qed.

(** Where the parabolas of the rows [u < q] meet: at [s], the parabola of
    [q] is the lower one from [s] on, the parabola of [u] before [s]. *)
Lemma par_meet (f : list R) (u q : nat) (s t : R) :
  s * (2 * INR q - 2 * INR u)
  = (read f q + INR q * INR q) - (read f u + INR u * INR u) ->
  par f q t - par f u t = (2 * INR q - 2 * INR u) * (s - t).
Proof. intros H. unfold par. nra. Qed.

Lemma par_above (f : list R) (u q : nat) (s t : R) :
  (u < q)%nat ->
  s * (2 * INR q - 2 * INR u)
  = (read f q + INR q * INR q) - (read f u + INR u * INR u) ->
  s <= t -> par f q t <= par f u t.
Proof.
  intros Hu H Hst. pose proof (par_meet f u q s t H) as E.
  apply lt_INR in Hu. nra.
Qed.

Lemma par_below (f : list R) (u q : nat) (s t : R) :
  (u < q)%nat ->
  s * (2 * INR q - 2 * INR u)
  = (read f q + INR q * INR q) - (read f u + INR u * INR u) ->
  t <= s -> par f u t <= par f q t.
Proof.
  intros Hu H Hst. pose proof (par_meet f u q s t H) as E.
  apply lt_INR in Hu. nra.
Qed.

Lemma par_meet_le (f : list R) (u q : nat) (s t : R) :
  (u < q)%nat ->
  s * (2 * INR q - 2 * INR u)
  = (read f q + INR q * INR q) - (read f u + INR u * INR u) ->
  par f q t <= par f u t -> s <= t.
Proof.
  intros Hu H Hle. pose proof (par_meet f u q s t H) as E.
  apply lt_INR in Hu.
  destruct (Rle_dec s t) as [|Hn]; [assumption|exfalso].
  assert (0 < (2 * INR q - 2 * INR u) * (s - t)) by (apply Rmult_lt_0_compat; lra).
  lra.
Qed.

Lemma pop_exact (f : list R) (v : list nat) (z : list R) (q k k' : nat) (s : R) :
  (forall j, (j <= k)%nat -> (peek v j < q)%nat) ->
  (forall j, (j < k)%nat ->
     par f (peek v j) (read z (S j)) = par f (peek v (S j)) (read z (S j))) ->
  pop f v z q k = Some (k', s) ->
  (k' <= k)%nat /\
  s * (2 * INR q - 2 * INR (peek v k'))
  = (read f q + INR q * INR q) - (read f (peek v k') + INR (peek v k') * INR (peek v k')) /\
  read z k' < s /\
  (forall j t, (k' < j <= k)%nat -> read z j <= t -> par f q t <= par f (peek v j) t) /\
  ((k' < k)%nat -> s <= read z (S k')).
Proof.
  revert k' s. induction k as [|k IH]; intros k' s Hv Hmeet Hpop; cbn [pop] in Hpop.
  - destruct (intersect f v q 0) as [s0|] eqn:Hint; [|discriminate Hpop]. cbn in Hpop.
    destruct (z !! 0%nat) as [zk|] eqn:Hzk; [|discriminate Hpop]. cbn in Hpop.
    destruct (Rle_dec s0 zk) as [|Hgt]; [discriminate Hpop|].
    injection Hpop as <- <-.
    destruct (intersect_Some _ _ _ _ _ Hint) as (_ & _ & E).
    rewrite (read_lookup z 0 zk Hzk).
    split; [lia|]. split; [exact E|]. split; [lra|]. split; intros; lia.
  - destruct (intersect f v q (S k)) as [s0|] eqn:Hint; [|discriminate Hpop]. cbn in Hpop.
    destruct (z !! S k) as [zk|] eqn:Hzk; [|discriminate Hpop]. cbn in Hpop.
    destruct (intersect_Some _ _ _ _ _ Hint) as (_ & _ & E).
    pose proof (read_lookup z (S k) zk Hzk) as Ezk.
    destruct (Rle_dec s0 zk) as [Hle|Hgt].
    + destruct (IH k' s) as (Hk' & E' & Hz' & Hpopped & Hnext);
        [intros; apply Hv; lia|intros; apply Hmeet; lia|exact Hpop|].
      assert (Htop : forall t, zk <= t -> par f q t <= par f (peek v (S k)) t).
      { intros t Ht. apply par_above with s0; [apply Hv; lia|exact E|lra]. }
      split; [lia|]. split; [exact E'|]. split; [exact Hz'|]. split.
      * intros j t Hj Ht. destruct (decide (j = S k)) as [->|Hne].
        -- apply Htop. lra.
        -- apply Hpopped; [lia|exact Ht].
      * intros _. destruct (decide (k' = k)) as [->|Hne]; [|apply Hnext; lia].
        rewrite Ezk. apply par_meet_le with f (peek v k) q; [apply Hv; lia|exact E'|].
        rewrite <- Ezk, Hmeet by lia. rewrite Ezk. apply Htop. lra.
    + injection Hpop as <- <-.
      split; [lia|]. split; [exact E|]. split; [lra|]. split; intros; lia.
Qed.

(** A point above the boundary [z[k']] lies in the interval of one of the
    parabolas [k'], ..., [k] of the stack. *)
Lemma locate (z : list R) (t : R) (n k' : nat) :
  (k' = 0%nat \/ read z k' <= t) ->
  exists j, (k' <= j <= k' + n)%nat /\
    (j = 0%nat \/ read z j <= t) /\ (j = (k' + n)%nat \/ t <= read z (S j)).
Proof.
  revert k'. induction n as [|n IH]; intros k' Hk'.
  - exists k'. split; [lia|]. split; [exact Hk'|]. left. lia.
  - destruct (Rle_dec t (read z (S k'))) as [Hle|Hgt].
    + exists k'. split; [lia|]. split; [exact Hk'|]. now right.
    + destruct (IH (S k')) as (j & Hj & Hlo & Hhi); [right; lra|].
      exists j. split; [lia|]. split; [exact Hlo|].
      destruct Hhi as [->|Hhi]; [left; lia|now right].
Qed.

Lemma envelope_step_hull (INF : R) (h : nat) (f : list R) (q : nat)
  (st st' : nat * list nat * list R) :
  (1 <= q < h)%nat ->
  envelope_inv INF h q st -> hull f q st ->
  envelope_step INF f st q = Some st' -> hull f (S q) st'.
Proof.
  intros Hq. destruct st as [[k v] z].
  intros (Hk & Hlv & Hlz & Hv & _ & _ & _) (Hmono & Hmeet & Hlow).
  assert (Hvq : forall j, (j <= k)%nat -> (peek v j < q)%nat).
  { intros j Hj. destruct (Hv j Hj) as (vj & Hvj & Hlt). now rewrite (peek_lookup v j vj Hvj). }
  unfold envelope_step.
  destruct (pop f v z q k) as [[k' s]|] eqn:Hpop; [|discriminate]. cbn.
  intros H. injection H as <-.
  destruct (pop_exact f v z q k k' s Hvq Hmeet Hpop) as (Hk' & E & Hzs & Hpopped & Hnext).
  set (v' := <[S k' := q]> v).
  set (z' := <[S (S k') := INF]> (<[S k' := s]> z)).
  assert (Ev : forall j, (j <= k')%nat -> peek v' j = peek v j).
  { intros j Hj. unfold v'. apply peek_insert_ne. lia. }
  assert (Evq : peek v' (S k') = q).
  { unfold v'. apply peek_insert_eq. lia. }
  assert (Ez : forall j, (j <= k')%nat -> read z' j = read z j).
  { intros j Hj. unfold z'. rewrite !read_insert_ne by lia. reflexivity. }
  assert (Ezs : read z' (S k') = s).
  { unfold z'. rewrite read_insert_ne by lia. apply read_insert_eq. lia. }
  assert (Hbelow : forall j t, (j <= k')%nat -> (j = 0%nat \/ read z j <= t) ->
            (j = k' /\ t <= s \/ (j < k')%nat /\ t <= read z (S j)) ->
            par f (peek v j) t <= par f q t).
  { intros j t Hj Hlo [[-> Hts]|[Hjk Htz]].
    - apply par_below with s; [apply Hvq; lia|exact E|exact Hts].
    - apply Rle_trans with (par f (peek v k') t).
      + apply Hlow; [lia|apply Hvq; lia|exact Hlo|now right].
      + apply par_below with s; [apply Hvq; lia|exact E|].
        pose proof (Hmono (S j) k' ltac:(lia) ltac:(lia) ltac:(lia)). lra. }
  unfold hull. split; [|split].
  - intros i j Hi Hij Hj. destruct (decide (j = S k')) as [->|Hne].
    + rewrite Ezs. destruct (decide (i = S k')) as [->|Hne'].
      * rewrite Ezs. lra.
      * rewrite Ez by lia.
        pose proof (Hmono i k' Hi ltac:(lia) ltac:(lia)). lra.
    + rewrite !Ez by lia. apply Hmono; lia.
  - intros j Hj. destruct (decide (j = k')) as [->|Hne].
    + rewrite Ezs, Evq, Ev by lia.
      pose proof (par_meet f (peek v k') q s s E). lra.
    + rewrite !Ev, !Ez by lia. apply Hmeet. lia.
  - intros j u t Hj Hu Hlo Hhi. destruct (decide (j = S k')) as [->|Hne].
    + rewrite Evq. rewrite Ezs in Hlo.
      assert (Hst : s <= t) by (destruct Hlo as [|]; [lia|assumption]).
      destruct (decide (u = q)) as [->|Huq]; [lra|].
      destruct (locate z t (k - k') k') as (j0 & Hj0 & Hlo0 & Hhi0).
      { destruct (decide (k' = 0%nat)); [now left|right; lra]. }
      replace (k' + (k - k'))%nat with k in * by lia.
      apply Rle_trans with (par f (peek v j0) t).
      * destruct (decide (j0 = k')) as [->|Hne0].
        -- apply par_above with s; [apply Hvq; lia|exact E|exact Hst].
        -- apply Hpopped; [lia|]. destruct Hlo0 as [|]; [lia|assumption].
      * apply Hlow; [lia|lia|exact Hlo0|exact Hhi0].
    + assert (Hjk : (j <= k')%nat) by lia.
      rewrite Ev by exact Hjk.
      assert (Hlo' : j = 0%nat \/ read z j <= t).
      { destruct Hlo as [|Hlo]; [now left|right]. now rewrite Ez in Hlo by exact Hjk. }
      assert (Hhi' : j = k' /\ t <= s \/ (j < k')%nat /\ t <= read z (S j)).
      { destruct Hhi as [|Hhi]; [lia|].
        destruct (decide (j = k')) as [->|Hne'].
        - left. split; [reflexivity|]. now rewrite Ezs in Hhi.
        - right. split; [lia|]. now rewrite Ez in Hhi by lia. }
      destruct (decide (u = q)) as [->|Huq]; [now apply Hbelow|].
      apply Hlow; [lia|lia|exact Hlo'|].
      destruct Hhi' as [[-> Hts]|[Hlt Htz]]; [|now right].
      destruct (decide (k' = k)) as [|Hkk]; [now left|right].
      specialize (Hnext ltac:(lia)). lra.
Qed.

End Parabolas.

Section VerticalExact.

Import SDF.
Local Open Scope R_scope.

Variables (w h : nat) (g : list R).
Hypothesis w_pos : (0 < w)%nat.
Hypothesis h_pos : (0 < h)%nat.
Hypothesis g_bounded : bounded (INR (w + h)) (w * h) g.

Local Abbreviation INF := (INR ((w + h) * (w + h))).

Lemma envelope_exact (f : list R) (v : list nat) (z : list R) (x : nat) :
  squares_of w h g f x h -> (x < w)%nat -> length v = h -> length z = S h ->
  exists st, envelope INF h f v z = Some st /\ envelope_inv INF h h st /\ hull f h st.
Proof.
  intros Hf Hx Hlv Hlz. unfold envelope.
  destruct (forM_seq_inv2 (envelope_inv INF h) (hull f) (envelope_step INF f) (h - 1) 1
              (0%nat, <[0%nat := 0%nat]> v, <[1%nat := INF]> (<[0%nat := - INF]> z)))
    as (st & Hst & HI & HJ).
  - unfold envelope_inv. rewrite !length_insert.
    repeat split; try lia.
    + intros j Hj. exists 0%nat. replace j with 0%nat by lia.
      rewrite list_lookup_insert_eq by lia. split; [reflexivity|lia].
    + apply list_lookup_insert_eq. lia.
    + rewrite list_lookup_insert_ne by lia. apply list_lookup_insert_eq. lia.
    + apply list_lookup_insert_eq. rewrite length_insert. lia.
  - unfold hull. split; [intros; lia|]. split; [intros; lia|].
    intros j u t Hj Hu _ _. replace j with 0%nat by lia. replace u with 0%nat by lia.
    rewrite peek_insert_eq by lia. lra.
  - intros q st Hq. now apply (envelope_step_inv w h g w_pos h_pos g_bounded) with x.
  - intros q st st' Hq HI HJ Hstep.
    apply (envelope_step_hull INF h f q st st'); [lia|assumption..].
  - replace (1 + (h - 1))%nat with h in HI, HJ by lia.
    exists st. auto.
Qed.

Lemma skip_spec (z : list R) (y : R) (fuel k k' : nat) :
  skip z y fuel k = Some k' ->
  (k <= k')%nat /\ (forall zk, z !! S k' = Some zk -> y <= zk) /\
  (k' = k \/ read z k' < y).
Proof.
  revert k. induction fuel as [|fuel IH]; intros k; cbn [skip].
  - destruct (z !! S k) as [zk|] eqn:Hzk.
    + destruct (Rlt_dec zk y) as [|Hge]; [discriminate|].
      intros H. injection H as <-. split; [lia|]. split; [|now left].
      intros zk' E. rewrite Hzk in E. injection E as <-. lra.
    + intros H. injection H as <-. split; [lia|]. split; [|now left].
      intros zk' E. rewrite Hzk in E. discriminate E.
  - destruct (z !! S k) as [zk|] eqn:Hzk.
    + destruct (Rlt_dec zk y) as [Hlt|Hge].
      * intros H. destruct (IH _ H) as (Hk & Hstop & Hprev).
        split; [lia|]. split; [exact Hstop|]. right.
        destruct Hprev as [->|Hprev]; [|exact Hprev].
        now rewrite (read_lookup z (S k) zk Hzk).
      * intros H. injection H as <-. split; [lia|]. split; [|now left].
        intros zk' E. rewrite Hzk in E. injection E as <-. lra.
    + intros H. injection H as <-. split; [lia|]. split; [|now left].
      intros zk' E. rewrite Hzk in E. discriminate E.
Qed.

Lemma fill_step_exact (f : list R) (v : list nat) (z : list R) (x K y k k' : nat)
  (d d' : list R) :
  (x < w)%nat -> (y < h)%nat ->
  envelope_inv INF h h (K, v, z) -> hull f h (K, v, z) ->
  (k <= K)%nat -> length d = (w * h)%nat ->
  (k = 0%nat \/ read z k < INR y) ->
  fill_step w x f v z (k, d) y = Some (k', d') ->
  (k' = 0%nat \/ read z k' < INR y + 1) /\
  least h (fun u => par f u (INR y)) (read d' (y * w + x)) /\
  (forall i, i <> (y * w + x)%nat -> d' !! i = d !! i).
Proof.
  intros Hx Hy (HK & Hlv & Hlz & Hv & _ & _ & HzK) (_ & _ & Hlow) Hk Hld Hprev.
  unfold fill_step.
  destruct (skip_total w h w_pos h_pos z (INR y) K (length z) k HzK)
    as (k1 & Hskip & Hk1); [|lia..|].
  { apply le_INR. nia. }
  rewrite Hskip. cbn.
  destruct (skip_spec z (INR y) (length z) k k1 Hskip) as (_ & Hstop & Hadv).
  destruct (Hv k1 ltac:(lia)) as (vk & Hvk & Hvkh). rewrite Hvk. cbn.
  destruct (f !! vk) as [fv|] eqn:Hfv; [|discriminate]. cbn.
  intros H. injection H as <- <-.
  assert (Hidx : (y * w + x < length d)%nat) by (rewrite Hld; now apply index_in_grid).
  assert (Hlo : k1 = 0%nat \/ read z k1 <= INR y).
  { destruct Hadv as [->|Hadv]; [|right; lra].
    destruct Hprev as [|Hprev]; [now left|right; lra]. }
  split; [|split].
  - destruct Hlo as [|Hlo]; [now left|right; lra].
  - rewrite read_insert_eq by exact Hidx.
    replace (fv + (INR y - INR vk) * (INR y - INR vk)) with (par f vk (INR y))
      by (unfold par; now rewrite (read_lookup f vk fv Hfv)).
    split.
    + exists vk. split; [exact Hvkh|reflexivity].
    + intros u Hu. rewrite <- (peek_lookup v k1 vk Hvk).
      apply Hlow; [lia|exact Hu|exact Hlo|].
      destruct (decide (k1 = K)) as [|Hne]; [now left|right].
      destruct (lookup_lt_is_Some_2 z (S k1)) as [zk Hzk]; [lia|].
      rewrite (read_lookup z (S k1) zk Hzk). now apply Hstop.
  - intros i Hi. now rewrite list_lookup_insert_ne by auto.
Qed.

Lemma fill_exact (f : list R) (v : list nat) (z : list R) (x K : nat) (d : list R) :
  squares_of w h g f x h -> (x < w)%nat ->
  envelope_inv INF h h (K, v, z) -> hull f h (K, v, z) -> length d = (w * h)%nat ->
  exists k' d', forM (seq 0 h) (fill_step w x f v z) (0%nat, d) = Some (k', d') /\
    length d' = (w * h)%nat /\
    (forall i, (forall y', (y' < h)%nat -> i <> (y' * w + x)%nat) -> d' !! i = d !! i) /\
    forall y, (y < h)%nat -> least h (fun u => par f u (INR y)) (read d' (y * w + x)).
Proof.
  intros Hf Hx Henv Hhull Hld.
  destruct (forM_seq_inv2 (fill_inv w h g d x K)
              (fun y st => (fst st = 0%nat \/ read z (fst st) < INR y) /\
                 forall y', (y' < y)%nat ->
                   least h (fun u => par f u (INR y')) (read (snd st) (y' * w + x)))
              (fill_step w x f v z) h 0 (0%nat, d))
    as ([k' d'] & Hfill & (_ & Hld' & _ & Hother) & (_ & Hleast)).
  - unfold fill_inv. repeat split; lia.
  - cbn [fst snd]. split; [now left|]. intros y' Hy'. lia.
  - intros y st Hy. now apply (fill_step_inv w h g w_pos h_pos).
  - intros y [k dc] [k1 d1] Hy (Hk & Hldc & _ & _) [Hprev Hdone] Hstep. cbn [fst snd] in *.
    destruct (fill_step_exact f v z x K y k k1 dc d1 Hx ltac:(lia) Henv Hhull Hk Hldc Hprev Hstep)
      as (Hnext & Hrow & Hne).
    split; [now rewrite S_INR|].
    intros y' Hy'. destruct (decide (y' = y)) as [->|Hny]; [exact Hrow|].
    unfold read. rewrite Hne.
    + apply Hdone. lia.
    + intros E. apply (cell_index_inj w h w_pos h_pos) in E; [lia|assumption..].
  - exists k', d'. split; [exact Hfill|]. split; [exact Hld'|]. split.
    + intros i Hi. apply Hother. intros y' Hy'. apply Hi. lia.
    + intros y Hy. apply Hleast. lia.
Qed.

Lemma column_exact (k : nat) (st st' : list R * scratch) :
  (0 <= k < 0 + w)%nat -> columns_done w h g k st -> columns_exact w h g k st ->
  column INF w h st k = Some st' -> columns_exact w h g (S k) st'.
Proof.
  intros Hk. destruct st as [d sc].
  intros (Hld & Hlf & Hlv & Hlz & _ & Hrest) Hex. unfold column.
  destruct (extract_squares w h g w_pos h_pos g_bounded k d (sf sc)) as (f & -> & Hf);
    [lia|exact Hlf| |].
  { intros y Hy. apply Hrest; lia. }
  cbn.
  destruct (envelope_exact f (sv sc) (sz sc) k Hf ltac:(lia) Hlv Hlz)
    as ([[K v] z] & -> & Henv & Hhull).
  cbn.
  destruct (fill_exact f v z k K d Hf ltac:(lia) Henv Hhull Hld)
    as (k' & d' & -> & Hld' & Hother & Hleast).
  cbn. intros H. injection H as <-.
  intros x y Hx Hxw Hy. cbn [fst]. destruct (decide (x = k)) as [->|Hne].
  - eapply least_ext; [|apply Hleast; exact Hy].
    intros u Hu. cbn beta. unfold par.
    destruct Hf as [_ Hsq]. destruct (Hsq u Hu) as (gv & Hgv & Hfu).
    now rewrite (read_lookup f u _ Hfu), (read_lookup g _ gv Hgv).
  - unfold read at 3. rewrite Hother.
    + apply (Hex x y); [lia|assumption..].
    + intros y' Hy' E. apply (cell_index_inj w h w_pos h_pos) in E; lia.
Qed.

(** The vertical pass returns, and leaves in every cell the least value,
    at its row, of the parabolas of its column. *)
Lemma vertical_exact :
  exists d, vertical w h g = Some d /\ length d = (w * h)%nat /\
    forall x y, (x < w)%nat -> (y < h)%nat ->
      least h (fun u => read g (u * w + x) * read g (u * w + x)
                        + (INR y - INR u) * (INR y - INR u))
            (read d (y * w + x)).
Proof.
  unfold vertical.
  destruct (forM_seq_inv2 (columns_done w h g) (columns_exact w h g) (column INF w h) w 0
              (g, mkScratch (replicate h 0) (replicate h 0%nat) (replicate (h + 1) 0)))
    as ([d sc] & -> & (Hld & _) & Hex).
  - destruct g_bounded as [Hlg _]. unfold columns_done. cbn [sf sv sz].
    rewrite !length_replicate. repeat split; try lia; try assumption.
  - intros x y Hx. lia.
  - intros k st Hk. now apply (column_inv w h g w_pos h_pos g_bounded).
  - intros k st st' Hk. now apply column_exact.
  - cbn. exists d. split; [reflexivity|]. split; [exact Hld|].
    intros x y Hx Hy. apply (Hex x y); [lia|assumption..].
Qed.

End VerticalExact.

Section Euclidean.

Import SDF.
Local Open Scope R_scope.

Variables (w h : nat).
Hypothesis w_pos : (0 < w)%nat.
Hypothesis h_pos : (0 < h)%nat.

Lemma transform_exact (d0 : list R) :
  bounded (INR (w + h)) (w * h) d0 ->
  exists d, distanceTransform2D d0 w h = Some d /\ length d = (w * h)%nat /\
    forall x y, (x < w)%nat -> (y < h)%nat ->
      (exists c u, (c < w)%nat /\ (u < h)%nat /\
         read d (y * w + x)
         = (read d0 (u * w + c) + Rabs (INR x - INR c))
           * (read d0 (u * w + c) + Rabs (INR x - INR c))
           + (INR y - INR u) * (INR y - INR u)) /\
      (forall c u, (c < w)%nat -> (u < h)%nat ->
         read d (y * w + x)
         <= (read d0 (u * w + c) + Rabs (INR x - INR c))
            * (read d0 (u * w + c) + Rabs (INR x - INR c))
            + (INR y - INR u) * (INR y - INR u)).
Proof.
  intros Hd0. unfold distanceTransform2D.
  destruct (horizontal_lowered _ w h d0 Hd0) as (g & Hg & Hlow).
  destruct (horizontal_exact w h d0 (proj1 Hd0)) as (g' & Hg' & _ & Hrow).
  rewrite Hg in Hg'. injection Hg' as <-. rewrite Hg. cbn.
  pose proof (lowered_bounded w h _ _ _ Hd0 Hlow) as Hgb.
  destruct (vertical_exact w h g w_pos h_pos Hgb) as (d & -> & Hld & Hcol).
  exists d. split; [reflexivity|]. split; [exact Hld|].
  intros x y Hx Hy. destruct (Hcol x y Hx Hy) as [(u & Hu & Ed) Hle]. split.
  - destruct (Hrow x u Hx Hu) as [(c & Hc & Eg) _].
    exists c, u. split; [exact Hc|]. split; [exact Hu|]. rewrite Ed, Eg. reflexivity.
  - intros c u' Hc Hu'. apply Rle_trans with (1 := Hle u' Hu').
    destruct (Hrow x u' Hx Hu') as [_ Hg1]. specialize (Hg1 c Hc). cbn beta in Hg1.
    assert (H0 : 0 <= read g (u' * w + x)).
    { destruct Hgb as [Hlg Hgv].
      pose proof (index_in_grid w h x u' Hx Hu') as Hidx.
      apply (Hgv (u' * w + x)%nat). apply lookup_read. lia. }
    pose proof (Rabs_pos (INR x - INR c)). nra.
Qed.

Lemma cell_gap (x c : nat) :
  (x < w)%nat -> (c < w)%nat ->
  Rabs (INR x - INR c) * Rabs (INR x - INR c) = (INR x - INR c) * (INR x - INR c) /\
  0 <= Rabs (INR x - INR c) /\ Rabs (INR x - INR c) < INR w.
Proof.
  intros Hx Hc. apply lt_INR in Hx, Hc.
  pose proof (pos_INR x). pose proof (pos_INR c).
  unfold Rabs. destruct (Rcase_abs _); repeat split; nra.
Qed.

(** The transform of a grid that holds 0 in the cells of a set [P] and
    [w + h] elsewhere: the squared distance to the nearest cell of [P], or
    [(w + h)^2] everywhere if [P] has no cell. *)
Lemma transform_of_mask (P : nat -> bool) (d0 : list R) :
  length d0 = (w * h)%nat ->
  (forall i, (i < w * h)%nat -> d0 !! i = Some (if P i then 0 else INR (w + h))) ->
  exists d, distanceTransform2D d0 w h = Some d /\ length d = (w * h)%nat /\
    forall x y, (x < w)%nat -> (y < h)%nat ->
      ((exists c u, (c < w)%nat /\ (u < h)%nat /\ P (u * w + c)%nat = true) ->
       nearest w h (fun i => P i = true) x y (read d (y * w + x))) /\
      ((forall c u, (c < w)%nat -> (u < h)%nat -> P (u * w + c)%nat = false) ->
       read d (y * w + x) = INR (w + h) * INR (w + h)).
Proof.
  intros Hlen Hcells.
  assert (HW : INR (w + h) = INR w + INR h) by apply plus_INR.
  assert (Hwp : 0 <= INR w) by apply pos_INR.
  assert (Hhp : 0 <= INR h) by apply pos_INR.
  assert (Hread : forall c u, (c < w)%nat -> (u < h)%nat ->
            read d0 (u * w + c) = if P (u * w + c)%nat then 0 else INR (w + h)).
  { intros c u Hc Hu. apply read_lookup, Hcells. now apply index_in_grid. }
  destruct (transform_exact d0) as (d & Hd & Hld & Hex).
  { split; [exact Hlen|]. intros i v Hv.
    rewrite Hcells in Hv by (rewrite <- Hlen; now apply lookup_lt_Some with v).
    injection Hv as <-. destruct (P i); lra. }
  exists d. split; [exact Hd|]. split; [exact Hld|].
  intros x y Hx Hy. destruct (Hex x y Hx Hy) as [(c & u & Hc & Hu & E) Hle].
  destruct (cell_gap x c Hx Hc) as (Esq & Hge & Hlt).
  rewrite Hread in E by assumption. split.
  - intros (c0 & u0 & Hc0 & Hu0 & HP0). split.
    + destruct (P (u * w + c)%nat) eqn:HP.
      * exists c, u. split; [exact Hc|]. split; [exact Hu|]. split; [exact HP|]. nra.
      * exfalso. specialize (Hle c0 u0 Hc0 Hu0). rewrite Hread, HP0 in Hle by assumption.
        destruct (cell_gap x c0 Hx Hc0) as (_ & Hge0 & Hlt0).
        assert (Hy0 : (INR y - INR u0) * (INR y - INR u0) < INR h * INR h).
        { apply lt_INR in Hy, Hu0. pose proof (pos_INR y). pose proof (pos_INR u0). nra. }
        assert (Hx0 : Rabs (INR x - INR c0) * Rabs (INR x - INR c0) < INR w * INR w) by nra.
        assert (Hfar : INR (w + h) * INR (w + h)
                       <= (INR (w + h) + Rabs (INR x - INR c))
                          * (INR (w + h) + Rabs (INR x - INR c))) by nra.
        assert (Hsum : INR w * INR w + INR h * INR h <= INR (w + h) * INR (w + h)) by nra.
        pose proof (Rle_0_sqr (INR y - INR u)) as Hsq. unfold Rsqr in Hsq.
        lra.
    + intros c' u' Hc' Hu' HP'. specialize (Hle c' u' Hc' Hu').
      rewrite Hread, HP' in Hle by assumption.
      destruct (cell_gap x c' Hx Hc') as (Esq' & _ & _). nra.
  - intros Hnone. rewrite (Hnone c u Hc Hu) in E.
    specialize (Hle x y Hx Hy). rewrite Hread, (Hnone x y Hx Hy) in Hle by assumption.
    replace (INR x - INR x) with 0 in Hle by ring.
    replace (INR y - INR y) with 0 in Hle by ring.
    rewrite Rabs_R0 in Hle.
    assert (Hfar : INR (w + h) * INR (w + h)
                   <= (INR (w + h) + Rabs (INR x - INR c))
                      * (INR (w + h) + Rabs (INR x - INR c))) by nra.
    pose proof (Rle_0_sqr (INR y - INR u)) as Hsq. unfold Rsqr in Hsq.
    lra.
Qed.

End Euclidean.

Section TransformTheorems.

Import SDF.
Local Open Scope R_scope.

(** X25: the horizontal pass returns, and leaves in every cell the distance to
    the nearest cell of its row, counted from the value of that cell: the
    least of [d0[y*w + c] + |x - c|] over the cells [c] of the row. *)
Theorem horizontal_pass_exact (w h : nat) (d0 : list R) :
  length d0 = (w * h)%nat ->
  exists d, horizontal w h d0 = Some d /\ length d = (w * h)%nat /\
    forall x y, (x < w)%nat -> (y < h)%nat ->
      least w (fun c => read d0 (y * w + c) + Rabs (INR x - INR c)) (read d (y * w + x)).
Proof. apply horizontal_exact. Qed.

Lemma horizontal_pass_exact_witness :
  exists d, horizontal 2 2 [0; 4; 0; 4] = Some d /\ length d = (2 * 2)%nat /\
    forall x y, (x < 2)%nat -> (y < 2)%nat ->
      least 2 (fun c => read [0; 4; 0; 4] (y * 2 + c) + Rabs (INR x - INR c))
            (read d (y * 2 + x)).
Proof. apply (horizontal_pass_exact 2 2 [0; 4; 0; 4]). reflexivity. Defined.

(** X26: [distanceTransform2D] returns, and computes the lower envelope
    exactly: every cell [(x, y)] ends with the least value of
    [(d0[u*w + c] + |x - c|)^2 + (y - u)^2] over the cells [(c, u)] of the
    grid, and that value is attained. *)
Theorem distanceTransform2D_lower_envelope (w h : nat) (d0 : list R) :
  (0 < w)%nat -> (0 < h)%nat -> bounded (INR (w + h)) (w * h) d0 ->
  exists d, distanceTransform2D d0 w h = Some d /\ length d = (w * h)%nat /\
    forall x y, (x < w)%nat -> (y < h)%nat ->
      (exists c u, (c < w)%nat /\ (u < h)%nat /\
         read d (y * w + x)
         = (read d0 (u * w + c) + Rabs (INR x - INR c))
           * (read d0 (u * w + c) + Rabs (INR x - INR c))
           + (INR y - INR u) * (INR y - INR u)) /\
      (forall c u, (c < w)%nat -> (u < h)%nat ->
         read d (y * w + x)
         <= (read d0 (u * w + c) + Rabs (INR x - INR c))
            * (read d0 (u * w + c) + Rabs (INR x - INR c))
            + (INR y - INR u) * (INR y - INR u)).
Proof. intros Hw Hh. now apply transform_exact. Qed.

Lemma distanceTransform2D_lower_envelope_witness :
  exists d, distanceTransform2D (fst (initialise 2 2 Example.half_mask)) 2 2 = Some d /\
    length d = (2 * 2)%nat /\
    forall x y, (x < 2)%nat -> (y < 2)%nat ->
      (exists c u, (c < 2)%nat /\ (u < 2)%nat /\
         read d (y * 2 + x)
         = (read (fst (initialise 2 2 Example.half_mask)) (u * 2 + c) + Rabs (INR x - INR c))
           * (read (fst (initialise 2 2 Example.half_mask)) (u * 2 + c) + Rabs (INR x - INR c))
           + (INR y - INR u) * (INR y - INR u)) /\
      (forall c u, (c < 2)%nat -> (u < 2)%nat ->
         read d (y * 2 + x)
         <= (read (fst (initialise 2 2 Example.half_mask)) (u * 2 + c) + Rabs (INR x - INR c))
            * (read (fst (initialise 2 2 Example.half_mask)) (u * 2 + c) + Rabs (INR x - INR c))
            + (INR y - INR u) * (INR y - INR u)).
Proof.
  apply (distanceTransform2D_lower_envelope 2 2 (fst (initialise 2 2 Example.half_mask)));
    [lia|lia|].
  apply (initialise_bounded 2 2); lia.
Defined.

End TransformTheorems.

Section ExactField.

Import SDF.
Local Open Scope R_scope.

(** X27: [computeDistanceField] returns the Euclidean distances, in exact
    arithmetic: the value of an inside cell is [- sqrt m * resolution] and
    the value of an outside cell [sqrt m * resolution], where [m] is the
    least squared distance, in cells, to a cell of the other kind; if the
    mask has no cell of the other kind the value is [(w + h) * resolution],
    negated inside. *)
Theorem signed_distance_is_euclidean (w h : nat) (resolution : R) (inside : list Z) :
  (0 < w)%nat -> (0 < h)%nat ->
  exists sdf, computeDistanceField w h resolution inside = Some sdf /\
    length sdf = (w * h)%nat /\
    forall x y, (x < w)%nat -> (y < h)%nat ->
      let i := (y * w + x)%nat in
      let other := fun j => truthy (inside !! j) = negb (truthy (inside !! i)) in
      let sign := if truthy (inside !! i) then -1 else 1 in
      ((exists c u, (c < w)%nat /\ (u < h)%nat /\ other (u * w + c)%nat) ->
       exists m, nearest w h other x y m /\
         sdf !! i = Some (sign * (sqrt m * resolution))) /\
      ((forall c u, (c < w)%nat -> (u < h)%nat -> ~ other (u * w + c)%nat) ->
       sdf !! i = Some (sign * (INR (w + h) * resolution))).
Proof.
  intros Hw Hh.
  pose proof (initialise_spec w h Hw Hh inside) as Hinit.
  unfold computeDistanceField.
  destruct (initialise w h inside) as [dO0 dI0].
  destruct Hinit as (HlO0 & HlI0 & Hinit & _).
  destruct (transform_of_mask w h Hw Hh (fun j => truthy (inside !! j)) dO0 HlO0)
    as (dO & -> & HlO & HO).
  { intros j Hj. now destruct (Hinit j Hj Hj) as [-> _]. }
  destruct (transform_of_mask w h Hw Hh (fun j => negb (truthy (inside !! j))) dI0 HlI0)
    as (dI & -> & HlI & HI).
  { intros j Hj. destruct (Hinit j Hj Hj) as [_ ->]. now destruct (truthy _). }
  cbn.
  destruct (combine_total (w * h) resolution inside dO dI HlO HlI) as (sdf & -> & Hl & Hsdf).
  exists sdf. split; [reflexivity|]. split; [exact Hl|].
  intros x y Hx Hy. cbv zeta. set (i := (y * w + x)%nat).
  pose proof (index_in_grid w h x y Hx Hy) as Hi. fold i in Hi.
  destruct (Hsdf i Hi) as (d & Hd & vO & vI & HvO & HvI & Ed).
  apply read_lookup in HvO, HvI.
  destruct (HO x y Hx Hy) as [HOnear HOnone]. destruct (HI x y Hx Hy) as [HInear HInone].
  fold i in HOnear, HOnone, HInear, HInone. rewrite HvO in HOnear, HOnone.
  rewrite HvI in HInear, HInone.
  assert (HW : 0 <= INR (w + h)) by apply pos_INR.
  rewrite Hd, Ed. destruct (truthy (inside !! i)); cbn [negb]; split.
  - intros (c & u & Hc & Hu & Hcu). exists vI. split.
    + assert (Hnear : nearest w h (fun j => negb (truthy (inside !! j)) = true) x y vI).
      { apply HInear. exists c, u. rewrite Hcu. auto. }
      destruct Hnear as [(c' & u' & Hc' & Hu' & HP' & E') Hmin]. split.
      * exists c', u'. split; [exact Hc'|]. split; [exact Hu'|]. split; [|exact E'].
        now apply negb_true_iff.
      * intros c'' u'' Hc'' Hu'' HP''. apply Hmin; try assumption.
        now apply negb_true_iff.
    + f_equal. ring.
  - intros Hnone. rewrite HInone; [rewrite sqrt_square by exact HW; f_equal; ring|].
    intros c u Hc Hu. specialize (Hnone c u Hc Hu).
    destruct (truthy (inside !! _)); [reflexivity|]. now contradiction Hnone.
  - intros (c & u & Hc & Hu & Hcu). exists vO. split.
    + apply HOnear. exists c, u. auto.
    + f_equal. ring.
  - intros Hnone. rewrite HOnone; [rewrite sqrt_square by exact HW; f_equal; ring|].
    intros c u Hc Hu. specialize (Hnone c u Hc Hu).
    destruct (truthy (inside !! _)); [now contradiction Hnone|reflexivity].
Qed.

Lemma signed_distance_is_euclidean_witness :
  exists sdf, computeDistanceField 2 2 4 Example.half_mask = Some sdf /\
    length sdf = (2 * 2)%nat /\
    forall x y, (x < 2)%nat -> (y < 2)%nat ->
      let i := (y * 2 + x)%nat in
      let other := fun j => truthy (Example.half_mask !! j)
                            = negb (truthy (Example.half_mask !! i)) in
      let sign := if truthy (Example.half_mask !! i) then -1 else 1 in
      ((exists c u, (c < 2)%nat /\ (u < 2)%nat /\ other (u * 2 + c)%nat) ->
       exists m, nearest 2 2 other x y m /\
         sdf !! i = Some (sign * (sqrt m * 4))) /\
      ((forall c u, (c < 2)%nat -> (u < 2)%nat -> ~ other (u * 2 + c)%nat) ->
       sdf !! i = Some (sign * (INR (2 + 2) * 4))).
Proof. apply (signed_distance_is_euclidean 2 2 4 Example.half_mask); lia. Defined.

End ExactField.

Section Magnitude.

Import SDF.
Local Open Scope R_scope.



End Magnitude.

Section SignedField.

Import SDF.
Local Open Scope R_scope.




End SignedField.
